(** * Seat booking on a lazy segment tree: a shallow embedding of [index.js]

    The development follows the two classes of the program that hold booking
    state: [SegmentTree] (range add / range max over an implicit binary heap
    stored in two arrays) and [SeatBookingSystem] (one tree per seat, one
    global tree, the bookings log and the operation counter).

    Numbers are modelled as integers ([Z]); array positions as [nat].  The
    source computes with IEEE doubles, which agree with the integers as long
    as every value formed stays within [2^53] in magnitude: the ledger only
    ever adds [1] and [-1], and the statements that equate the values of a
    tree with sums of arbitrary deltas carry a bound on the deltas and show
    that every cell stays within [2^52].  Memory is taken to be unbounded: [new Array(k)] succeeds for
    every length the language allows, so no statement below says that a
    constructor returns, only what holds when it has.
    JavaScript reads [undefined] from a position outside an array and grows
    the array on a write there.  The model stops with the fault
    [IndexOutOfRange] instead, so that "every access is inside the array"
    becomes "the run ends in [Ok]".  Calling a method on a missing seat
    (a [TypeError] in JavaScript) is the fault [UndefinedSeat], and
    [new Array(k)] with [k] outside [0, 2^32) (a [RangeError]) is
    [InvalidArrayLength].  The recursion of [update] and [query] is written
    with a fuel argument; [OutOfFuel] is shown never to be produced on the
    trees the program builds.  The [timestamp] field of a booking is not
    modelled: nothing reads it.  Where a parameter of the source shares its
    name with a field ([seatId]) or with a keyword ([end]) it is written
    [seat] and [end_]. *)

From stdpp Require Import list.
From Stdlib Require Import ZArith Lia Bool.

Open Scope Z_scope.

(** ** Faults, results and a state monad *)

Inductive fault : Type :=
| IndexOutOfRange
| InvalidArrayLength
| UndefinedSeat
| OutOfFuel.

Inductive res (A : Type) : Type :=
| Ok (a : A)
| Err (f : fault).

Arguments Ok {A} a.
Arguments Err {A} f.

Definition M (S A : Type) : Type := S -> res (A * S).

Definition ret {S A : Type} (a : A) : M S A := fun s => Ok (a, s).

Definition bind {S A B : Type} (m : M S A) (k : A -> M S B) : M S B :=
  fun s => match m s with
           | Ok (a, s') => k a s'
           | Err f => Err f
           end.

Definition throw {S A : Type} (f : fault) : M S A := fun _ => Err f.

Notation "'let*' x ':=' c1 'in' c2" := (bind c1 (fun x => c2))
  (at level 10, x name, c1 at level 100, c2 at level 200).
Notation "c1 '>>>' c2" := (bind c1 (fun _ => c2))
  (at level 100, c2 at level 200, right associativity).

(** ** class SegmentTree *)

Module SegmentTree.

Record t : Type := mk { n : Z; tree : list Z; lazy : list Z }.

(** [new Array(len).fill(0)]: a [RangeError] for a length outside
    [0, 2^32); an engine may refuse a smaller length too when memory is
    short, which is not modelled. *)
Definition newArray (len : Z) : res (list Z) :=
  if (0 <=? len) && (len <? 2 ^ 32)
  then Ok (replicate (Z.to_nat len) 0)
  else Err InvalidArrayLength.

Definition constructor (n : Z) : res t :=
  match newArray (4 * n) with
  | Ok tr =>
      match newArray (4 * n) with
      | Ok lz => Ok (mk n tr lz)
      | Err f => Err f
      end
  | Err f => Err f
  end.

(** [this.tree[i]] and [this.lazy[i]] as r-values *)
Definition getTree (i : nat) : M t Z :=
  fun s => match tree s !! i with
           | Some v => Ok (v, s)
           | None => Err IndexOutOfRange
           end.

Definition getLazy (i : nat) : M t Z :=
  fun s => match lazy s !! i with
           | Some v => Ok (v, s)
           | None => Err IndexOutOfRange
           end.

(** [this.tree[i] = v] and [this.lazy[i] = v] *)
Definition setTree (i : nat) (v : Z) : M t unit :=
  fun s => if decide (i < length (tree s))%nat
           then Ok (tt, mk (n s) (<[i := v]> (tree s)) (lazy s))
           else Err IndexOutOfRange.

Definition setLazy (i : nat) (v : Z) : M t unit :=
  fun s => if decide (i < length (lazy s))%nat
           then Ok (tt, mk (n s) (tree s) (<[i := v]> (lazy s)))
           else Err IndexOutOfRange.

Definition pushDown (node : nat) : M t unit :=
  let* lz := getLazy node in
  if negb (lz =? 0) then
    let leftChild := (2 * node + 1)%nat in
    let rightChild := (2 * node + 2)%nat in
    (let* a := getTree leftChild in let* b := getLazy node in setTree leftChild (a + b)) >>>
    (let* a := getTree rightChild in let* b := getLazy node in setTree rightChild (a + b)) >>>
    (let* a := getLazy leftChild in let* b := getLazy node in setLazy leftChild (a + b)) >>>
    (let* a := getLazy rightChild in let* b := getLazy node in setLazy rightChild (a + b)) >>>
    setLazy node 0
  else ret tt.

(** [update(l, r, val, node, start, end)]; [Math.floor((start + end) / 2)]
    is [Z] division, which rounds down. *)
Fixpoint update_rec (fuel : nat) (l r val : Z) (node : nat) (start end_ : Z)
  : M t unit :=
  match fuel with
  | O => throw OutOfFuel
  | S fuel' =>
      if (r <=? start) || (end_ <=? l) then ret tt
      else if (l <=? start) && (end_ <=? r) then
        (let* a := getTree node in setTree node (a + val)) >>>
        (let* a := getLazy node in setLazy node (a + val))
      else
        pushDown node >>>
        let mid := (start + end_) / 2 in
        update_rec fuel' l r val (2 * node + 1)%nat start mid >>>
        update_rec fuel' l r val (2 * node + 2)%nat mid end_ >>>
        let leftChild := (2 * node + 1)%nat in
        let rightChild := (2 * node + 2)%nat in
        let* tl := getTree leftChild in
        let* ll := getLazy leftChild in
        let* tr := getTree rightChild in
        let* lr := getLazy rightChild in
        setTree node (Z.max (tl + ll) (tr + lr))
  end.

(** The public call [update(l, r, val)]: node 0 covering [0, n). *)
Definition update (l r val : Z) : M t unit :=
  fun s => update_rec (S (Z.to_nat (n s))) l r val 0%nat 0 (n s) s.

Fixpoint query_rec (fuel : nat) (l r : Z) (node : nat) (start end_ : Z)
  : M t Z :=
  match fuel with
  | O => throw OutOfFuel
  | S fuel' =>
      if (r <=? start) || (end_ <=? l) then ret 0
      else if (l <=? start) && (end_ <=? r) then getTree node
      else
        pushDown node >>>
        let mid := (start + end_) / 2 in
        let* leftMax := query_rec fuel' l r (2 * node + 1)%nat start mid in
        let* rightMax := query_rec fuel' l r (2 * node + 2)%nat mid end_ in
        ret (Z.max leftMax rightMax)
  end.

Definition query (l r : Z) : M t Z :=
  fun s => query_rec (S (Z.to_nat (n s))) l r 0%nat 0 (n s) s.

(** The effective value that [collectNodes] (in [getTreeVisualization])
    shows for the leaf [[i, i+1)]: the walk from [(node, start, end)] with
    the lazy values of the nodes above summed in [accLazy], and
    [effectiveVal = tree[node] + accLazy] at the leaf.  On the way to a
    segment of the tree the guards [start >= end] and [start >= this.n] of
    [collectNodes] never fire, so they are left out.  Positions are read
    with the total lookup of lists; on a well-formed tree every position
    read exists. *)
Fixpoint collectLeaf (fuel : nat) (s : t) (node : nat) (start end_ accLazy i : Z)
  : Z :=
  match fuel with
  | O => 0
  | S fuel' =>
      let effectiveVal := tree s !!! node + accLazy in
      let isLeaf := end_ - start =? 1 in
      if isLeaf then effectiveVal
      else
        let childAccLazy := accLazy + lazy s !!! node in
        let mid := (start + end_) / 2 in
        if i <? mid
        then collectLeaf fuel' s (2 * node + 1)%nat start mid childAccLazy i
        else collectLeaf fuel' s (2 * node + 2)%nat mid end_ childAccLazy i
  end.

Definition effectiveLeaf (s : t) (i : Z) : Z :=
  collectLeaf (Z.to_nat (n s)) s 0%nat 0 (n s) 0 i.

(** An entry of [allNodes] in [getTreeVisualization].  The template string
    [range] is kept as the pair of numbers interpolated into it. *)
Module Node.
Record t : Type := mk {
  node : nat;
  start : Z;
  end_ : Z;
  value : Z;
  range : Z * Z;
  depth : Z;
  isLeaf : bool;
  accLazy : Z
}.
End Node.

(** An entry [{ value, range }] of a level of the visualisation. *)
Module Cell.
Record t : Type := mk { value : Z; range : Z * Z }.
End Cell.

(** [this.tree[node]] and [this.lazy[node]] read inside [collectNodes], and
    [allNodes.push(x)]: the state threaded through is [allNodes]. *)
Definition readCell (cells : list Z) (i : nat) : M (list Node.t) Z :=
  fun allNodes => match cells !! i with
                  | Some v => Ok (v, allNodes)
                  | None => Err IndexOutOfRange
                  end.

Definition push (x : Node.t) : M (list Node.t) unit :=
  fun allNodes => Ok (tt, allNodes ++ [x]).

Fixpoint collectNodes (fuel : nat) (s : t) (node : nat) (start end_ accLazy depth : Z)
  : M (list Node.t) unit :=
  match fuel with
  | O => throw OutOfFuel
  | S fuel' =>
      if (start >=? end_) || (start >=? n s) then ret tt
      else
        let* tv := readCell (tree s) node in
        let effectiveVal := tv + accLazy in
        let isLeaf := end_ - start =? 1 in
        push (Node.mk node start end_ effectiveVal
                (start + 1, Z.min end_ (n s) + 1) depth isLeaf accLazy) >>>
        if negb isLeaf then
          let* lz := readCell (lazy s) node in
          let childAccLazy := accLazy + lz in
          let mid := (start + end_) / 2 in
          collectNodes fuel' s (2 * node + 1)%nat start mid childAccLazy (depth + 1) >>>
          collectNodes fuel' s (2 * node + 2)%nat mid end_ childAccLazy (depth + 1)
        else ret tt
  end.

(** [Math.max(...depths)]; [None] stands for the [-Infinity] of an empty
    argument list. *)
Definition maxOf (depths : list Z) : option Z :=
  match depths with
  | [] => None
  | d :: rest => Some (foldr Z.max d rest)
  end.

(** The [displayLevel] that the [forEach] writes into a node. *)
Definition displayLevel (maxLeafDepth : Z) (nd : Node.t) : Z :=
  if Node.isLeaf nd then maxLeafDepth
  else if Node.depth nd <=? 2 then Node.depth nd
  else -1.

(** [nodes.sort((a, b) => a.start - b.start)]: the stable sort by [start],
    written as an insertion sort that keeps equal keys in their order. *)
Fixpoint insertByStart (x : Node.t) (l : list Node.t) : list Node.t :=
  match l with
  | [] => [x]
  | y :: l' => if Node.start y <? Node.start x then y :: insertByStart x l' else x :: l
  end.

Definition sortByStart (l : list Node.t) : list Node.t := foldr insertByStart [] l.

(** The body of the loop [for (level = 0; level <= maxLeafDepth; level++)]. *)
Definition pushLevel (allNodes : list Node.t) (maxLeafDepth : Z)
  (levels : list (list Cell.t)) (level : Z) : list (list Cell.t) :=
  let nodesAtLevel :=
    sortByStart (filter (fun nd => displayLevel maxLeafDepth nd = level) allNodes) in
  if Z.of_nat (length nodesAtLevel) >? 0
  then levels ++ [map (fun nd => Cell.mk (Node.value nd) (Node.range nd)) nodesAtLevel]
  else levels.

Definition getTreeVisualization (s : t) : res (list (list Cell.t)) :=
  if n s =? 0 then Ok []
  else
    match collectNodes (S (Z.to_nat (n s))) s 0%nat 0 (n s) 0 0 [] with
    | Err f => Err f
    | Ok (_, allNodes) =>
        match maxOf (map Node.depth
                       (filter (fun nd => Node.isLeaf nd = true) allNodes)) with
        | None => Ok []
        | Some maxLeafDepth =>
            Ok (foldl (pushLevel allNodes maxLeafDepth) [] (seqZ 0 (maxLeafDepth + 1)))
        end
    end.

(** The other [getTreeVisualization] that the file carries (its second
    copy of the class): one row per depth, at most five rows, ranges shown
    0-based. *)
Module ByLevel.

(** An entry [{ node, start, end, accLazy }] of [nodes] and [nextNodes]. *)
Record Pending : Type := mkPending {
  node : nat;
  start : Z;
  end_ : Z;
  accLazy : Z
}.

(** The loop [for (const { node, start, end, accLazy } of nodes)] of
    [buildLevel], with [level] and [nextNodes] as they stand. *)
Fixpoint scan (s : t) (nodes : list Pending) (level : list Cell.t)
  (nextNodes : list Pending) : res (list Cell.t * list Pending) :=
  match nodes with
  | [] => Ok (level, nextNodes)
  | nd :: rest =>
      if (start nd >=? end_ nd) || (start nd >=? n s) then scan s rest level nextNodes
      else
        match tree s !! node nd with
        | None => Err IndexOutOfRange
        | Some tv =>
            let effectiveVal := tv + accLazy nd in
            let level' :=
              level ++ [Cell.mk effectiveVal (start nd, Z.min (end_ nd) (n s))] in
            if end_ nd - start nd >? 1 then
              match lazy s !! node nd with
              | None => Err IndexOutOfRange
              | Some lz =>
                  let childAccLazy := accLazy nd + lz in
                  let mid := (start nd + end_ nd) / 2 in
                  scan s rest level'
                    (nextNodes ++
                     [mkPending (2 * node nd + 1) (start nd) mid childAccLazy;
                      mkPending (2 * node nd + 2) mid (end_ nd) childAccLazy])
              end
            else scan s rest level' nextNodes
        end
  end.

(** [buildLevel(nodes)]; the state threaded through is [levels]. *)
Fixpoint buildLevel (fuel : nat) (s : t) (nodes : list Pending)
  : M (list (list Cell.t)) unit :=
  match fuel with
  | O => throw OutOfFuel
  | S fuel' =>
      fun levels =>
        match scan s nodes [] [] with
        | Err f => Err f
        | Ok (level, nextNodes) =>
            if Z.of_nat (length level) >? 0 then
              let levels' := levels ++ [level] in
              if (Z.of_nat (length levels') <? 5) && (Z.of_nat (length nextNodes) >? 0)
              then buildLevel fuel' s nextNodes levels'
              else Ok (tt, levels')
            else Ok (tt, levels)
        end
  end.

Definition getTreeVisualization (s : t) : res (list (list Cell.t)) :=
  if n s =? 0 then Ok []
  else
    match buildLevel 5 s [mkPending 0 0 (n s) 0] [] with
    | Ok (_, levels) => Ok levels
    | Err f => Err f
    end.

End ByLevel.

End SegmentTree.

(** ** class SeatBookingSystem *)

Module SeatBookingSystem.

Record Booking : Type := mkBooking {
  id : Z;
  seatId : Z;
  from : Z;
  to : Z;
  active : bool
}.

(** The template strings of the result messages, kept as terms: the
    constructor is the fixed text, the arguments are the interpolated
    values (seat and station numbers are shown 1-based by the source). *)
Inductive messageText : Type :=
| InvalidSeatID (seatId : Z)
| InvalidStationRange (l r : Z)
| AlreadyBooked (seat : Z) (conflicts : list (Z * Z))
| SeatBooked (seat fromStation toStation : Z)
| NoBookingFound (seat fromStation toStation : Z)
| BookingCancelled (seat fromStation toStation : Z)
| SeatsAvailable (count fromStation toStation : Z)
| NoSeatsAvailable (fromStation toStation : Z).

Record result : Type := mkResult {
  success : bool;
  message : messageText;
  bookingId : option Z
}.

(** The object returned by [queryAvailable]. *)
Module Availability.
Record t : Type := mk {
  available : list Z;
  message : messageText
}.
End Availability.

Inductive status : Type := Available | Booked | Partial.

Record t : Type := mk {
  numSeats : Z;
  numStations : Z;
  numSegments : Z;
  seats : list SegmentTree.t;
  globalTree : SegmentTree.t;
  bookings : list Booking;
  operationCount : Z
}.

(** The loop [for (i = 0; i < numSeats; i++) seats.push(new SegmentTree(..))] *)
Fixpoint pushSeats (count : nat) (numSegments : Z) (seats : list SegmentTree.t)
  : res (list SegmentTree.t) :=
  match count with
  | O => Ok seats
  | S count' =>
      match SegmentTree.constructor numSegments with
      | Ok tr => pushSeats count' numSegments (seats ++ [tr])
      | Err f => Err f
      end
  end.

Definition constructor (numSeats numStations : Z) : res t :=
  let numSegments := numStations - 1 in
  match pushSeats (Z.to_nat numSeats) numSegments [] with
  | Ok seats =>
      match SegmentTree.constructor numSegments with
      | Ok globalTree => Ok (mk numSeats numStations numSegments seats globalTree [] 0)
      | Err f => Err f
      end
  | Err f => Err f
  end.

(** [this.operationCount++] *)
Definition countOperation : M t unit :=
  fun s => Ok (tt, mk (numSeats s) (numStations s) (numSegments s) (seats s)
                      (globalTree s) (bookings s) (operationCount s + 1)).

(** A method call on [this.seats[seatId]]: the tree object is mutated in
    place, so the outcome is stored back at the same position. *)
Definition onSeat {A : Type} (seatId : Z) (m : M SegmentTree.t A) : M t A :=
  fun s =>
    if seatId <? 0 then Err UndefinedSeat
    else match seats s !! Z.to_nat seatId with
         | None => Err UndefinedSeat
         | Some tr =>
             match m tr with
             | Ok (a, tr') =>
                 Ok (a, mk (numSeats s) (numStations s) (numSegments s)
                           (<[Z.to_nat seatId := tr']> (seats s))
                           (globalTree s) (bookings s) (operationCount s))
             | Err f => Err f
             end
         end.

(** A method call on [this.globalTree]. *)
Definition onGlobalTree {A : Type} (m : M SegmentTree.t A) : M t A :=
  fun s =>
    match m (globalTree s) with
    | Ok (a, tr') =>
        Ok (a, mk (numSeats s) (numStations s) (numSegments s) (seats s)
                  tr' (bookings s) (operationCount s))
    | Err f => Err f
    end.

Definition getBookings : M t (list Booking) := fun s => Ok (bookings s, s).

Definition setBookings (bs : list Booking) : M t unit :=
  fun s => Ok (tt, mk (numSeats s) (numStations s) (numSegments s) (seats s)
                      (globalTree s) bs (operationCount s)).

Definition get {A : Type} (field : t -> A) : M t A := fun s => Ok (field s, s).

(** [seatId < 0 || seatId >= this.numSeats] *)
Definition invalidSeat (seatId numSeats : Z) : bool :=
  (seatId <? 0) || (seatId >=? numSeats).

(** [l < 0 || r > this.numStations || l >= r] *)
Definition invalidRange (l r numStations : Z) : bool :=
  (l <? 0) || (r >? numStations) || (l >=? r).

(** [b.seatId === seatId && b.active && b.from < r && b.to > l] *)
Definition conflictsWith (seat l r : Z) (b : Booking) : bool :=
  (seatId b =? seat) && active b && (from b <? r) && (to b >? l).

(** [b.seatId === seatId && b.from === l && b.to === r && b.active] *)
Definition matches (seat l r : Z) (b : Booking) : bool :=
  (seatId b =? seat) && (from b =? l) && (to b =? r) && active b.

(** [Array.prototype.find], returning the position of the object found so
    that the later [booking.active = false] can be written through it. *)
Fixpoint find (p : Booking -> bool) (bs : list Booking) : option (nat * Booking) :=
  match bs with
  | [] => None
  | b :: rest =>
      if p b then Some (O, b)
      else match find p rest with
           | Some (i, b') => Some (S i, b')
           | None => None
           end
  end.

Definition book (seat l r : Z) : M t result :=
  countOperation >>>
  let* numSeats := get numSeats in
  let* numStations := get numStations in
  if invalidSeat seat numSeats then
    ret (mkResult false (InvalidSeatID seat) None)
  else if invalidRange l r numStations then
    ret (mkResult false (InvalidStationRange l r) None)
  else
    let* maxOccupancy := onSeat seat (SegmentTree.query l r) in
    if maxOccupancy >? 0 then
      let* bs := getBookings in
      let conflicts :=
        map (fun b => (from b + 1, to b + 1))
            (filter (fun b => conflictsWith seat l r b = true) bs) in
      ret (mkResult false (AlreadyBooked (seat + 1) conflicts) None)
    else
      onSeat seat (SegmentTree.update l r 1) >>>
      onGlobalTree (SegmentTree.update l r 1) >>>
      let* bs := getBookings in
      let booking := mkBooking (Z.of_nat (length bs) + 1) seat l r true in
      setBookings (bs ++ [booking]) >>>
      ret (mkResult true (SeatBooked (seat + 1) (l + 1) (r + 1)) (Some (id booking))).

Definition cancel (seat l r : Z) : M t result :=
  countOperation >>>
  let* numSeats := get numSeats in
  let* numStations := get numStations in
  if invalidSeat seat numSeats then
    ret (mkResult false (InvalidSeatID seat) None)
  else if invalidRange l r numStations then
    ret (mkResult false (InvalidStationRange l r) None)
  else
    let* bs := getBookings in
    match find (matches seat l r) bs with
    | None => ret (mkResult false (NoBookingFound (seat + 1) (l + 1) (r + 1)) None)
    | Some (i, booking) =>
        onSeat seat (SegmentTree.update l r (-1)) >>>
        onGlobalTree (SegmentTree.update l r (-1)) >>>
        let* bs' := getBookings in
        setBookings (<[i := mkBooking (id booking) (seatId booking) (from booking)
                                      (to booking) false]> bs') >>>
        ret (mkResult true (BookingCancelled (seat + 1) (l + 1) (r + 1)) None)
    end.

(** The loop of [queryAvailable] over the seat indices still to visit. *)
Fixpoint queryAvailableLoop (seatIds : list Z) (l r : Z) (available : list Z)
  : M t (list Z) :=
  match seatIds with
  | [] => ret available
  | seat :: rest =>
      let* maxOccupancy := onSeat seat (SegmentTree.query l r) in
      if maxOccupancy =? 0
      then queryAvailableLoop rest l r (available ++ [seat])
      else queryAvailableLoop rest l r available
  end.

Definition queryAvailable (l r : Z) : M t Availability.t :=
  countOperation >>>
  let* numSeats := get numSeats in
  let* numStations := get numStations in
  if invalidRange l r numStations then
    ret (Availability.mk [] (InvalidStationRange l r))
  else
    let* available := queryAvailableLoop (seqZ 0 numSeats) l r [] in
    let message :=
      if Z.of_nat (length available) >? 0
      then SeatsAvailable (Z.of_nat (length available)) (l + 1) (r + 1)
      else NoSeatsAvailable (l + 1) (r + 1) in
    ret (Availability.mk available message).

Definition isAvailable (seat l r : Z) : M t bool :=
  let* numSeats := get numSeats in
  let* numStations := get numStations in
  if invalidSeat seat numSeats then ret false
  else if invalidRange l r numStations then ret false
  else
    let* q := onSeat seat (SegmentTree.query l r) in
    ret (q =? 0).

(** The loop of [getSeatStatus] with its [break]: the value of [allBooked]
    when the loop is left. *)
Fixpoint allBookedLoop (segments : list Z) (seat : Z) : M t bool :=
  match segments with
  | [] => ret true
  | i :: rest =>
      let* q := onSeat seat (SegmentTree.query i (i + 1)) in
      if q =? 0 then ret false else allBookedLoop rest seat
  end.

Definition getSeatStatus (seat : Z) : M t status :=
  let* numSeats := get numSeats in
  let* numSegments := get numSegments in
  if invalidSeat seat numSeats then ret Available
  else
    let* maxOccupancy := onSeat seat (SegmentTree.query 0 numSegments) in
    if maxOccupancy =? 0 then ret Available
    else
      let* allBooked := allBookedLoop (seqZ 0 numSegments) seat in
      ret (if allBooked then Booked else Partial).

Definition getActiveBookings (s : t) : Z :=
  Z.of_nat (length (filter (fun b => active b = true) (bookings s))).

Definition getGlobalTreeVisualization (s : t) : res (list (list SegmentTree.Cell.t)) :=
  SegmentTree.getTreeVisualization (globalTree s).

Definition getTreeVisualization (seat : Z) (s : t)
  : res (list (list SegmentTree.Cell.t)) :=
  if invalidSeat seat (numSeats s) then Ok []
  else match seats s !! Z.to_nat seat with
       | Some tr => SegmentTree.getTreeVisualization tr
       | None => Err UndefinedSeat
       end.

End SeatBookingSystem.

(** ** Auxiliary notions for the proofs *)

(** Positions of the implicit heap below a node: [desc k j] holds when [j]
    is reached from [k] by the child maps [2j+1] and [2j+2]. *)
Inductive desc (k : nat) : nat -> Prop :=
| desc_self : desc k k
| desc_left j : desc k j -> desc k (2 * j + 1)%nat
| desc_right j : desc k j -> desc k (2 * j + 2)%nat.

(** A tree as the constructor leaves it and every operation keeps it:
    both arrays have [4 * n] cells. *)
Definition wf (s : SegmentTree.t) : Prop :=
  0 <= SegmentTree.n s /\
  length (SegmentTree.tree s) = Z.to_nat (4 * SegmentTree.n s) /\
  length (SegmentTree.lazy s) = Z.to_nat (4 * SegmentTree.n s).

(** Same segment count and same array lengths. *)
Definition shape (s s' : SegmentTree.t) : Prop :=
  SegmentTree.n s' = SegmentTree.n s /\
  length (SegmentTree.tree s') = length (SegmentTree.tree s) /\
  length (SegmentTree.lazy s') = length (SegmentTree.lazy s).

(** The two trees hold the same cells at position [j]. *)
Definition same_at (s s' : SegmentTree.t) (j : nat) : Prop :=
  SegmentTree.tree s' !!! j = SegmentTree.tree s !!! j /\
  SegmentTree.lazy s' !!! j = SegmentTree.lazy s !!! j.

(** Only cells below [k] may differ. *)
Definition same_outside (k : nat) (s s' : SegmentTree.t) : Prop :=
  forall j, ~ desc k j -> same_at s s' j.

(** The node [(node, start, end_)] sits at a depth where [P = 2^depth]:
    its position is below [2P - 1], and its width is small enough for the
    children of every node of width two or more to exist in the arrays. *)
Definition fits (s : SegmentTree.t) (node : nat) (start end_ P : Z) : Prop :=
  1 <= P /\ Z.of_nat node + 2 <= 2 * P /\
  (end_ - start - 1) * P <= SegmentTree.n s - 1 /\
  P <= 2 * SegmentTree.n s - 1.

(** Whether segment [i] lies in [[l, r)]. *)
Definition covers (l r i : Z) : bool := (l <=? i) && (i <? r).

(** Two trees of the same shape that show the same effective value at
    every leaf. *)
Definition leaf_equiv (s s' : SegmentTree.t) : Prop :=
  shape s s' /\
  forall i, 0 <= i < SegmentTree.n s ->
            SegmentTree.effectiveLeaf s' i = SegmentTree.effectiveLeaf s i.

(** What [query(i, i+1)] returns, when it returns. *)
Definition pointQuery (s : SegmentTree.t) (i : Z) : option Z :=
  match SegmentTree.query i (i + 1) s with
  | Ok (v, _) => Some v
  | Err _ => None
  end.

(** The ledger after [this.operationCount++] and nothing else. *)
Definition counted (s : SeatBookingSystem.t) : SeatBookingSystem.t :=
  SeatBookingSystem.mk
    (SeatBookingSystem.numSeats s) (SeatBookingSystem.numStations s)
    (SeatBookingSystem.numSegments s) (SeatBookingSystem.seats s)
    (SeatBookingSystem.globalTree s) (SeatBookingSystem.bookings s)
    (SeatBookingSystem.operationCount s + 1).

(** The ledger with the tree of one seat replaced. *)
Definition withSeat (seat : Z) (tr : SegmentTree.t) (s : SeatBookingSystem.t)
  : SeatBookingSystem.t :=
  SeatBookingSystem.mk
    (SeatBookingSystem.numSeats s) (SeatBookingSystem.numStations s)
    (SeatBookingSystem.numSegments s)
    (<[Z.to_nat seat := tr]> (SeatBookingSystem.seats s))
    (SeatBookingSystem.globalTree s) (SeatBookingSystem.bookings s)
    (SeatBookingSystem.operationCount s).

(** The ledger with the global tree replaced. *)
Definition withGlobalTree (tr : SegmentTree.t) (s : SeatBookingSystem.t)
  : SeatBookingSystem.t :=
  SeatBookingSystem.mk
    (SeatBookingSystem.numSeats s) (SeatBookingSystem.numStations s)
    (SeatBookingSystem.numSegments s) (SeatBookingSystem.seats s)
    tr (SeatBookingSystem.bookings s) (SeatBookingSystem.operationCount s).

(** The ledger with the bookings log replaced. *)
Definition withBookings (bs : list SeatBookingSystem.Booking)
  (s : SeatBookingSystem.t) : SeatBookingSystem.t :=
  SeatBookingSystem.mk
    (SeatBookingSystem.numSeats s) (SeatBookingSystem.numStations s)
    (SeatBookingSystem.numSegments s) (SeatBookingSystem.seats s)
    (SeatBookingSystem.globalTree s) bs (SeatBookingSystem.operationCount s).

(** A booking with [active] set to [false]. *)
Definition deactivated (b : SeatBookingSystem.Booking) : SeatBookingSystem.Booking :=
  SeatBookingSystem.mkBooking
    (SeatBookingSystem.id b) (SeatBookingSystem.seatId b)
    (SeatBookingSystem.from b) (SeatBookingSystem.to b) false.

(** A record as [book] writes it: seat and range passed validation. *)
Definition valid_booking (s : SeatBookingSystem.t) (b : SeatBookingSystem.Booking)
  : Prop :=
  SeatBookingSystem.invalidSeat (SeatBookingSystem.seatId b)
    (SeatBookingSystem.numSeats s) = false /\
  SeatBookingSystem.invalidRange (SeatBookingSystem.from b) (SeatBookingSystem.to b)
    (SeatBookingSystem.numStations s) = false.

(** The four ways through [book], each with the result it returns and the
    ledger it leaves. *)
Inductive book_outcome (s : SeatBookingSystem.t) (seat l r : Z)
  : SeatBookingSystem.result -> SeatBookingSystem.t -> Prop :=
| book_invalid_seat :
    SeatBookingSystem.invalidSeat seat (SeatBookingSystem.numSeats s) = true ->
    book_outcome s seat l r
      (SeatBookingSystem.mkResult false (SeatBookingSystem.InvalidSeatID seat) None)
      (counted s)
| book_invalid_range :
    SeatBookingSystem.invalidSeat seat (SeatBookingSystem.numSeats s) = false ->
    SeatBookingSystem.invalidRange l r (SeatBookingSystem.numStations s) = true ->
    book_outcome s seat l r
      (SeatBookingSystem.mkResult false (SeatBookingSystem.InvalidStationRange l r) None)
      (counted s)
| book_conflict tr v tr1 :
    SeatBookingSystem.invalidSeat seat (SeatBookingSystem.numSeats s) = false ->
    SeatBookingSystem.invalidRange l r (SeatBookingSystem.numStations s) = false ->
    SeatBookingSystem.seats s !! Z.to_nat seat = Some tr ->
    SegmentTree.query l r tr = Ok (v, tr1) ->
    0 < v ->
    book_outcome s seat l r
      (SeatBookingSystem.mkResult false
         (SeatBookingSystem.AlreadyBooked (seat + 1)
            (map (fun b => (SeatBookingSystem.from b + 1, SeatBookingSystem.to b + 1))
               (filter (fun b => SeatBookingSystem.conflictsWith seat l r b = true)
                  (SeatBookingSystem.bookings s))))
         None)
      (withSeat seat tr1 (counted s))
| book_success tr v tr1 tr2 g2 :
    SeatBookingSystem.invalidSeat seat (SeatBookingSystem.numSeats s) = false ->
    SeatBookingSystem.invalidRange l r (SeatBookingSystem.numStations s) = false ->
    SeatBookingSystem.seats s !! Z.to_nat seat = Some tr ->
    SegmentTree.query l r tr = Ok (v, tr1) ->
    v <= 0 ->
    SegmentTree.update l r 1 tr1 = Ok (tt, tr2) ->
    SegmentTree.update l r 1 (SeatBookingSystem.globalTree s) = Ok (tt, g2) ->
    book_outcome s seat l r
      (SeatBookingSystem.mkResult true
         (SeatBookingSystem.SeatBooked (seat + 1) (l + 1) (r + 1))
         (Some (Z.of_nat (length (SeatBookingSystem.bookings s)) + 1)))
      (withBookings
         (SeatBookingSystem.bookings s ++
          [SeatBookingSystem.mkBooking
             (Z.of_nat (length (SeatBookingSystem.bookings s)) + 1) seat l r true])
         (withGlobalTree g2 (withSeat seat tr2 (withSeat seat tr1 (counted s))))).

(** The four ways through [cancel]. *)
Inductive cancel_outcome (s : SeatBookingSystem.t) (seat l r : Z)
  : SeatBookingSystem.result -> SeatBookingSystem.t -> Prop :=
| cancel_invalid_seat :
    SeatBookingSystem.invalidSeat seat (SeatBookingSystem.numSeats s) = true ->
    cancel_outcome s seat l r
      (SeatBookingSystem.mkResult false (SeatBookingSystem.InvalidSeatID seat) None)
      (counted s)
| cancel_invalid_range :
    SeatBookingSystem.invalidSeat seat (SeatBookingSystem.numSeats s) = false ->
    SeatBookingSystem.invalidRange l r (SeatBookingSystem.numStations s) = true ->
    cancel_outcome s seat l r
      (SeatBookingSystem.mkResult false (SeatBookingSystem.InvalidStationRange l r) None)
      (counted s)
| cancel_not_found :
    SeatBookingSystem.invalidSeat seat (SeatBookingSystem.numSeats s) = false ->
    SeatBookingSystem.invalidRange l r (SeatBookingSystem.numStations s) = false ->
    SeatBookingSystem.find (SeatBookingSystem.matches seat l r)
      (SeatBookingSystem.bookings s) = None ->
    cancel_outcome s seat l r
      (SeatBookingSystem.mkResult false
         (SeatBookingSystem.NoBookingFound (seat + 1) (l + 1) (r + 1)) None)
      (counted s)
| cancel_success i b tr tr' g' :
    SeatBookingSystem.invalidSeat seat (SeatBookingSystem.numSeats s) = false ->
    SeatBookingSystem.invalidRange l r (SeatBookingSystem.numStations s) = false ->
    SeatBookingSystem.find (SeatBookingSystem.matches seat l r)
      (SeatBookingSystem.bookings s) = Some (i, b) ->
    SeatBookingSystem.seats s !! Z.to_nat seat = Some tr ->
    SegmentTree.update l r (-1) tr = Ok (tt, tr') ->
    SegmentTree.update l r (-1) (SeatBookingSystem.globalTree s) = Ok (tt, g') ->
    cancel_outcome s seat l r
      (SeatBookingSystem.mkResult true
         (SeatBookingSystem.BookingCancelled (seat + 1) (l + 1) (r + 1)) None)
      (withBookings (<[i := deactivated b]> (SeatBookingSystem.bookings s))
         (withGlobalTree g' (withSeat seat tr' (counted s)))).

(** The invariant of the ledger: what the constructor sets up and every
    method keeps. *)
Definition wf_sys (s : SeatBookingSystem.t) : Prop :=
  SeatBookingSystem.numSegments s = SeatBookingSystem.numStations s - 1 /\
  length (SeatBookingSystem.seats s) = Z.to_nat (SeatBookingSystem.numSeats s) /\
  Forall (fun tr => wf tr /\ SegmentTree.n tr = SeatBookingSystem.numSegments s)
         (SeatBookingSystem.seats s) /\
  wf (SeatBookingSystem.globalTree s) /\
  SegmentTree.n (SeatBookingSystem.globalTree s) = SeatBookingSystem.numSegments s /\
  Forall (valid_booking s) (SeatBookingSystem.bookings s).

(** The ledger states a client can produce: a constructed ledger, followed
    by any calls of the public methods. *)
Inductive reachable : SeatBookingSystem.t -> Prop :=
| reach_new numSeats numStations s :
    SeatBookingSystem.constructor numSeats numStations = Ok s -> reachable s
| reach_book s seat l r res s' :
    reachable s -> SeatBookingSystem.book seat l r s = Ok (res, s') -> reachable s'
| reach_cancel s seat l r res s' :
    reachable s -> SeatBookingSystem.cancel seat l r s = Ok (res, s') -> reachable s'
| reach_queryAvailable s l r res s' :
    reachable s -> SeatBookingSystem.queryAvailable l r s = Ok (res, s') -> reachable s'
| reach_isAvailable s seat l r res s' :
    reachable s -> SeatBookingSystem.isAvailable seat l r s = Ok (res, s') -> reachable s'
| reach_getSeatStatus s seat res s' :
    reachable s -> SeatBookingSystem.getSeatStatus seat s = Ok (res, s') -> reachable s'.

(** The value a computation returns, without the final state. *)
Definition value_of {S A : Type} (r : res (A * S)) : res A :=
  match r with
  | Ok (a, _) => Ok a
  | Err f => Err f
  end.

(** A computation run on a freshly constructed tree or ledger. *)
Definition onNewTree {A : Type} (n : Z) (m : M SegmentTree.t A) : res A :=
  match SegmentTree.constructor n with
  | Ok s => value_of (m s)
  | Err f => Err f
  end.

Definition onNewSystem {A : Type} (numSeats numStations : Z)
  (m : M SeatBookingSystem.t A) : res A :=
  match SeatBookingSystem.constructor numSeats numStations with
  | Ok s => value_of (m s)
  | Err f => Err f
  end.

(** Calls of the two public tree methods, and a sequence of them run in
    order on one tree. *)
Inductive call : Type :=
| Update (l r val : Z)
| Query (l r : Z).

Definition call_in_range (n : Z) (c : call) : Prop :=
  match c with
  | Update l r _ => 0 <= l < r /\ r <= n
  | Query l r => 0 <= l < r /\ r <= n
  end.

Fixpoint run_calls (cs : list call) : M SegmentTree.t (list Z) :=
  match cs with
  | [] => ret []
  | Update l r val :: rest => SegmentTree.update l r val >>> run_calls rest
  | Query l r :: rest =>
      let* v := SegmentTree.query l r in
      let* vs := run_calls rest in
      ret (v :: vs)
  end.

(** What the specification promises, in its own words: the sum of the
    deltas of the updates whose range contains segment [i], the number of
    active bookings whose range contains segment [i], and the maximum of
    such a per-segment value over the segments of [[l, r)]. *)
Definition spec_deltaSum (cs : list call) (i : Z) : Z :=
  foldr (fun c acc =>
           match c with
           | Update l r val => (if covers l r i then val else 0) + acc
           | Query _ _ => acc
           end) 0 cs.

Definition spec_activeCount (bs : list SeatBookingSystem.Booking) (i : Z) : Z :=
  foldr (fun b acc =>
           (if SeatBookingSystem.active b
               && covers (SeatBookingSystem.from b) (SeatBookingSystem.to b) i
            then 1 else 0) + acc) 0 bs.

Definition spec_rangeMax (value : Z -> Z) (l r : Z) : Z :=
  foldr Z.max (value l) (map value (seqZ l (r - l))).

(** The calls that lead a one-seat, five-station ledger to a state where
    the seat's tree under-reports: two bookings, a look inside each (which
    pushes their lazy values down), and the two cancellations. *)
Definition worn_ledger : M SeatBookingSystem.t unit :=
  SeatBookingSystem.book 0 0 2 >>>
  SeatBookingSystem.book 0 2 4 >>>
  SeatBookingSystem.isAvailable 0 0 1 >>>
  SeatBookingSystem.isAvailable 0 2 3 >>>
  SeatBookingSystem.cancel 0 0 2 >>>
  SeatBookingSystem.cancel 0 2 4 >>>
  ret tt.

(** The log holds an active booking of [seat] for exactly [[l, r)]. *)
Definition exact_match (s : SeatBookingSystem.t) (seat l r : Z) : Prop :=
  exists b, b ∈ SeatBookingSystem.bookings s /\
            SeatBookingSystem.seatId b = seat /\
            SeatBookingSystem.from b = l /\ SeatBookingSystem.to b = r /\
            SeatBookingSystem.active b = true.

(** Two concrete ledgers used as examples: one seat and ten stations,
    freshly constructed, and the same after [book(0, 0, 5)]. *)
Definition fresh_ledger : SeatBookingSystem.t :=
  ltac:(let v := eval vm_compute in (SeatBookingSystem.constructor 1 10) in
        match v with Ok ?s => exact s end).

Definition ledger_booked_0_5 : SeatBookingSystem.t :=
  ltac:(let v := eval vm_compute in (SeatBookingSystem.book 0 0 5 fresh_ledger) in
        match v with Ok (_, ?s) => exact s end).

(** Global tree, bookings log and segment count are the same. *)
Definition same_log (s s' : SeatBookingSystem.t) : Prop :=
  SeatBookingSystem.globalTree s' = SeatBookingSystem.globalTree s /\
  SeatBookingSystem.bookings s' = SeatBookingSystem.bookings s /\
  SeatBookingSystem.numSegments s' = SeatBookingSystem.numSegments s.

(** The number of active bookings of one seat that cover segment [i]. *)
Definition spec_seatCount (bs : list SeatBookingSystem.Booking) (seat i : Z) : Z :=
  foldr (fun b acc =>
           (if SeatBookingSystem.active b
               && (SeatBookingSystem.seatId b =? seat)
               && covers (SeatBookingSystem.from b) (SeatBookingSystem.to b) i
            then 1 else 0) + acc) 0 bs.

(** The calls a client can make on a ledger, what each returns, and a
    sequence of calls run in order on one ledger. *)
Inductive command : Type :=
| Book (seat l r : Z)
| Cancel (seat l r : Z)
| QueryAvailable (l r : Z)
| IsAvailable (seat l r : Z)
| GetSeatStatus (seat : Z).

Inductive reply : Type :=
| Result (res : SeatBookingSystem.result)
| Seats (res : SeatBookingSystem.Availability.t)
| Answer (res : bool)
| Status (res : SeatBookingSystem.status).

Definition exec (c : command) : M SeatBookingSystem.t reply :=
  match c with
  | Book seat l r => let* x := SeatBookingSystem.book seat l r in ret (Result x)
  | Cancel seat l r => let* x := SeatBookingSystem.cancel seat l r in ret (Result x)
  | QueryAvailable l r => let* x := SeatBookingSystem.queryAvailable l r in ret (Seats x)
  | IsAvailable seat l r => let* x := SeatBookingSystem.isAvailable seat l r in ret (Answer x)
  | GetSeatStatus seat => let* x := SeatBookingSystem.getSeatStatus seat in ret (Status x)
  end.

Fixpoint run_commands (cs : list command) : M SeatBookingSystem.t (list reply) :=
  match cs with
  | [] => ret []
  | c :: rest =>
      let* x := exec c in
      let* xs := run_commands rest in
      ret (x :: xs)
  end.

(** Bookkeeping over a run: the calls that bump the operation counter, and
    the bookings and cancellations that succeeded. *)
Definition is_counted (c : command) : bool :=
  match c with
  | Book _ _ _ | Cancel _ _ _ | QueryAvailable _ _ => true
  | IsAvailable _ _ _ | GetSeatStatus _ => false
  end.

Definition booked (c : command) (x : reply) : bool :=
  match c, x with
  | Book _ _ _, Result res => SeatBookingSystem.success res
  | _, _ => false
  end.

Definition cancelled (c : command) (x : reply) : bool :=
  match c, x with
  | Cancel _ _ _, Result res => SeatBookingSystem.success res
  | _, _ => false
  end.

Fixpoint tally (p : command -> reply -> bool) (cs : list command) (xs : list reply)
  : Z :=
  match cs, xs with
  | c :: cs', x :: xs' => (if p c x then 1 else 0) + tally p cs' xs'
  | _, _ => 0
  end.

(** What [isAvailable] answers on a ledger, [false] standing in for a fault. *)
Definition isAvailableNow (s : SeatBookingSystem.t) (l r seat : Z) : bool :=
  match SeatBookingSystem.isAvailable seat l r s with
  | Ok (b, _) => b
  | Err _ => false
  end.

(** Everything but the seat trees is the same, the operation counter
    having moved by [d]; the number of seat trees is the same too. *)
Definition same_but_seats (d : Z) (s s' : SeatBookingSystem.t) : Prop :=
  SeatBookingSystem.numSeats s' = SeatBookingSystem.numSeats s /\
  SeatBookingSystem.numStations s' = SeatBookingSystem.numStations s /\
  SeatBookingSystem.numSegments s' = SeatBookingSystem.numSegments s /\
  SeatBookingSystem.globalTree s' = SeatBookingSystem.globalTree s /\
  SeatBookingSystem.bookings s' = SeatBookingSystem.bookings s /\
  SeatBookingSystem.operationCount s' = SeatBookingSystem.operationCount s + d /\
  length (SeatBookingSystem.seats s') = length (SeatBookingSystem.seats s).

(** Every seat tree shows the same effective value at every segment. *)
Definition seats_leaf_equiv (s s' : SeatBookingSystem.t) : Prop :=
  forall k tr, SeatBookingSystem.seats s !! k = Some tr ->
    exists tr', SeatBookingSystem.seats s' !! k = Some tr' /\ leaf_equiv tr tr'.

(** The trees of all seats but [seat] are the same objects as before. *)
Definition same_other_seats (seat : Z) (s s' : SeatBookingSystem.t) : Prop :=
  forall k, k <> Z.to_nat seat ->
            SeatBookingSystem.seats s' !! k = SeatBookingSystem.seats s !! k.

(** Every segment of every seat tree shows the number of active bookings
    of that seat that cover it. *)
Definition seats_count_active (s : SeatBookingSystem.t) : Prop :=
  forall k tr i,
    SeatBookingSystem.seats s !! k = Some tr ->
    0 <= i < SeatBookingSystem.numSegments s ->
    SegmentTree.effectiveLeaf tr i =
    spec_seatCount (SeatBookingSystem.bookings s) (Z.of_nat k) i.

(** Seat count, station count and segment count are the same. *)
Definition same_config (s s' : SeatBookingSystem.t) : Prop :=
  SeatBookingSystem.numSeats s' = SeatBookingSystem.numSeats s /\
  SeatBookingSystem.numStations s' = SeatBookingSystem.numStations s /\
  SeatBookingSystem.numSegments s' = SeatBookingSystem.numSegments s.

(** The log [bs'] continues the log [bs]: every record of [bs] is still at
    its position with the same id, seat and range, and is active only if it
    was active before. *)
Definition log_extends (bs bs' : list SeatBookingSystem.Booking) : Prop :=
  forall i b, bs !! i = Some b ->
    exists b', bs' !! i = Some b' /\
      SeatBookingSystem.id b' = SeatBookingSystem.id b /\
      SeatBookingSystem.seatId b' = SeatBookingSystem.seatId b /\
      SeatBookingSystem.from b' = SeatBookingSystem.from b /\
      SeatBookingSystem.to b' = SeatBookingSystem.to b /\
      (SeatBookingSystem.active b' = true -> SeatBookingSystem.active b = true).

(** The record at position [i] of the log carries the id [i + 1]. *)
Definition ids_consecutive (bs : list SeatBookingSystem.Booking) : Prop :=
  forall i b, bs !! i = Some b -> SeatBookingSystem.id b = Z.of_nat i + 1.

(** A tree whose two arrays hold zeros only, as the constructor leaves it. *)
Definition blank (s : SegmentTree.t) : Prop :=
  Forall (fun v => v = 0) (SegmentTree.tree s) /\
  Forall (fun v => v = 0) (SegmentTree.lazy s).

(** A pending node of the level-by-level walk that lies in the tree, at a
    depth where [P = 2^depth]. *)
Definition pending_ok (s : SegmentTree.t) (P : Z) (nd : SegmentTree.ByLevel.Pending)
  : Prop :=
  fits s (SegmentTree.ByLevel.node nd) (SegmentTree.ByLevel.start nd)
         (SegmentTree.ByLevel.end_ nd) P /\
  0 <= SegmentTree.ByLevel.start nd < SegmentTree.ByLevel.end_ nd /\
  SegmentTree.ByLevel.end_ nd <= SegmentTree.n s.

(** The sum of the magnitudes of the deltas of a sequence of calls. *)
Definition spec_deltaBudget (cs : list call) : Z :=
  foldr (fun c acc =>
           match c with
           | Update _ _ val => Z.abs val + acc
           | Query _ _ => acc
           end) 0 cs.

(** The nodes of a tree of [n >= 1] segments: position and range. *)
Inductive is_node (n : Z) : nat -> Z -> Z -> Prop :=
| node_root : 1 <= n -> is_node n 0 0 n
| node_left k a b :
    is_node n k a b -> 2 <= b - a -> is_node n (2 * k + 1) a ((a + b) / 2)
| node_right k a b :
    is_node n k a b -> 2 <= b - a -> is_node n (2 * k + 2) ((a + b) / 2) b.

(** Both cells of every node of the tree are at most [M] in magnitude. *)
Definition cells_within (s : SegmentTree.t) (M : Z) : Prop :=
  forall k a b, is_node (SegmentTree.n s) k a b ->
    Z.abs (SegmentTree.tree s !!! k) <= M /\ Z.abs (SegmentTree.lazy s !!! k) <= M.

(** The cells below a node against a budget [B] (the sum of the magnitudes
    of the deltas applied so far), [q] being the sum of the magnitudes of
    the lazy values above the node: a lazy cell, with what is above it,
    stays within [B]; a tree cell of a node of width [w], with what is above
    it, within [(2 * w - 1) * B]. *)
Fixpoint within_budget (f : nat) (s : SegmentTree.t) (node : nat)
  (start end_ q B : Z) : Prop :=
  match f with
  | O => True
  | S f' =>
      Z.abs (SegmentTree.tree s !!! node) + q <= (2 * (end_ - start) - 1) * B /\
      Z.abs (SegmentTree.lazy s !!! node) + q <= B /\
      (2 <= end_ - start ->
       within_budget f' s (2 * node + 1) start ((start + end_) / 2)
         (q + Z.abs (SegmentTree.lazy s !!! node)) B /\
       within_budget f' s (2 * node + 2) ((start + end_) / 2) end_
         (q + Z.abs (SegmentTree.lazy s !!! node)) B)
  end.

(** ** Heap positions *)

Lemma desc_ge k j : desc k j -> (k <= j)%nat.
Proof. induction 1; lia. Qed.

Lemma desc_of_left k j : desc (2 * k + 1) j -> desc k j.
Proof.
  induction 1 as [|j _ IH|j _ IH].
  - apply desc_left, desc_self.
  - now apply desc_left.
  - now apply desc_right.
Qed.

Lemma desc_of_right k j : desc (2 * k + 2) j -> desc k j.
Proof.
  induction 1 as [|j _ IH|j _ IH].
  - apply desc_right, desc_self.
  - now apply desc_left.
  - now apply desc_right.
Qed.

Lemma desc_inv k m :
  desc k m ->
  m = k \/ exists j, desc k j /\ (m = 2 * j + 1 \/ m = 2 * j + 2)%nat.
Proof. destruct 1; eauto. Qed.

Lemma desc_siblings k j : desc (2 * k + 1) j -> desc (2 * k + 2) j -> False.
Proof.
  induction 1 as [|j H1 IH|j H1 IH]; intros H2.
  - apply desc_ge in H2. lia.
  - apply desc_inv in H2 as [E|(j' & H2 & [E|E])]; try lia.
    assert (j' = j) by lia. subst. auto.
  - apply desc_inv in H2 as [E|(j' & H2 & [E|E])]; try lia.
    + apply desc_ge in H1. lia.
    + assert (j' = j) by lia. subst. auto.
Qed.

Lemma not_desc_left_self k : ~ desc (2 * k + 1) k.
Proof. intros H. apply desc_ge in H. lia. Qed.

Lemma not_desc_right_self k : ~ desc (2 * k + 2) k.
Proof. intros H. apply desc_ge in H. lia. Qed.

Lemma not_desc_left_right k : ~ desc (2 * k + 1) (2 * k + 2).
Proof. intros H. eapply desc_siblings; [exact H | apply desc_self]. Qed.

Lemma not_desc_right_left k : ~ desc (2 * k + 2) (2 * k + 1).
Proof. intros H. apply desc_ge in H. lia. Qed.

(** ** Cells, shapes and frames *)

Lemma shape_refl s : shape s s.
Proof. repeat split. Qed.

Lemma shape_trans s1 s2 s3 : shape s1 s2 -> shape s2 s3 -> shape s1 s3.
Proof. unfold shape. intros (?&?&?) (?&?&?). repeat split; congruence. Qed.

Lemma shape_wf s s' : shape s s' -> wf s -> wf s'.
Proof. unfold shape, wf. intros (E1&E2&E3) (?&?&?). rewrite E1, E2, E3. auto. Qed.

Lemma same_at_refl s j : same_at s s j.
Proof. split; reflexivity. Qed.

Lemma same_at_trans s1 s2 s3 j : same_at s1 s2 j -> same_at s2 s3 j -> same_at s1 s3 j.
Proof. unfold same_at. intros [? ?] [? ?]. split; congruence. Qed.

Lemma same_at_sym s1 s2 j : same_at s1 s2 j -> same_at s2 s1 j.
Proof. unfold same_at. intros [? ?]. split; congruence. Qed.

Lemma same_outside_refl k s : same_outside k s s.
Proof. intros j _. apply same_at_refl. Qed.

(** ** The array primitives *)

Lemma getTree_ok i s :
  (i < length (SegmentTree.tree s))%nat ->
  SegmentTree.getTree i s = Ok (SegmentTree.tree s !!! i, s).
Proof.
  intros H. unfold SegmentTree.getTree.
  destruct (lookup_lt_is_Some_2 _ _ H) as [v Hv].
  rewrite Hv. now rewrite (list_lookup_total_correct _ _ _ Hv).
Qed.

Lemma getLazy_ok i s :
  (i < length (SegmentTree.lazy s))%nat ->
  SegmentTree.getLazy i s = Ok (SegmentTree.lazy s !!! i, s).
Proof.
  intros H. unfold SegmentTree.getLazy.
  destruct (lookup_lt_is_Some_2 _ _ H) as [v Hv].
  rewrite Hv. now rewrite (list_lookup_total_correct _ _ _ Hv).
Qed.

Lemma setTree_ok i v s :
  (i < length (SegmentTree.tree s))%nat ->
  SegmentTree.setTree i v s =
  Ok (tt, SegmentTree.mk (SegmentTree.n s) (<[i := v]> (SegmentTree.tree s))
                         (SegmentTree.lazy s)).
Proof. intros H. unfold SegmentTree.setTree. now destruct (decide _). Qed.

Lemma setLazy_ok i v s :
  (i < length (SegmentTree.lazy s))%nat ->
  SegmentTree.setLazy i v s =
  Ok (tt, SegmentTree.mk (SegmentTree.n s) (SegmentTree.tree s)
                         (<[i := v]> (SegmentTree.lazy s))).
Proof. intros H. unfold SegmentTree.setLazy. now destruct (decide _). Qed.

Lemma bind_Ok {S A B : Type} (m : M S A) (k : A -> M S B) s a s' :
  m s = Ok (a, s') -> bind m k s = k a s'.
Proof. intros H. unfold bind. now rewrite H. Qed.

(** Runs the next array access of a monadic computation when the index is
    seen to be inside the array. *)
Ltac in_bounds := simpl; rewrite ?length_insert; lia.

Ltac step :=
  first
    [ erewrite (bind_Ok (SegmentTree.getTree _)); [| apply getTree_ok; in_bounds]
    | erewrite (bind_Ok (SegmentTree.getLazy _)); [| apply getLazy_ok; in_bounds]
    | erewrite (bind_Ok (SegmentTree.setTree _ _)); [| apply setTree_ok; in_bounds]
    | erewrite (bind_Ok (SegmentTree.setLazy _ _)); [| apply setLazy_ok; in_bounds]
    | rewrite setTree_ok by in_bounds
    | rewrite setLazy_ok by in_bounds
    | rewrite getTree_ok by in_bounds ];
  cbn [SegmentTree.n SegmentTree.tree SegmentTree.lazy].

Lemma bind_assoc {S A B C : Type} (m : M S A) (k : A -> M S B) (h : B -> M S C) s :
  bind (bind m k) h s = bind m (fun a => bind (k a) h) s.
Proof. unfold bind. destruct (m s) as [[a s']|f]; reflexivity. Qed.

(** ** [pushDown] *)

Lemma pushDown_spec node s :
  (2 * node + 2 < length (SegmentTree.tree s))%nat ->
  length (SegmentTree.lazy s) = length (SegmentTree.tree s) ->
  exists s',
    SegmentTree.pushDown node s = Ok (tt, s') /\ shape s s' /\
    SegmentTree.lazy s' !!! node = 0 /\
    SegmentTree.tree s' !!! node = SegmentTree.tree s !!! node /\
    SegmentTree.tree s' !!! (2 * node + 1)%nat =
      SegmentTree.tree s !!! (2 * node + 1)%nat + SegmentTree.lazy s !!! node /\
    SegmentTree.lazy s' !!! (2 * node + 1)%nat =
      SegmentTree.lazy s !!! (2 * node + 1)%nat + SegmentTree.lazy s !!! node /\
    SegmentTree.tree s' !!! (2 * node + 2)%nat =
      SegmentTree.tree s !!! (2 * node + 2)%nat + SegmentTree.lazy s !!! node /\
    SegmentTree.lazy s' !!! (2 * node + 2)%nat =
      SegmentTree.lazy s !!! (2 * node + 2)%nat + SegmentTree.lazy s !!! node /\
    forall j, j <> node -> j <> (2 * node + 1)%nat -> j <> (2 * node + 2)%nat ->
              same_at s s' j.
Proof.
  intros Hb Hl. unfold SegmentTree.pushDown.
  step. destruct (SegmentTree.lazy s !!! node =? 0) eqn:Hz; cbn [negb].
  - apply Z.eqb_eq in Hz. exists s. rewrite Hz, !Z.add_0_r.
    split; [reflexivity|]. split; [apply shape_refl|].
    repeat split; auto.
  - rewrite !bind_assoc. repeat (step; rewrite ?bind_assoc).
    eexists. split; [reflexivity|].
    cbn [SegmentTree.n SegmentTree.tree SegmentTree.lazy].
    split; [unfold shape; cbn; rewrite !length_insert; auto|].
    unfold same_at; cbn [SegmentTree.n SegmentTree.tree SegmentTree.lazy].
    repeat split.
    all: repeat first
      [ rewrite list_lookup_total_insert_eq by (rewrite ?length_insert; lia)
      | rewrite list_lookup_total_insert_ne by lia ]; try reflexivity.
Qed.

(** ** Effective leaf values *)

Lemma mid_bounds start end_ :
  2 <= end_ - start -> start < (start + end_) / 2 < end_.
Proof.
  intros H.
  pose proof (Z.div_mod (start + end_) 2 ltac:(lia)).
  pose proof (Z.mod_pos_bound (start + end_) 2 ltac:(lia)). lia.
Qed.

(** The walk to a leaf reads only cells below the node it starts from. *)
Lemma collectLeaf_ext f : forall s1 s2 node start end_ acc i,
  (forall j, desc node j -> same_at s1 s2 j) ->
  SegmentTree.collectLeaf f s2 node start end_ acc i =
  SegmentTree.collectLeaf f s1 node start end_ acc i.
Proof.
  induction f as [|f IH]; intros s1 s2 node start end_ acc i H; [reflexivity|].
  cbn [SegmentTree.collectLeaf].
  destruct (H node (desc_self _)) as [Ht Hz]. rewrite Ht, Hz.
  destruct (end_ - start =? 1); [reflexivity|].
  destruct (i <? (start + end_) / 2); apply IH; intros j Hj; apply H.
  - now apply desc_of_left.
  - now apply desc_of_right.
Qed.

(** The accumulated lazy value is carried unchanged to the leaf. *)
Lemma collectLeaf_acc f : forall s node start end_ acc d i,
  start < end_ -> (Z.to_nat (end_ - start) <= f)%nat -> start <= i < end_ ->
  SegmentTree.collectLeaf f s node start end_ (acc + d) i =
  SegmentTree.collectLeaf f s node start end_ acc i + d.
Proof.
  induction f as [|f IH]; intros s node start end_ acc d i Hw Hf Hi; [lia|].
  cbn [SegmentTree.collectLeaf].
  destruct (end_ - start =? 1) eqn:Hleaf; [lia|].
  apply Z.eqb_neq in Hleaf.
  pose proof (mid_bounds start end_ ltac:(lia)) as Hm.
  replace (acc + d + SegmentTree.lazy s !!! node)
    with (acc + SegmentTree.lazy s !!! node + d) by lia.
  destruct (i <? (start + end_) / 2) eqn:Hside.
  - apply Z.ltb_lt in Hside. apply IH; lia.
  - apply Z.ltb_ge in Hside. apply IH; lia.
Qed.

(** Adding [d] to both cells of a node adds [d] to every leaf below it. *)
Lemma collectLeaf_bump f s s' node start end_ acc d i :
  start < end_ -> (Z.to_nat (end_ - start) <= f)%nat -> start <= i < end_ ->
  SegmentTree.tree s' !!! node = SegmentTree.tree s !!! node + d ->
  SegmentTree.lazy s' !!! node = SegmentTree.lazy s !!! node + d ->
  (forall j, desc node j -> j <> node -> same_at s s' j) ->
  SegmentTree.collectLeaf f s' node start end_ acc i =
  SegmentTree.collectLeaf f s node start end_ acc i + d.
Proof.
  intros Hw Hf Hi Ht Hz Hrest.
  destruct f as [|f]; [lia|]. cbn [SegmentTree.collectLeaf].
  rewrite Ht, Hz.
  destruct (end_ - start =? 1) eqn:Hleaf; [lia|].
  apply Z.eqb_neq in Hleaf.
  pose proof (mid_bounds start end_ ltac:(lia)) as Hm.
  replace (acc + (SegmentTree.lazy s !!! node + d))
    with (acc + SegmentTree.lazy s !!! node + d) by lia.
  destruct (i <? (start + end_) / 2) eqn:Hside.
  - apply Z.ltb_lt in Hside.
    rewrite (collectLeaf_ext f s s').
    + apply collectLeaf_acc; lia.
    + intros j Hj. apply Hrest; [now apply desc_of_left|].
      apply desc_ge in Hj. lia.
  - apply Z.ltb_ge in Hside.
    rewrite (collectLeaf_ext f s s').
    + apply collectLeaf_acc; lia.
    + intros j Hj. apply Hrest; [now apply desc_of_right|].
      apply desc_ge in Hj. lia.
Qed.

(** Changing only the [tree] cell of an inner node changes no leaf value. *)
Lemma collectLeaf_inner f s s' node start end_ acc i :
  2 <= end_ - start ->
  SegmentTree.lazy s' !!! node = SegmentTree.lazy s !!! node ->
  (forall j, desc node j -> j <> node -> same_at s s' j) ->
  SegmentTree.collectLeaf f s' node start end_ acc i =
  SegmentTree.collectLeaf f s node start end_ acc i.
Proof.
  intros Hw Hz Hrest.
  destruct f as [|f]; [reflexivity|]. cbn [SegmentTree.collectLeaf].
  rewrite Hz.
  destruct (end_ - start =? 1) eqn:Hleaf; [apply Z.eqb_eq in Hleaf; lia|].
  destruct (i <? (start + end_) / 2).
  - apply collectLeaf_ext. intros j Hj. apply Hrest; [now apply desc_of_left|].
    apply desc_ge in Hj. lia.
  - apply collectLeaf_ext. intros j Hj. apply Hrest; [now apply desc_of_right|].
    apply desc_ge in Hj. lia.
Qed.

(** Pushing the lazy value of an inner node down changes no leaf value. *)
Lemma collectLeaf_pushed f s s' node start end_ acc i :
  2 <= end_ - start -> (Z.to_nat (end_ - start) <= f)%nat -> start <= i < end_ ->
  SegmentTree.lazy s' !!! node = 0 ->
  SegmentTree.tree s' !!! (2 * node + 1)%nat =
    SegmentTree.tree s !!! (2 * node + 1)%nat + SegmentTree.lazy s !!! node ->
  SegmentTree.lazy s' !!! (2 * node + 1)%nat =
    SegmentTree.lazy s !!! (2 * node + 1)%nat + SegmentTree.lazy s !!! node ->
  SegmentTree.tree s' !!! (2 * node + 2)%nat =
    SegmentTree.tree s !!! (2 * node + 2)%nat + SegmentTree.lazy s !!! node ->
  SegmentTree.lazy s' !!! (2 * node + 2)%nat =
    SegmentTree.lazy s !!! (2 * node + 2)%nat + SegmentTree.lazy s !!! node ->
  (forall j, j <> node -> j <> (2 * node + 1)%nat -> j <> (2 * node + 2)%nat ->
             same_at s s' j) ->
  SegmentTree.collectLeaf f s' node start end_ acc i =
  SegmentTree.collectLeaf f s node start end_ acc i.
Proof.
  intros Hw Hf Hi Hz HtL HzL HtR HzR Hrest.
  destruct f as [|f]; [lia|]. cbn [SegmentTree.collectLeaf].
  destruct (end_ - start =? 1) eqn:Hleaf; [apply Z.eqb_eq in Hleaf; lia|].
  pose proof (mid_bounds start end_ Hw) as Hm.
  rewrite Hz, Z.add_0_r.
  destruct (i <? (start + end_) / 2) eqn:Hside.
  - apply Z.ltb_lt in Hside.
    rewrite (collectLeaf_bump f s s' _ _ _ _ (SegmentTree.lazy s !!! node));
      try lia; auto.
    + symmetry. apply collectLeaf_acc; lia.
    + intros j Hj Hne. apply Hrest; try lia.
      * apply desc_ge in Hj. lia.
      * intros ->. now apply not_desc_left_right in Hj.
  - apply Z.ltb_ge in Hside.
    rewrite (collectLeaf_bump f s s' _ _ _ _ (SegmentTree.lazy s !!! node));
      try lia; auto.
    + symmetry. apply collectLeaf_acc; lia.
    + intros j Hj Hne. apply Hrest; try lia.
      * apply desc_ge in Hj. lia.
      * intros ->. now apply not_desc_right_left in Hj.
Qed.

Lemma collectLeaf_node f s node start end_ acc i :
  2 <= end_ - start ->
  SegmentTree.collectLeaf (S f) s node start end_ acc i =
  if i <? (start + end_) / 2
  then SegmentTree.collectLeaf f s (2 * node + 1)%nat start ((start + end_) / 2)
         (acc + SegmentTree.lazy s !!! node) i
  else SegmentTree.collectLeaf f s (2 * node + 2)%nat ((start + end_) / 2) end_
         (acc + SegmentTree.lazy s !!! node) i.
Proof.
  intros Hw. cbn [SegmentTree.collectLeaf].
  destruct (end_ - start =? 1) eqn:Hleaf; [apply Z.eqb_eq in Hleaf; lia|reflexivity].
Qed.

(** ** Index bounds along the recursion *)

Lemma fits_node_bound s node start end_ P :
  wf s -> fits s node start end_ P ->
  (node < length (SegmentTree.tree s))%nat /\
  (node < length (SegmentTree.lazy s))%nat.
Proof. intros (Hn & Ht & Hz) (HP & Hnode & Hwd & HPn). rewrite Ht, Hz. lia. Qed.

Lemma fits_children_bound s node start end_ P :
  wf s -> fits s node start end_ P -> 2 <= end_ - start ->
  (2 * node + 2 < length (SegmentTree.tree s))%nat.
Proof.
  intros (Hn & Ht & Hz) (HP & Hnode & Hwd & HPn) Hw. rewrite Ht.
  assert (P <= SegmentTree.n s - 1) by nia. lia.
Qed.

Lemma fits_left s s' node start end_ P :
  shape s s' -> fits s node start end_ P -> 2 <= end_ - start ->
  fits s' (2 * node + 1) start ((start + end_) / 2) (2 * P).
Proof.
  intros (En & _) (HP & Hnode & Hwd & HPn) Hw.
  pose proof (Z.div_mod (start + end_) 2 ltac:(lia)).
  pose proof (Z.mod_pos_bound (start + end_) 2 ltac:(lia)).
  assert (P <= SegmentTree.n s - 1) by nia.
  assert (2 * ((start + end_) / 2 - start - 1) <= end_ - start - 1) by lia.
  unfold fits. rewrite En. repeat split; first [lia | nia].
Qed.

Lemma fits_right s s' node start end_ P :
  shape s s' -> fits s node start end_ P -> 2 <= end_ - start ->
  fits s' (2 * node + 2) ((start + end_) / 2) end_ (2 * P).
Proof.
  intros (En & _) (HP & Hnode & Hwd & HPn) Hw.
  pose proof (Z.div_mod (start + end_) 2 ltac:(lia)).
  pose proof (Z.mod_pos_bound (start + end_) 2 ltac:(lia)).
  assert (P <= SegmentTree.n s - 1) by nia.
  assert (2 * (end_ - (start + end_) / 2 - 1) <= end_ - start - 1) by lia.
  unfold fits. rewrite En. repeat split; first [lia | nia].
Qed.

Lemma fits_root s : wf s -> 1 <= SegmentTree.n s -> fits s 0 0 (SegmentTree.n s) 1.
Proof. intros _ Hn. unfold fits. lia. Qed.

(** A range that meets a node without containing it meets a node of width
    two or more: single segments are never split. *)
Lemma partial_width l r start end_ :
  (r <=? start) || (end_ <=? l) = false ->
  (l <=? start) && (end_ <=? r) = false ->
  2 <= end_ - start.
Proof.
  intros H1 H2. apply orb_false_iff in H1 as [H1a H1b].
  apply Z.leb_gt in H1a, H1b.
  apply andb_false_iff in H2 as [H2|H2]; apply Z.leb_gt in H2; lia.
Qed.

(** ** [update] *)

Lemma update_rec_spec fuel : forall l r val node start end_ P s,
  wf s -> fits s node start end_ P -> start < end_ ->
  (Z.to_nat (end_ - start) < fuel)%nat ->
  exists s',
    SegmentTree.update_rec fuel l r val node start end_ s = Ok (tt, s') /\
    shape s s' /\ same_outside node s s' /\
    forall f acc i,
      (Z.to_nat (end_ - start) <= f)%nat -> start <= i < end_ ->
      SegmentTree.collectLeaf f s' node start end_ acc i =
      SegmentTree.collectLeaf f s node start end_ acc i
      + (if covers l r i then val else 0).
Proof.
  induction fuel as [|fuel IH]; intros l r val node start end_ P s Hwf Hfit Hlt Hfuel;
    [lia|].
  cbn [SegmentTree.update_rec].
  destruct (fits_node_bound _ _ _ _ _ Hwf Hfit) as [Hbt Hbz].
  destruct ((r <=? start) || (end_ <=? l)) eqn:Hout.
  - (* no overlap *)
    exists s. split; [reflexivity|]. split; [apply shape_refl|].
    split; [apply same_outside_refl|].
    intros f acc i Hf Hi. unfold covers.
    apply orb_true_iff in Hout as [Hout|Hout]; apply Z.leb_le in Hout.
    + replace (i <? r) with false by (symmetry; apply Z.ltb_ge; lia).
      rewrite andb_false_r. lia.
    + replace (l <=? i) with false by (symmetry; apply Z.leb_gt; lia).
      cbn. lia.
  - destruct ((l <=? start) && (end_ <=? r)) eqn:Hin.
    + (* complete overlap *)
      apply andb_true_iff in Hin as [Hin1 Hin2].
      apply Z.leb_le in Hin1, Hin2.
      rewrite !bind_assoc. repeat (step; rewrite ?bind_assoc).
      eexists. split; [reflexivity|].
      split; [unfold shape; cbn; rewrite !length_insert; auto|].
      split.
      * intros j Hj. assert (j <> node) by (intros ->; apply Hj, desc_self).
        unfold same_at; cbn. now rewrite !list_lookup_total_insert_ne by auto.
      * intros f acc i Hf Hi. unfold covers.
        replace (l <=? i) with true by (symmetry; apply Z.leb_le; lia).
        replace (i <? r) with true by (symmetry; apply Z.ltb_lt; lia).
        cbn [andb]. apply collectLeaf_bump; try lia; cbn.
        -- now rewrite list_lookup_total_insert_eq by lia.
        -- now rewrite list_lookup_total_insert_eq by lia.
        -- intros j _ Hne. unfold same_at; cbn.
           now rewrite !list_lookup_total_insert_ne by auto.
    + (* partial overlap *)
      pose proof (partial_width _ _ _ _ Hout Hin) as Hw.
      pose proof (mid_bounds start end_ Hw) as Hm.
      pose proof (fits_children_bound _ _ _ _ _ Hwf Hfit Hw) as Hbc.
      destruct Hwf as (Hn & Hlt_ & Hlz).
      destruct (pushDown_spec node s Hbc ltac:(congruence))
        as (s1 & E1 & Hsh1 & Hz1 & Ht1 & HtL & HzL & HtR & HzR & Hrest1).
      assert (Hwf1 : wf s1) by (eapply shape_wf; [exact Hsh1|repeat split; auto]).
      destruct (IH l r val (2 * node + 1)%nat start ((start + end_) / 2) (2 * P) s1
                  Hwf1 (fits_left _ _ _ _ _ _ Hsh1 Hfit Hw) ltac:(lia) ltac:(lia))
        as (s2 & E2 & Hsh2 & Hout2 & Hval2).
      assert (Hsh12 : shape s s2) by (eapply shape_trans; eauto).
      assert (Hwf2 : wf s2) by (eapply shape_wf; [exact Hsh2|auto]).
      destruct (IH l r val (2 * node + 2)%nat ((start + end_) / 2) end_ (2 * P) s2
                  Hwf2 (fits_right _ _ _ _ _ _ Hsh12 Hfit Hw) ltac:(lia) ltac:(lia))
        as (s3 & E3 & Hsh3 & Hout3 & Hval3).
      assert (Hsh13 : shape s s3) by (eapply shape_trans; eauto).
      destruct Hsh13 as (En3 & Elt3 & Elz3).
      rewrite (bind_Ok _ _ _ _ _ E1), (bind_Ok _ _ _ _ _ E2), (bind_Ok _ _ _ _ _ E3).
      repeat step.
      eexists. split; [reflexivity|].
      split; [unfold shape; cbn; rewrite !length_insert; auto|].
      (* the cells of [node] after the two recursive calls *)
      assert (Hnode3 : SegmentTree.lazy s3 !!! node = 0).
      { destruct (Hout3 node (not_desc_right_self _)) as [_ ->].
        destruct (Hout2 node (not_desc_left_self _)) as [_ ->]. exact Hz1. }
      split.
      * intros j Hj.
        assert (j <> node) by (intros ->; apply Hj, desc_self).
        assert (j <> (2 * node + 1)%nat)
          by (intros ->; apply Hj, desc_left, desc_self).
        assert (j <> (2 * node + 2)%nat)
          by (intros ->; apply Hj, desc_right, desc_self).
        eapply same_at_trans; [apply Hrest1; auto|].
        eapply same_at_trans;
          [apply Hout2; intros Hd; apply Hj; now apply desc_of_left|].
        eapply same_at_trans;
          [apply Hout3; intros Hd; apply Hj; now apply desc_of_right|].
        unfold same_at; cbn. now rewrite list_lookup_total_insert_ne by auto.
      * intros f acc i Hf Hi.
        rewrite <- (collectLeaf_pushed f s s1 node start end_ acc i) by (auto; lia).
        match goal with
        | |- SegmentTree.collectLeaf f ?s4 _ _ _ _ _ = _ =>
            rewrite (collectLeaf_inner f s3 s4 node start end_ acc i);
              [| lia | reflexivity
               | intros j _ Hne; unfold same_at; cbn;
                 now rewrite list_lookup_total_insert_ne by auto ]
        end.
        destruct f as [|f]; [lia|].
        rewrite !collectLeaf_node by lia. rewrite Hnode3, Hz1.
        destruct (i <? (start + end_) / 2) eqn:Hside.
        -- apply Z.ltb_lt in Hside.
           rewrite (collectLeaf_ext f s2 s3)
             by (intros j Hj; apply Hout3; intros Hd; eapply desc_siblings; eauto).
           apply Hval2; lia.
        -- apply Z.ltb_ge in Hside.
           rewrite Hval3 by lia. f_equal.
           apply collectLeaf_ext. intros j Hj. apply Hout2.
           intros Hd. eapply desc_siblings; eauto.
Qed.

(** ** [query] *)

Lemma query_rec_spec fuel : forall l r node start end_ P s,
  wf s -> fits s node start end_ P -> start < end_ ->
  (Z.to_nat (end_ - start) < fuel)%nat ->
  exists v s',
    SegmentTree.query_rec fuel l r node start end_ s = Ok (v, s') /\
    shape s s' /\ same_outside node s s' /\
    (forall f acc i,
      (Z.to_nat (end_ - start) <= f)%nat -> start <= i < end_ ->
      SegmentTree.collectLeaf f s' node start end_ acc i =
      SegmentTree.collectLeaf f s node start end_ acc i) /\
    (r <= start \/ end_ <= l -> v = 0) /\
    (forall f i,
      (Z.to_nat (end_ - start) <= f)%nat -> l = i -> r = i + 1 ->
      start <= i < end_ ->
      v = if end_ - start =? 1
          then SegmentTree.collectLeaf f s node start end_ 0 i
          else Z.max 0 (SegmentTree.collectLeaf f s node start end_ 0 i)).
Proof.
  induction fuel as [|fuel IH]; intros l r node start end_ P s Hwf Hfit Hlt Hfuel;
    [lia|].
  cbn [SegmentTree.query_rec].
  destruct (fits_node_bound _ _ _ _ _ Hwf Hfit) as [Hbt Hbz].
  destruct ((r <=? start) || (end_ <=? l)) eqn:Hout.
  - (* no overlap *)
    exists 0, s. split; [reflexivity|]. split; [apply shape_refl|].
    split; [apply same_outside_refl|]. split; [reflexivity|]. split; [reflexivity|].
    intros f i Hf -> -> Hi.
    apply orb_true_iff in Hout as [Hout|Hout]; apply Z.leb_le in Hout; lia.
  - apply orb_false_iff in Hout as [Hout1 Hout2].
    pose proof Hout1 as Hout1'. pose proof Hout2 as Hout2'.
    apply Z.leb_gt in Hout1', Hout2'.
    destruct ((l <=? start) && (end_ <=? r)) eqn:Hin.
    + (* complete overlap *)
      apply andb_true_iff in Hin as [Hin1 Hin2].
      apply Z.leb_le in Hin1, Hin2.
      rewrite getTree_ok by lia.
      eexists _, s. split; [reflexivity|]. split; [apply shape_refl|].
      split; [apply same_outside_refl|]. split; [reflexivity|]. split; [lia|].
      intros f i Hf -> -> Hi.
      assert (Hleaf : end_ - start = 1) by lia.
      destruct f as [|f]; [lia|]. cbn [SegmentTree.collectLeaf].
      rewrite Hleaf. cbn. lia.
    + (* partial overlap *)
      assert (Hw : 2 <= end_ - start).
      { apply partial_width with (l := l) (r := r); [|exact Hin].
        now rewrite Hout1, Hout2. }
      pose proof (mid_bounds start end_ Hw) as Hm.
      pose proof (fits_children_bound _ _ _ _ _ Hwf Hfit Hw) as Hbc.
      destruct Hwf as (Hn & Hlt_ & Hlz).
      destruct (pushDown_spec node s Hbc ltac:(congruence))
        as (s1 & E1 & Hsh1 & Hz1 & Ht1 & HtL & HzL & HtR & HzR & Hrest1).
      assert (Hwf1 : wf s1) by (eapply shape_wf; [exact Hsh1|repeat split; auto]).
      destruct (IH l r (2 * node + 1)%nat start ((start + end_) / 2) (2 * P) s1
                  Hwf1 (fits_left _ _ _ _ _ _ Hsh1 Hfit Hw) ltac:(lia) ltac:(lia))
        as (vL & s2 & E2 & Hsh2 & Hout2_ & Hval2 & HzeroL & HptL).
      assert (Hsh12 : shape s s2) by (eapply shape_trans; eauto).
      assert (Hwf2 : wf s2) by (eapply shape_wf; [exact Hsh2|auto]).
      destruct (IH l r (2 * node + 2)%nat ((start + end_) / 2) end_ (2 * P) s2
                  Hwf2 (fits_right _ _ _ _ _ _ Hsh12 Hfit Hw) ltac:(lia) ltac:(lia))
        as (vR & s3 & E3 & Hsh3 & Hout3_ & Hval3 & HzeroR & HptR).
      assert (Hsh13 : shape s s3) by (eapply shape_trans; eauto).
      rewrite (bind_Ok _ _ _ _ _ E1), (bind_Ok _ _ _ _ _ E2), (bind_Ok _ _ _ _ _ E3).
      exists (Z.max vL vR), s3. split; [reflexivity|]. split; [exact Hsh13|].
      assert (Hnode3 : SegmentTree.lazy s3 !!! node = 0).
      { destruct (Hout3_ node (not_desc_right_self _)) as [_ ->].
        destruct (Hout2_ node (not_desc_left_self _)) as [_ ->]. exact Hz1. }
      assert (Hleaves : forall f acc i,
        (Z.to_nat (end_ - start) <= f)%nat -> start <= i < end_ ->
        SegmentTree.collectLeaf f s3 node start end_ acc i =
        SegmentTree.collectLeaf f s1 node start end_ acc i).
      { intros f acc i Hf Hi. destruct f as [|f]; [lia|].
        rewrite !collectLeaf_node by lia. rewrite Hnode3, Hz1.
        destruct (i <? (start + end_) / 2) eqn:Hside.
        - apply Z.ltb_lt in Hside.
          rewrite (collectLeaf_ext f s2 s3)
            by (intros j Hj; apply Hout3_; intros Hd; eapply desc_siblings; eauto).
          apply Hval2; lia.
        - apply Z.ltb_ge in Hside.
          rewrite Hval3 by lia.
          apply collectLeaf_ext. intros j Hj. apply Hout2_.
          intros Hd. eapply desc_siblings; eauto. }
      split.
      * intros j Hj.
        assert (j <> node) by (intros ->; apply Hj, desc_self).
        assert (j <> (2 * node + 1)%nat)
          by (intros ->; apply Hj, desc_left, desc_self).
        assert (j <> (2 * node + 2)%nat)
          by (intros ->; apply Hj, desc_right, desc_self).
        eapply same_at_trans; [apply Hrest1; auto|].
        eapply same_at_trans;
          [apply Hout2_; intros Hd; apply Hj; now apply desc_of_left|].
        apply Hout3_; intros Hd; apply Hj; now apply desc_of_right.
      * split.
        { intros f acc i Hf Hi. rewrite Hleaves by auto.
          apply collectLeaf_pushed; auto; lia. }
        split; [lia|].
        intros f i Hf -> -> Hi.
        rewrite <- (collectLeaf_pushed f s s1 node start end_ 0 i) by (auto; lia).
        destruct (end_ - start =? 1) eqn:Hleaf; [apply Z.eqb_eq in Hleaf; lia|].
        destruct f as [|f]; [lia|].
        rewrite collectLeaf_node by lia. rewrite Hz1, Z.add_0_r.
        destruct (i <? (start + end_) / 2) eqn:Hside.
        -- apply Z.ltb_lt in Hside.
           rewrite (HzeroR ltac:(lia)).
           rewrite (HptL f i) by lia.
           destruct ((start + end_) / 2 - start =? 1); lia.
        -- apply Z.ltb_ge in Hside.
           rewrite (HzeroL ltac:(lia)).
           rewrite (HptR f i) by lia.
           rewrite (collectLeaf_ext f s1 s2)
             by (intros j Hj; apply Hout2_; intros Hd;
                 eapply desc_siblings; eauto).
           destruct (end_ - (start + end_) / 2 =? 1); lia.
Qed.

(** ** The public calls on a well-formed tree *)

Lemma update_spec l r val s :
  wf s -> 0 <= l ->
  exists s',
    SegmentTree.update l r val s = Ok (tt, s') /\ shape s s' /\
    forall i, 0 <= i < SegmentTree.n s ->
      SegmentTree.effectiveLeaf s' i =
      SegmentTree.effectiveLeaf s i + (if covers l r i then val else 0).
Proof.
  intros Hwf Hl. unfold SegmentTree.update.
  destruct (Z.eq_dec (SegmentTree.n s) 0) as [E0|Hn].
  - rewrite E0. cbn [Z.to_nat SegmentTree.update_rec].
    replace ((r <=? 0) || (0 <=? l)) with true
      by (symmetry; apply orb_true_iff; right; apply Z.leb_le; lia).
    exists s. split; [reflexivity|]. split; [apply shape_refl|]. intros i Hi. lia.
  - assert (Hn1 : 1 <= SegmentTree.n s) by (destruct Hwf; lia).
    destruct (update_rec_spec (S (Z.to_nat (SegmentTree.n s))) l r val 0 0
                (SegmentTree.n s) 1 s Hwf (fits_root s Hwf Hn1) ltac:(lia)
                ltac:(rewrite Z.sub_0_r; lia))
      as (s' & E & Hsh & _ & Hval).
    exists s'. split; [exact E|]. split; [exact Hsh|].
    intros i Hi. unfold SegmentTree.effectiveLeaf.
    destruct Hsh as (En & _). rewrite En. apply Hval; [rewrite Z.sub_0_r|]; lia.
Qed.

Lemma query_spec l r s :
  wf s -> 0 <= l ->
  exists v s',
    SegmentTree.query l r s = Ok (v, s') /\ leaf_equiv s s' /\
    (SegmentTree.n s = 0 -> v = 0 /\ s' = s) /\
    (forall i, l = i -> r = i + 1 -> 0 <= i < SegmentTree.n s ->
       v = if SegmentTree.n s =? 1
           then SegmentTree.effectiveLeaf s i
           else Z.max 0 (SegmentTree.effectiveLeaf s i)).
Proof.
  intros Hwf Hl. unfold SegmentTree.query.
  destruct (Z.eq_dec (SegmentTree.n s) 0) as [E0|Hn].
  - rewrite E0. cbn [Z.to_nat SegmentTree.query_rec].
    replace ((r <=? 0) || (0 <=? l)) with true
      by (symmetry; apply orb_true_iff; right; apply Z.leb_le; lia).
    exists 0, s. split; [reflexivity|].
    split; [split; [apply shape_refl|reflexivity]|].
    split; [auto|]. intros i _ _ Hi. lia.
  - assert (Hn1 : 1 <= SegmentTree.n s) by (destruct Hwf; lia).
    destruct (query_rec_spec (S (Z.to_nat (SegmentTree.n s))) l r 0 0
                (SegmentTree.n s) 1 s Hwf (fits_root s Hwf Hn1) ltac:(lia)
                ltac:(rewrite Z.sub_0_r; lia))
      as (v & s' & E & Hsh & _ & Hval & _ & Hpt).
    exists v, s'. split; [exact E|]. split; [split; [exact Hsh|]|].
    + intros i Hi. unfold SegmentTree.effectiveLeaf.
      destruct Hsh as (En & _). rewrite En. apply Hval; [rewrite Z.sub_0_r|]; lia.
    + split; [lia|]. intros i El Er Hi.
      specialize (Hpt (Z.to_nat (SegmentTree.n s)) i).
      rewrite Z.sub_0_r in Hpt. apply Hpt; auto; lia.
Qed.

Lemma constructor_wf n s : SegmentTree.constructor n = Ok s -> wf s /\ SegmentTree.n s = n.
Proof.
  unfold SegmentTree.constructor, SegmentTree.newArray.
  destruct ((0 <=? 4 * n) && (4 * n <? 2 ^ 32)) eqn:E; [|discriminate].
  intros [= <-]. apply andb_true_iff in E as [E1 _]. apply Z.leb_le in E1.
  unfold wf; cbn. rewrite !length_replicate. repeat split; lia.
Qed.

Lemma leaf_equiv_refl s : leaf_equiv s s.
Proof. split; [apply shape_refl|reflexivity]. Qed.

Lemma leaf_equiv_trans s1 s2 s3 : leaf_equiv s1 s2 -> leaf_equiv s2 s3 -> leaf_equiv s1 s3.
Proof.
  intros [Hs1 H1] [Hs2 H2]. split; [eapply shape_trans; eauto|].
  intros i Hi. rewrite H2, H1; auto. destruct Hs1 as (-> & _). exact Hi.
Qed.

(** ** The ledger: paths through [book] and [cancel] *)

Lemma invalidSeat_false seat numSeats :
  SeatBookingSystem.invalidSeat seat numSeats = false <-> 0 <= seat < numSeats.
Proof. unfold SeatBookingSystem.invalidSeat. rewrite orb_false_iff. lia. Qed.

Lemma invalidRange_false l r numStations :
  SeatBookingSystem.invalidRange l r numStations = false <->
  0 <= l /\ r <= numStations /\ l < r.
Proof. unfold SeatBookingSystem.invalidRange. rewrite !orb_false_iff. lia. Qed.

Lemma onSeat_run {A : Type} seat (m : M SegmentTree.t A) s a s' :
  SeatBookingSystem.onSeat seat m s = Ok (a, s') ->
  exists tr tr', 0 <= seat /\
    SeatBookingSystem.seats s !! Z.to_nat seat = Some tr /\
    m tr = Ok (a, tr') /\ s' = withSeat seat tr' s.
Proof.
  unfold SeatBookingSystem.onSeat.
  destruct (seat <? 0) eqn:Hs; [discriminate|]. apply Z.ltb_ge in Hs.
  destruct (SeatBookingSystem.seats s !! Z.to_nat seat) as [tr|] eqn:Htr; [|discriminate].
  destruct (m tr) as [[a' tr']|f] eqn:Hm; [|discriminate].
  intros [= <- <-]. exists tr, tr'. auto.
Qed.

Lemma onSeat_ok {A : Type} seat (m : M SegmentTree.t A) s tr a tr' :
  0 <= seat -> SeatBookingSystem.seats s !! Z.to_nat seat = Some tr ->
  m tr = Ok (a, tr') ->
  SeatBookingSystem.onSeat seat m s = Ok (a, withSeat seat tr' s).
Proof.
  intros Hs Htr Hm. unfold SeatBookingSystem.onSeat.
  replace (seat <? 0) with false by (symmetry; apply Z.ltb_ge; lia).
  now rewrite Htr, Hm.
Qed.

Lemma onGlobalTree_run {A : Type} (m : M SegmentTree.t A) s a s' :
  SeatBookingSystem.onGlobalTree m s = Ok (a, s') ->
  exists g', m (SeatBookingSystem.globalTree s) = Ok (a, g') /\ s' = withGlobalTree g' s.
Proof.
  unfold SeatBookingSystem.onGlobalTree.
  destruct (m (SeatBookingSystem.globalTree s)) as [[a' g']|f] eqn:Hm; [|discriminate].
  intros [= <- <-]. eauto.
Qed.

Lemma onGlobalTree_ok {A : Type} (m : M SegmentTree.t A) s a g' :
  m (SeatBookingSystem.globalTree s) = Ok (a, g') ->
  SeatBookingSystem.onGlobalTree m s = Ok (a, withGlobalTree g' s).
Proof. intros Hm. unfold SeatBookingSystem.onGlobalTree. now rewrite Hm. Qed.

Lemma book_run s seat l r res s' :
  SeatBookingSystem.book seat l r s = Ok (res, s') -> book_outcome s seat l r res s'.
Proof.
  unfold SeatBookingSystem.book.
  unfold bind at 1. cbn [SeatBookingSystem.countOperation]. fold (counted s).
  unfold bind at 1. cbn [SeatBookingSystem.get]. unfold bind at 1.
  cbn [SeatBookingSystem.get counted SeatBookingSystem.numSeats
       SeatBookingSystem.numStations]. fold (counted s).
  destruct (SeatBookingSystem.invalidSeat _ _) eqn:Hseat.
  { intros [= <- <-]. now constructor. }
  destruct (SeatBookingSystem.invalidRange _ _ _) eqn:Hrange.
  { intros [= <- <-]. now constructor. }
  unfold bind at 1.
  destruct (SeatBookingSystem.onSeat seat _ (counted s)) as [[v s1]|f] eqn:Hq;
    [|discriminate].
  apply onSeat_run in Hq as (tr & tr1 & Hs0 & Htr & Hq & ->).
  cbn [counted SeatBookingSystem.seats] in Htr.
  destruct (v >? 0) eqn:Hv.
  { unfold bind, SeatBookingSystem.getBookings, ret. intros [= <- <-].
    eapply book_conflict; eauto. lia. }
  unfold bind at 1.
  destruct (SeatBookingSystem.onSeat seat _ _) as [[[] s2]|f] eqn:Hu; [|discriminate].
  apply onSeat_run in Hu as (tr1' & tr2 & _ & Htr1 & Hu & ->).
  unfold bind at 1.
  destruct (SeatBookingSystem.onGlobalTree _ _) as [[[] s3]|f] eqn:Hg; [|discriminate].
  apply onGlobalTree_run in Hg as (g2 & Hg & ->).
  unfold bind, SeatBookingSystem.getBookings, SeatBookingSystem.setBookings, ret.
  cbn. intros [= <- <-].
  assert (tr1' = tr1) as ->.
  { cbn in Htr1. apply lookup_lt_Some in Htr as Hlen.
    rewrite list_lookup_insert_eq in Htr1 by exact Hlen. congruence. }
  eapply (book_success s seat l r tr v tr1 tr2 g2); eauto. lia.
Qed.

Lemma cancel_run s seat l r res s' :
  SeatBookingSystem.cancel seat l r s = Ok (res, s') -> cancel_outcome s seat l r res s'.
Proof.
  unfold SeatBookingSystem.cancel.
  unfold bind at 1. cbn [SeatBookingSystem.countOperation]. fold (counted s).
  unfold bind at 1. cbn [SeatBookingSystem.get]. unfold bind at 1.
  cbn [SeatBookingSystem.get counted SeatBookingSystem.numSeats
       SeatBookingSystem.numStations]. fold (counted s).
  destruct (SeatBookingSystem.invalidSeat _ _) eqn:Hseat.
  { intros [= <- <-]. now constructor. }
  destruct (SeatBookingSystem.invalidRange _ _ _) eqn:Hrange.
  { intros [= <- <-]. now constructor. }
  unfold bind at 1. cbn [SeatBookingSystem.getBookings counted SeatBookingSystem.bookings].
  fold (counted s).
  destruct (SeatBookingSystem.find _ _) as [[i b]|] eqn:Hfind.
  2:{ intros [= <- <-]. now constructor. }
  unfold bind at 1.
  destruct (SeatBookingSystem.onSeat seat _ _) as [[[] s2]|f] eqn:Hu; [|discriminate].
  apply onSeat_run in Hu as (tr & tr' & _ & Htr & Hu & ->).
  unfold bind at 1.
  destruct (SeatBookingSystem.onGlobalTree _ _) as [[[] s3]|f] eqn:Hg; [|discriminate].
  apply onGlobalTree_run in Hg as (g' & Hg & ->).
  unfold bind, SeatBookingSystem.getBookings, SeatBookingSystem.setBookings, ret.
  cbn. intros [= <- <-].
  eapply (cancel_success s seat l r i b tr tr' g'); eauto.
Qed.

Lemma book_complete s seat l r res s' :
  book_outcome s seat l r res s' -> SeatBookingSystem.book seat l r s = Ok (res, s').
Proof.
  intros H. unfold SeatBookingSystem.book.
  unfold bind at 1. cbn [SeatBookingSystem.countOperation]. fold (counted s).
  unfold bind at 1. cbn [SeatBookingSystem.get]. unfold bind at 1.
  cbn [SeatBookingSystem.get counted SeatBookingSystem.numSeats
       SeatBookingSystem.numStations]. fold (counted s).
  destruct H as [Hseat|Hseat Hrange|tr v tr1 Hseat Hrange Htr Hq Hv
                 |tr v tr1 tr2 g2 Hseat Hrange Htr Hq Hv Hu Hg];
    rewrite Hseat; try rewrite Hrange; try reflexivity.
  - apply invalidSeat_false in Hseat.
    erewrite bind_Ok by (eapply onSeat_ok; [lia|exact Htr|exact Hq]).
    replace (v >? 0) with true by (symmetry; rewrite Z.gtb_ltb; apply Z.ltb_lt; lia).
    reflexivity.
  - apply invalidSeat_false in Hseat.
    erewrite bind_Ok by (eapply onSeat_ok; [lia|exact Htr|exact Hq]).
    replace (v >? 0) with false by (symmetry; rewrite Z.gtb_ltb; apply Z.ltb_ge; lia).
    erewrite bind_Ok.
    2:{ eapply onSeat_ok; [lia| |exact Hu]. cbn.
        apply list_lookup_insert_eq. now apply lookup_lt_Some in Htr. }
    erewrite bind_Ok by (apply onGlobalTree_ok; exact Hg).
    reflexivity.
Qed.

Lemma cancel_complete s seat l r res s' :
  cancel_outcome s seat l r res s' -> SeatBookingSystem.cancel seat l r s = Ok (res, s').
Proof.
  intros H. unfold SeatBookingSystem.cancel.
  unfold bind at 1. cbn [SeatBookingSystem.countOperation]. fold (counted s).
  unfold bind at 1. cbn [SeatBookingSystem.get]. unfold bind at 1.
  cbn [SeatBookingSystem.get counted SeatBookingSystem.numSeats
       SeatBookingSystem.numStations]. fold (counted s).
  destruct H as [Hseat|Hseat Hrange|Hseat Hrange Hfind
                 |i b tr tr' g' Hseat Hrange Hfind Htr Hu Hg];
    rewrite Hseat; try rewrite Hrange; try reflexivity.
  - unfold bind at 1. cbn. now rewrite Hfind.
  - apply invalidSeat_false in Hseat.
    unfold bind at 1. cbn [SeatBookingSystem.getBookings counted SeatBookingSystem.bookings].
    rewrite Hfind. fold (counted s).
    erewrite bind_Ok by (eapply onSeat_ok; [lia|exact Htr|exact Hu]).
    erewrite bind_Ok by (apply onGlobalTree_ok; exact Hg).
    reflexivity.
Qed.

(** ** The ledger invariant *)

Lemma wf_sys_counted s : wf_sys s -> wf_sys (counted s).
Proof. intros H. exact H. Qed.

Lemma wf_sys_withSeat s seat tr :
  wf_sys s -> wf tr -> SegmentTree.n tr = SeatBookingSystem.numSegments s ->
  wf_sys (withSeat seat tr s).
Proof.
  intros (H1 & H2 & H3 & H4 & H5 & H6) Hwf Hn. unfold wf_sys; cbn.
  rewrite length_insert. split; [exact H1|]. split; [exact H2|].
  split; [apply Forall_insert; auto|]. auto.
Qed.

Lemma wf_sys_withGlobalTree s tr :
  wf_sys s -> wf tr -> SegmentTree.n tr = SeatBookingSystem.numSegments s ->
  wf_sys (withGlobalTree tr s).
Proof.
  intros (H1 & H2 & H3 & H4 & H5 & H6) Hwf Hn. unfold wf_sys; cbn. auto 10.
Qed.

Lemma wf_sys_withBookings s bs :
  wf_sys s -> Forall (valid_booking s) bs -> wf_sys (withBookings bs s).
Proof.
  intros (H1 & H2 & H3 & H4 & H5 & H6) Hbs. unfold wf_sys; cbn. auto 10.
Qed.

Lemma wf_sys_seat s k tr :
  wf_sys s -> SeatBookingSystem.seats s !! k = Some tr ->
  wf tr /\ SegmentTree.n tr = SeatBookingSystem.numSegments s.
Proof.
  intros (_ & _ & H3 & _) Hk.
  exact (proj1 (Forall_lookup _ _) H3 k tr Hk).
Qed.

Lemma wf_sys_seat_exists s seat :
  wf_sys s ->
  SeatBookingSystem.invalidSeat seat (SeatBookingSystem.numSeats s) = false ->
  exists tr, SeatBookingSystem.seats s !! Z.to_nat seat = Some tr.
Proof.
  intros (_ & H2 & _) Hseat. apply invalidSeat_false in Hseat.
  apply lookup_lt_is_Some_2. lia.
Qed.

Lemma shape_keeps s tr tr' :
  shape tr tr' -> wf tr /\ SegmentTree.n tr = SeatBookingSystem.numSegments s ->
  wf tr' /\ SegmentTree.n tr' = SeatBookingSystem.numSegments s.
Proof.
  intros Hsh [Hwf Hn]. split; [eapply shape_wf; eauto|].
  destruct Hsh as (-> & _). exact Hn.
Qed.

Lemma book_outcome_wf s seat l r res s' :
  wf_sys s -> book_outcome s seat l r res s' -> wf_sys s'.
Proof.
  intros Hwf H.
  destruct H as [Hseat|Hseat Hrange|tr v tr1 Hseat Hrange Htr Hq Hv
                 |tr v tr1 tr2 g2 Hseat Hrange Htr Hq Hv Hu Hg].
  - now apply wf_sys_counted.
  - now apply wf_sys_counted.
  - destruct (wf_sys_seat _ _ _ Hwf Htr) as [Hwt Hnt].
    pose proof (proj1 (invalidRange_false _ _ _) Hrange) as (Hl & _).
    destruct (query_spec l r tr Hwt Hl) as (v' & tr1' & Eq & [Hsh _] & _).
    rewrite Hq in Eq. injection Eq as <- <-.
    apply wf_sys_withSeat; [now apply wf_sys_counted| |];
      apply (shape_keeps s tr tr1 Hsh); auto.
  - destruct (wf_sys_seat _ _ _ Hwf Htr) as [Hwt Hnt].
    pose proof (proj1 (invalidRange_false _ _ _) Hrange) as (Hl & _).
    destruct (query_spec l r tr Hwt Hl) as (v' & tr1' & Eq & [Hsh _] & _).
    rewrite Hq in Eq. injection Eq as <- <-.
    destruct (shape_keeps s tr tr1 Hsh (conj Hwt Hnt)) as [Hwt1 Hnt1].
    destruct (update_spec l r 1 tr1 Hwt1 Hl) as (tr2' & Eu & Hsh2 & _).
    rewrite Hu in Eu. injection Eu as <-.
    destruct (shape_keeps s tr1 tr2 Hsh2 (conj Hwt1 Hnt1)) as [Hwt2 Hnt2].
    pose proof Hwf as (_ & _ & _ & Hwg & Hng & Hbs).
    destruct (update_spec l r 1 _ Hwg Hl) as (g2' & Eg & Hshg & _).
    rewrite Hg in Eg. injection Eg as <-.
    destruct (shape_keeps s _ g2 Hshg (conj Hwg Hng)) as [Hwg2 Hng2].
    apply wf_sys_withBookings.
    + apply wf_sys_withGlobalTree; auto.
      repeat apply wf_sys_withSeat; auto.
    + apply Forall_app. split; [exact Hbs|].
      constructor; [|constructor]. split; cbn; auto.
Qed.

Lemma cancel_outcome_wf s seat l r res s' :
  wf_sys s -> cancel_outcome s seat l r res s' -> wf_sys s'.
Proof.
  intros Hwf H.
  destruct H as [Hseat|Hseat Hrange|Hseat Hrange Hfind
                 |i b tr tr' g' Hseat Hrange Hfind Htr Hu Hg].
  - now apply wf_sys_counted.
  - now apply wf_sys_counted.
  - now apply wf_sys_counted.
  - destruct (wf_sys_seat _ _ _ Hwf Htr) as [Hwt Hnt].
    pose proof (proj1 (invalidRange_false _ _ _) Hrange) as (Hl & _).
    destruct (update_spec l r (-1) tr Hwt Hl) as (tr2' & Eu & Hsh2 & _).
    rewrite Hu in Eu. injection Eu as <-.
    destruct (shape_keeps s tr tr' Hsh2 (conj Hwt Hnt)) as [Hwt2 Hnt2].
    pose proof Hwf as (_ & _ & _ & Hwg & Hng & Hbs).
    destruct (update_spec l r (-1) _ Hwg Hl) as (g2' & Eg & Hshg & _).
    rewrite Hg in Eg. injection Eg as <-.
    destruct (shape_keeps s _ g' Hshg (conj Hwg Hng)) as [Hwg2 Hng2].
    apply wf_sys_withBookings.
    + apply wf_sys_withGlobalTree; auto.
      apply wf_sys_withSeat; auto.
    + apply Forall_insert; [exact Hbs|].
      assert (Hb : valid_booking s b).
      { clear -Hfind Hbs. revert i Hfind.
        induction Hbs as [|b0 bs Hb0 Hbs IH]; intros i Hfind; [discriminate|].
        cbn in Hfind. destruct (SeatBookingSystem.matches seat l r b0).
        - now injection Hfind as <- <-.
        - destruct (SeatBookingSystem.find _ bs) as [[i' b']|]; [|discriminate].
          injection Hfind as <- <-. eapply IH; eauto. }
      exact Hb.
Qed.

Lemma onSeat_query_wf s seat l r v s' :
  wf_sys s -> 0 <= l ->
  SeatBookingSystem.onSeat seat (SegmentTree.query l r) s = Ok (v, s') -> wf_sys s'.
Proof.
  intros Hwf Hl H. apply onSeat_run in H as (tr & tr' & _ & Htr & Hq & ->).
  destruct (wf_sys_seat _ _ _ Hwf Htr) as [Hwt Hnt].
  destruct (query_spec l r tr Hwt Hl) as (v' & tr1' & Eq & [Hsh _] & _).
  rewrite Hq in Eq. injection Eq as <- <-.
  apply wf_sys_withSeat; auto; apply (shape_keeps s tr tr' Hsh); auto.
Qed.

Lemma queryAvailableLoop_wf seatIds : forall l r acc s res s',
  wf_sys s -> 0 <= l ->
  SeatBookingSystem.queryAvailableLoop seatIds l r acc s = Ok (res, s') -> wf_sys s'.
Proof.
  induction seatIds as [|seat rest IH]; intros l r acc s res s' Hwf Hl H.
  - now injection H as <- <-.
  - cbn [SeatBookingSystem.queryAvailableLoop] in H. unfold bind at 1 in H.
    destruct (SeatBookingSystem.onSeat seat _ s) as [[v s1]|f] eqn:Hq; [|discriminate].
    apply onSeat_query_wf in Hq; auto.
    destruct (v =? 0); eapply IH; eauto.
Qed.

Lemma allBookedLoop_wf segments : forall seat s res s',
  wf_sys s -> Forall (fun i => 0 <= i) segments ->
  SeatBookingSystem.allBookedLoop segments seat s = Ok (res, s') -> wf_sys s'.
Proof.
  induction segments as [|i rest IH]; intros seat s res s' Hwf Hpos H.
  - now injection H as <- <-.
  - cbn [SeatBookingSystem.allBookedLoop] in H. unfold bind at 1 in H.
    destruct (SeatBookingSystem.onSeat seat _ s) as [[v s1]|f] eqn:Hq; [|discriminate].
    inversion Hpos as [|? ? Hi Hrest]; subst.
    apply onSeat_query_wf in Hq; auto.
    destruct (v =? 0).
    + now injection H as <- <-.
    + eapply IH; eauto.
Qed.

Lemma queryAvailable_wf s l r res s' :
  wf_sys s -> SeatBookingSystem.queryAvailable l r s = Ok (res, s') -> wf_sys s'.
Proof.
  intros Hwf. unfold SeatBookingSystem.queryAvailable.
  unfold bind at 1. cbn [SeatBookingSystem.countOperation]. fold (counted s).
  unfold bind at 1. cbn [SeatBookingSystem.get]. unfold bind at 1.
  cbn [SeatBookingSystem.get counted SeatBookingSystem.numSeats
       SeatBookingSystem.numStations]. fold (counted s).
  destruct (SeatBookingSystem.invalidRange _ _ _) eqn:Hrange.
  { now intros [= <- <-]. }
  apply invalidRange_false in Hrange as (Hl & _).
  unfold bind at 1.
  destruct (SeatBookingSystem.queryAvailableLoop _ _ _ _ _) as [[av s1]|f] eqn:Hloop;
    [|discriminate].
  apply queryAvailableLoop_wf in Hloop; auto.
  unfold ret. now intros [= <- <-].
Qed.

Lemma isAvailable_wf s seat l r res s' :
  wf_sys s -> SeatBookingSystem.isAvailable seat l r s = Ok (res, s') -> wf_sys s'.
Proof.
  intros Hwf. unfold SeatBookingSystem.isAvailable.
  unfold bind at 1. cbn [SeatBookingSystem.get]. unfold bind at 1.
  cbn [SeatBookingSystem.get].
  destruct (SeatBookingSystem.invalidSeat _ _) eqn:Hseat.
  { now intros [= <- <-]. }
  destruct (SeatBookingSystem.invalidRange _ _ _) eqn:Hrange.
  { now intros [= <- <-]. }
  apply invalidRange_false in Hrange as (Hl & _).
  unfold bind at 1.
  destruct (SeatBookingSystem.onSeat seat _ s) as [[v s1]|f] eqn:Hq; [|discriminate].
  apply onSeat_query_wf in Hq; auto.
  unfold ret. now intros [= <- <-].
Qed.

Lemma seqZ_nonneg len : Forall (fun i => 0 <= i) (seqZ 0 len).
Proof. apply Forall_seqZ. intros. lia. Qed.

Lemma getSeatStatus_wf s seat res s' :
  wf_sys s -> SeatBookingSystem.getSeatStatus seat s = Ok (res, s') -> wf_sys s'.
Proof.
  intros Hwf. unfold SeatBookingSystem.getSeatStatus.
  unfold bind at 1. cbn [SeatBookingSystem.get]. unfold bind at 1.
  cbn [SeatBookingSystem.get].
  destruct (SeatBookingSystem.invalidSeat _ _) eqn:Hseat.
  { now intros [= <- <-]. }
  unfold bind at 1.
  destruct (SeatBookingSystem.onSeat seat _ s) as [[v s1]|f] eqn:Hq; [|discriminate].
  apply onSeat_query_wf in Hq; [|auto|lia].
  destruct (v =? 0).
  { now intros [= <- <-]. }
  unfold bind at 1.
  destruct (SeatBookingSystem.allBookedLoop _ _ _) as [[b s2]|f] eqn:Hloop; [|discriminate].
  apply allBookedLoop_wf in Hloop; auto using seqZ_nonneg.
  unfold ret. now intros [= <- <-].
Qed.

Lemma pushSeats_spec count : forall numSegments acc seats,
  SeatBookingSystem.pushSeats count numSegments acc = Ok seats ->
  Forall (fun tr => wf tr /\ SegmentTree.n tr = numSegments) acc ->
  Forall (fun tr => wf tr /\ SegmentTree.n tr = numSegments) seats /\
  length seats = (length acc + count)%nat.
Proof.
  induction count as [|count IH]; intros numSegments acc seats H Hacc.
  - injection H as <-. split; [exact Hacc|lia].
  - cbn [SeatBookingSystem.pushSeats] in H.
    destruct (SegmentTree.constructor numSegments) as [tr|f] eqn:Hc; [|discriminate].
    apply IH in H.
    + destruct H as [H1 H2]. split; [exact H1|]. rewrite H2, length_app. cbn. lia.
    + apply Forall_app. split; [exact Hacc|].
      constructor; [|constructor]. now apply constructor_wf.
Qed.

Lemma constructor_wf_sys numSeats numStations s :
  SeatBookingSystem.constructor numSeats numStations = Ok s -> wf_sys s.
Proof.
  unfold SeatBookingSystem.constructor.
  destruct (SeatBookingSystem.pushSeats _ _ _) as [seats|f] eqn:Hseats; [|discriminate].
  destruct (SegmentTree.constructor _) as [g|f] eqn:Hg; [|discriminate].
  intros [= <-]. apply pushSeats_spec in Hseats as [H1 H2]; [|constructor].
  apply constructor_wf in Hg as [Hg1 Hg2].
  unfold wf_sys; cbn. split; [reflexivity|]. split; [exact H2|]. auto.
Qed.

Lemma reachable_wf s : reachable s -> wf_sys s.
Proof.
  induction 1 as [? ? s H|s seat l r res s' _ IH H|s seat l r res s' _ IH H
                  |s l r res s' _ IH H|s seat l r res s' _ IH H|s seat res s' _ IH H].
  - eapply constructor_wf_sys; eauto.
  - eapply book_outcome_wf; [exact IH|]. eapply book_run; exact H.
  - eapply cancel_outcome_wf; [exact IH|]. eapply cancel_run; exact H.
  - eapply queryAvailable_wf; eauto.
  - eapply isAvailable_wf; eauto.
  - eapply getSeatStatus_wf; eauto.
Qed.

(** [book] and [cancel] return on every well-formed ledger. *)
Lemma book_total s seat l r :
  wf_sys s -> exists res s', SeatBookingSystem.book seat l r s = Ok (res, s').
Proof.
  intros Hwf.
  destruct (SeatBookingSystem.invalidSeat seat (SeatBookingSystem.numSeats s)) eqn:Hseat.
  { eexists _, _. apply book_complete. now apply book_invalid_seat. }
  destruct (SeatBookingSystem.invalidRange l r (SeatBookingSystem.numStations s))
    eqn:Hrange.
  { eexists _, _. apply book_complete. now apply book_invalid_range. }
  destruct (wf_sys_seat_exists _ _ Hwf Hseat) as [tr Htr].
  destruct (wf_sys_seat _ _ _ Hwf Htr) as [Hwt Hnt].
  pose proof (proj1 (invalidRange_false _ _ _) Hrange) as (Hl & _).
  destruct (query_spec l r tr Hwt Hl) as (v & tr1 & Eq & [Hsh _] & _).
  destruct (Z_lt_le_dec 0 v) as [Hv|Hv].
  { eexists _, _. apply book_complete. eapply book_conflict; eauto. }
  destruct (update_spec l r 1 tr1 (shape_wf _ _ Hsh Hwt) Hl) as (tr2 & Eu & _).
  pose proof Hwf as (_ & _ & _ & Hwg & _).
  destruct (update_spec l r 1 _ Hwg Hl) as (g2 & Eg & _).
  eexists _, _. apply book_complete. eapply book_success; eauto.
Qed.

Lemma cancel_total s seat l r :
  wf_sys s -> exists res s', SeatBookingSystem.cancel seat l r s = Ok (res, s').
Proof.
  intros Hwf.
  destruct (SeatBookingSystem.invalidSeat seat (SeatBookingSystem.numSeats s)) eqn:Hseat.
  { eexists _, _. apply cancel_complete. now apply cancel_invalid_seat. }
  destruct (SeatBookingSystem.invalidRange l r (SeatBookingSystem.numStations s))
    eqn:Hrange.
  { eexists _, _. apply cancel_complete. now apply cancel_invalid_range. }
  destruct (SeatBookingSystem.find (SeatBookingSystem.matches seat l r)
              (SeatBookingSystem.bookings s)) as [[i b]|] eqn:Hfind.
  2:{ eexists _, _. apply cancel_complete. now apply cancel_not_found. }
  destruct (wf_sys_seat_exists _ _ Hwf Hseat) as [tr Htr].
  destruct (wf_sys_seat _ _ _ Hwf Htr) as [Hwt Hnt].
  pose proof (proj1 (invalidRange_false _ _ _) Hrange) as (Hl & _).
  destruct (update_spec l r (-1) tr Hwt Hl) as (tr' & Eu & _).
  pose proof Hwf as (_ & _ & _ & Hwg & _).
  destruct (update_spec l r (-1) _ Hwg Hl) as (g' & Eg & _).
  eexists _, _. apply cancel_complete. eapply cancel_success; eauto.
Qed.

(** ** Searching the bookings log *)

Lemma matches_true seat l r b :
  SeatBookingSystem.matches seat l r b = true <->
  SeatBookingSystem.seatId b = seat /\ SeatBookingSystem.from b = l /\
  SeatBookingSystem.to b = r /\ SeatBookingSystem.active b = true.
Proof.
  unfold SeatBookingSystem.matches. rewrite !andb_true_iff, !Z.eqb_eq. tauto.
Qed.

Lemma find_None p bs :
  SeatBookingSystem.find p bs = None <-> forall b, b ∈ bs -> p b = false.
Proof.
  induction bs as [|b0 bs IH]; cbn.
  - split; [|reflexivity]. intros _ b Hb. inversion Hb.
  - destruct (p b0) eqn:Hp.
    + split; [discriminate|]. intros H.
      rewrite (H b0) in Hp by constructor. discriminate.
    + destruct (SeatBookingSystem.find p bs) as [[i b']|].
      * split; [discriminate|]. intros H.
        assert (Some (i, b') = None) by (apply IH; intros b Hb; apply H; now constructor).
        discriminate.
      * split; [|reflexivity]. intros _ b Hb.
        inversion Hb; subst; [exact Hp|]. now apply IH.
Qed.

Lemma find_Some p bs : forall i b,
  SeatBookingSystem.find p bs = Some (i, b) ->
  bs !! i = Some b /\ p b = true /\
  forall j b', (j < i)%nat -> bs !! j = Some b' -> p b' = false.
Proof.
  induction bs as [|b0 bs IH]; intros i b H; cbn in H; [discriminate|].
  destruct (p b0) eqn:Hp.
  - injection H as <- <-. repeat split; auto. intros j b' Hj. lia.
  - destruct (SeatBookingSystem.find p bs) as [[i' b1]|]; [|discriminate].
    injection H as <- <-. destruct (IH i' b1 eq_refl) as (H1 & H2 & H3).
    repeat split; auto. intros [|j] b' Hj Hb'; cbn in Hb'.
    + now injection Hb' as <-.
    + eapply H3; [|exact Hb']. lia.
Qed.

Lemma exact_match_find s seat l r :
  exact_match s seat l r <->
  exists i b, SeatBookingSystem.find (SeatBookingSystem.matches seat l r)
                (SeatBookingSystem.bookings s) = Some (i, b).
Proof.
  split.
  - intros (b & Hb & Hm). apply matches_true in Hm.
    destruct (SeatBookingSystem.find _ _) as [[i b']|] eqn:Hf; [eauto|].
    rewrite (proj1 (find_None _ _) Hf b Hb) in Hm. discriminate.
  - intros (i & b & Hf). apply find_Some in Hf as (Hi & Hm & _).
    exists b. split; [eapply list_elem_of_lookup_2; eauto|]. now apply matches_true.
Qed.

Lemma exact_match_valid s seat l r :
  wf_sys s -> exact_match s seat l r ->
  SeatBookingSystem.invalidSeat seat (SeatBookingSystem.numSeats s) = false /\
  SeatBookingSystem.invalidRange l r (SeatBookingSystem.numStations s) = false.
Proof.
  intros (_ & _ & _ & _ & _ & Hbs) (b & Hb & <- & <- & <- & _).
  exact (proj1 (Forall_forall _ _) Hbs b Hb).
Qed.

Lemma pointQuery_spec s i :
  wf s -> 0 <= i < SegmentTree.n s ->
  pointQuery s i =
  Some (if SegmentTree.n s =? 1
        then SegmentTree.effectiveLeaf s i
        else Z.max 0 (SegmentTree.effectiveLeaf s i)).
Proof.
  intros Hwf Hi. unfold pointQuery.
  destruct (query_spec i (i + 1) s Hwf ltac:(lia)) as (v & s' & E & _ & _ & Hpt).
  rewrite E. f_equal. now apply Hpt.
Qed.

(** ** Leaf values against the specification's sums *)

(** On arrays that hold 0 in every cell the walk to a leaf returns the
    accumulated value it started with. *)
Lemma collectLeaf_zero f : forall s node start end_ P acc i,
  wf s -> fits s node start end_ P ->
  (forall j, (j < length (SegmentTree.tree s))%nat ->
             SegmentTree.tree s !!! j = 0 /\ SegmentTree.lazy s !!! j = 0) ->
  start <= i < end_ -> (Z.to_nat (end_ - start) <= f)%nat ->
  SegmentTree.collectLeaf f s node start end_ acc i = acc.
Proof.
  induction f as [|f IH]; intros s node start end_ P acc i Hwf Hfit Hzero Hi Hf; [lia|].
  cbn [SegmentTree.collectLeaf].
  destruct (fits_node_bound _ _ _ _ _ Hwf Hfit) as [Hb _].
  destruct (Hzero node Hb) as [-> ->].
  destruct (end_ - start =? 1) eqn:Hleaf; [lia|]. apply Z.eqb_neq in Hleaf.
  assert (Hw : 2 <= end_ - start) by lia.
  pose proof (mid_bounds start end_ Hw) as Hm.
  rewrite Z.add_0_r.
  destruct (i <? (start + end_) / 2) eqn:Hside.
  - apply Z.ltb_lt in Hside.
    apply (IH s _ _ _ (2 * P)); auto; [|lia|lia].
    apply (fits_left s s); auto using shape_refl.
  - apply Z.ltb_ge in Hside.
    apply (IH s _ _ _ (2 * P)); auto; [|lia|lia].
    apply (fits_right s s); auto using shape_refl.
Qed.

Lemma effectiveLeaf_new n s i :
  SegmentTree.constructor n = Ok s -> 0 <= i < n -> SegmentTree.effectiveLeaf s i = 0.
Proof.
  intros Hnew Hi. destruct (constructor_wf n s Hnew) as [Hwf En].
  unfold SegmentTree.effectiveLeaf. rewrite En.
  apply (collectLeaf_zero _ s 0 0 n 1); auto; try lia.
  - rewrite <- En. apply fits_root; [exact Hwf|lia].
  - revert Hnew. unfold SegmentTree.constructor, SegmentTree.newArray.
    destruct ((0 <=? 4 * n) && (4 * n <? 2 ^ 32)); [|discriminate].
    intros [= <-]. cbn. intros j Hj. rewrite length_replicate in Hj.
    now rewrite !lookup_total_replicate_2 by exact Hj.
Qed.

(** After any in-range calls on a new tree, every leaf shows the sum of
    the deltas of the updates that cover it. *)
Lemma run_calls_leaves cs : forall s,
  wf s -> Forall (call_in_range (SegmentTree.n s)) cs ->
  exists vs s',
    run_calls cs s = Ok (vs, s') /\ shape s s' /\
    forall i, 0 <= i < SegmentTree.n s ->
      SegmentTree.effectiveLeaf s' i = SegmentTree.effectiveLeaf s i + spec_deltaSum cs i.
Proof.
  induction cs as [|c cs IH]; intros s Hwf Hcs.
  - exists [], s. split; [reflexivity|]. split; [apply shape_refl|].
    intros i _. cbn. lia.
  - inversion Hcs as [|? ? Hc Hrest]; subst. destruct c as [l r val|l r]; cbn in Hc.
    + destruct (update_spec l r val s Hwf ltac:(lia)) as (s1 & E & Hsh & Hleaf).
      pose proof Hsh as (En & _).
      destruct (IH s1 (shape_wf _ _ Hsh Hwf)) as (vs & s' & E' & Hsh' & Hleaf').
      { rewrite En. exact Hrest. }
      exists vs, s'. cbn [run_calls]. rewrite (bind_Ok _ _ _ _ _ E).
      split; [exact E'|]. split; [eapply shape_trans; eauto|].
      intros i Hi. rewrite Hleaf' by (rewrite En; lia). rewrite Hleaf by lia.
      cbn [spec_deltaSum foldr]. fold (spec_deltaSum cs i). lia.
    + destruct (query_spec l r s Hwf ltac:(lia)) as (v & s1 & E & [Hsh Hleaf] & _).
      pose proof Hsh as (En & _).
      destruct (IH s1 (shape_wf _ _ Hsh Hwf)) as (vs & s' & E' & Hsh' & Hleaf').
      { rewrite En. exact Hrest. }
      exists (v :: vs), s'. cbn [run_calls]. rewrite (bind_Ok _ _ _ _ _ E).
      rewrite (bind_Ok _ _ _ _ _ E').
      split; [reflexivity|]. split; [eapply shape_trans; eauto|].
      intros i Hi. rewrite Hleaf' by (rewrite En; lia). rewrite Hleaf by lia.
      cbn [spec_deltaSum foldr]. fold (spec_deltaSum cs i). lia.
Qed.

Lemma new_tree_leaves n s cs :
  SegmentTree.constructor n = Ok s -> Forall (call_in_range n) cs ->
  exists vs s',
    run_calls cs s = Ok (vs, s') /\
    forall i, 0 <= i < n -> SegmentTree.effectiveLeaf s' i = spec_deltaSum cs i.
Proof.
  intros Hnew Hcs. destruct (constructor_wf n s Hnew) as [Hwf En].
  rewrite <- En in Hcs.
  destruct (run_calls_leaves cs s Hwf Hcs) as (vs & s' & E & _ & Hleaf).
  exists vs, s'. split; [exact E|]. intros i Hi.
  rewrite Hleaf by lia. rewrite (effectiveLeaf_new n s i Hnew Hi). lia.
Qed.

(** ** What [book] validates *)

Lemma book_validation s seat l r res s' :
  SeatBookingSystem.book seat l r s = Ok (res, s') ->
  (SeatBookingSystem.message res = SeatBookingSystem.InvalidSeatID seat <->
   seat < 0 \/ SeatBookingSystem.numSeats s <= seat) /\
  (SeatBookingSystem.message res = SeatBookingSystem.InvalidStationRange l r <->
   0 <= seat < SeatBookingSystem.numSeats s /\
   (l < 0 \/ SeatBookingSystem.numStations s < r \/ r <= l)).
Proof.
  intros H. apply book_run in H.
  destruct H as [Hseat|Hseat Hrange|tr v tr1 Hseat Hrange Htr Hq Hv
                 |tr v tr1 tr2 g2 Hseat Hrange Htr Hq Hv Hu Hg];
    cbn [SeatBookingSystem.message];
    unfold SeatBookingSystem.invalidSeat, SeatBookingSystem.invalidRange in *;
    repeat match goal with
           | H : _ || _ = true |- _ => apply orb_true_iff in H
           | H : _ || _ = false |- _ => apply orb_false_iff in H as [? ?]
           end;
    (split; split; intros; try discriminate; try reflexivity; try lia).
Qed.

(** ** The global tree against the bookings log *)

Lemma same_log_refl s : same_log s s.
Proof. repeat split. Qed.

Lemma same_log_trans s1 s2 s3 : same_log s1 s2 -> same_log s2 s3 -> same_log s1 s3.
Proof. unfold same_log. intros (?&?&?) (?&?&?). repeat split; congruence. Qed.

Lemma onSeat_same_log {A : Type} seat (m : M SegmentTree.t A) s a s' :
  SeatBookingSystem.onSeat seat m s = Ok (a, s') -> same_log s s'.
Proof.
  intros H. apply onSeat_run in H as (tr & tr' & _ & _ & _ & ->). repeat split.
Qed.

Lemma queryAvailableLoop_same_log seatIds : forall l r acc s res s',
  SeatBookingSystem.queryAvailableLoop seatIds l r acc s = Ok (res, s') -> same_log s s'.
Proof.
  induction seatIds as [|seat rest IH]; intros l r acc s res s' H.
  - injection H as <- <-. apply same_log_refl.
  - cbn [SeatBookingSystem.queryAvailableLoop] in H. unfold bind at 1 in H.
    destruct (SeatBookingSystem.onSeat seat _ s) as [[v s1]|f] eqn:Hq; [|discriminate].
    apply onSeat_same_log in Hq.
    destruct (v =? 0); (eapply same_log_trans; [exact Hq|eapply IH; eauto]).
Qed.

Lemma allBookedLoop_same_log segments : forall seat s res s',
  SeatBookingSystem.allBookedLoop segments seat s = Ok (res, s') -> same_log s s'.
Proof.
  induction segments as [|i rest IH]; intros seat s res s' H.
  - injection H as <- <-. apply same_log_refl.
  - cbn [SeatBookingSystem.allBookedLoop] in H. unfold bind at 1 in H.
    destruct (SeatBookingSystem.onSeat seat _ s) as [[v s1]|f] eqn:Hq; [|discriminate].
    apply onSeat_same_log in Hq.
    destruct (v =? 0).
    + now injection H as <- <-.
    + eapply same_log_trans; [exact Hq|eapply IH; eauto].
Qed.

Lemma queryAvailable_same_log s l r res s' :
  SeatBookingSystem.queryAvailable l r s = Ok (res, s') -> same_log s s'.
Proof.
  unfold SeatBookingSystem.queryAvailable.
  unfold bind at 1. cbn [SeatBookingSystem.countOperation]. fold (counted s).
  unfold bind at 1. cbn [SeatBookingSystem.get]. unfold bind at 1.
  cbn [SeatBookingSystem.get counted SeatBookingSystem.numSeats
       SeatBookingSystem.numStations]. fold (counted s).
  destruct (SeatBookingSystem.invalidRange _ _ _).
  { intros [= <- <-]. repeat split. }
  unfold bind at 1.
  destruct (SeatBookingSystem.queryAvailableLoop _ _ _ _ _) as [[av s1]|f] eqn:Hloop;
    [|discriminate].
  apply queryAvailableLoop_same_log in Hloop.
  unfold ret. intros [= <- <-]. exact Hloop.
Qed.

Lemma isAvailable_same_log s seat l r res s' :
  SeatBookingSystem.isAvailable seat l r s = Ok (res, s') -> same_log s s'.
Proof.
  unfold SeatBookingSystem.isAvailable.
  unfold bind at 1. cbn [SeatBookingSystem.get]. unfold bind at 1.
  cbn [SeatBookingSystem.get].
  destruct (SeatBookingSystem.invalidSeat _ _).
  { intros [= <- <-]. apply same_log_refl. }
  destruct (SeatBookingSystem.invalidRange _ _ _).
  { intros [= <- <-]. apply same_log_refl. }
  unfold bind at 1.
  destruct (SeatBookingSystem.onSeat seat _ s) as [[v s1]|f] eqn:Hq; [|discriminate].
  apply onSeat_same_log in Hq.
  unfold ret. now intros [= <- <-].
Qed.

Lemma getSeatStatus_same_log s seat res s' :
  SeatBookingSystem.getSeatStatus seat s = Ok (res, s') -> same_log s s'.
Proof.
  unfold SeatBookingSystem.getSeatStatus.
  unfold bind at 1. cbn [SeatBookingSystem.get]. unfold bind at 1.
  cbn [SeatBookingSystem.get].
  destruct (SeatBookingSystem.invalidSeat _ _).
  { intros [= <- <-]. apply same_log_refl. }
  unfold bind at 1.
  destruct (SeatBookingSystem.onSeat seat _ s) as [[v s1]|f] eqn:Hq; [|discriminate].
  apply onSeat_same_log in Hq.
  destruct (v =? 0).
  { now intros [= <- <-]. }
  unfold bind at 1.
  destruct (SeatBookingSystem.allBookedLoop _ _ _) as [[b s2]|f] eqn:Hloop; [|discriminate].
  apply allBookedLoop_same_log in Hloop.
  unfold ret. intros [= <- <-]. eapply same_log_trans; eauto.
Qed.

Lemma spec_activeCount_cons b bs i :
  spec_activeCount (b :: bs) i =
  (if SeatBookingSystem.active b
      && covers (SeatBookingSystem.from b) (SeatBookingSystem.to b) i
   then 1 else 0) + spec_activeCount bs i.
Proof. reflexivity. Qed.

Lemma spec_activeCount_app bs b i :
  spec_activeCount (bs ++ [b]) i =
  spec_activeCount bs i
  + (if SeatBookingSystem.active b
        && covers (SeatBookingSystem.from b) (SeatBookingSystem.to b) i
     then 1 else 0).
Proof.
  induction bs as [|b0 bs IH].
  - cbn [app]. rewrite spec_activeCount_cons. cbn. lia.
  - change ((b0 :: bs) ++ [b]) with (b0 :: (bs ++ [b])).
    rewrite !spec_activeCount_cons, IH. lia.
Qed.

Lemma spec_activeCount_deactivate bs : forall k b i,
  bs !! k = Some b -> SeatBookingSystem.active b = true ->
  spec_activeCount (<[k := deactivated b]> bs) i =
  spec_activeCount bs i
  + (if covers (SeatBookingSystem.from b) (SeatBookingSystem.to b) i then -1 else 0).
Proof.
  induction bs as [|b0 bs IH]; intros k b i Hk Hact; [discriminate|].
  destruct k as [|k]; cbn in Hk.
  - injection Hk as ->.
    change (<[0%nat := deactivated b]> (b :: bs)) with (deactivated b :: bs).
    rewrite !spec_activeCount_cons, Hact. cbn [deactivated SeatBookingSystem.active
      SeatBookingSystem.from SeatBookingSystem.to andb].
    destruct (covers _ _ i); lia.
  - change (<[S k := deactivated b]> (b0 :: bs))
      with (b0 :: <[k := deactivated b]> bs).
    rewrite !spec_activeCount_cons, (IH k b i Hk Hact). lia.
Qed.

(** In every reachable ledger each leaf of the global tree shows the number
    of active bookings that cover its segment. *)
Lemma global_leaves_count_active s :
  reachable s ->
  forall i, 0 <= i < SeatBookingSystem.numSegments s ->
    SegmentTree.effectiveLeaf (SeatBookingSystem.globalTree s) i =
    spec_activeCount (SeatBookingSystem.bookings s) i.
Proof.
  intros Hreach. pose proof Hreach as Hr.
  induction Hreach as [ns nst s H|s seat l r res s' Hs IH H|s seat l r res s' Hs IH H
                  |s l r res s' Hs IH H|s seat l r res s' Hs IH H|s seat res s' Hs IH H];
    intros i Hi.
  - revert H Hi. unfold SeatBookingSystem.constructor.
    destruct (SeatBookingSystem.pushSeats _ _ _) as [seats|f]; [|discriminate].
    destruct (SegmentTree.constructor _) as [g|f] eqn:Hg; [|discriminate].
    intros [= <-]. cbn. intros Hi. eapply effectiveLeaf_new; eauto.
  - pose proof (reachable_wf s Hs) as Hwf. specialize (IH Hs).
    apply book_run in H.
    destruct H as [Hseat|Hseat Hrange|tr v tr1 Hseat Hrange Htr Hq Hv
                   |tr v tr1 tr2 g2 Hseat Hrange Htr Hq Hv Hu Hg];
      try (apply IH; exact Hi).
    cbn [withBookings withGlobalTree SeatBookingSystem.globalTree
         SeatBookingSystem.bookings SeatBookingSystem.numSegments
         withSeat counted] in *.
    pose proof Hwf as (_ & _ & _ & Hwg & Hng & _).
    pose proof (proj1 (invalidRange_false _ _ _) Hrange) as (Hl & _).
    destruct (update_spec l r 1 _ Hwg Hl) as (g2' & Eg & _ & Hgleaf).
    rewrite Hg in Eg. injection Eg as <-.
    rewrite Hgleaf by lia. rewrite IH by exact Hi.
    rewrite spec_activeCount_app. cbn. reflexivity.
  - pose proof (reachable_wf s Hs) as Hwf. specialize (IH Hs).
    apply cancel_run in H.
    destruct H as [Hseat|Hseat Hrange|Hseat Hrange Hfind
                   |i0 b tr tr' g' Hseat Hrange Hfind Htr Hu Hg];
      try (apply IH; exact Hi).
    cbn [withBookings withGlobalTree SeatBookingSystem.globalTree
         SeatBookingSystem.bookings SeatBookingSystem.numSegments
         withSeat counted] in *.
    pose proof Hwf as (_ & _ & _ & Hwg & Hng & _).
    pose proof (proj1 (invalidRange_false _ _ _) Hrange) as (Hl & _).
    destruct (update_spec l r (-1) _ Hwg Hl) as (g2' & Eg & _ & Hgleaf).
    rewrite Hg in Eg. injection Eg as <-.
    destruct (find_Some _ _ _ _ Hfind) as (Hi0 & Hm & _).
    apply matches_true in Hm as (_ & Hfrom & Hto & Hact).
    rewrite Hgleaf by lia. rewrite IH by exact Hi.
    rewrite (spec_activeCount_deactivate _ _ _ _ Hi0 Hact). now rewrite Hfrom, Hto.
  - apply queryAvailable_same_log in H as (-> & -> & E). rewrite E in Hi. now apply IH.
  - apply isAvailable_same_log in H as (-> & -> & E). rewrite E in Hi. now apply IH.
  - apply getSeatStatus_same_log in H as (-> & -> & E). rewrite E in Hi. now apply IH.
Qed.

(** ** The example ledgers *)

Lemma fresh_ledger_new : SeatBookingSystem.constructor 1 10 = Ok fresh_ledger.
Proof. vm_compute. reflexivity. Qed.

Lemma fresh_ledger_reachable : reachable fresh_ledger.
Proof. exact (reach_new 1 10 fresh_ledger fresh_ledger_new). Qed.

Lemma ledger_booked_0_5_run :
  SeatBookingSystem.book 0 0 5 fresh_ledger =
  Ok (SeatBookingSystem.mkResult true (SeatBookingSystem.SeatBooked 1 1 6) (Some 1),
      ledger_booked_0_5).
Proof. vm_compute. reflexivity. Qed.

Lemma ledger_booked_0_5_reachable : reachable ledger_booked_0_5.
Proof.
  exact (reach_book _ _ _ _ _ _ fresh_ledger_reachable ledger_booked_0_5_run).
Qed.

(** ** Sequences of tree calls *)

Lemma run_calls_ok cs : forall s,
  wf s -> Forall (call_in_range (SegmentTree.n s)) cs ->
  exists vs s', run_calls cs s = Ok (vs, s') /\ shape s s'.
Proof.
  induction cs as [|c cs IH]; intros s Hwf Hcs.
  - exists [], s. split; [reflexivity|apply shape_refl].
  - inversion Hcs as [|? ? Hc Hrest]; subst. destruct c as [l r val|l r]; cbn in Hc.
    + destruct (update_spec l r val s Hwf ltac:(lia)) as (s1 & E & Hsh & _).
      destruct (IH s1 (shape_wf _ _ Hsh Hwf)) as (vs & s' & E' & Hsh').
      { destruct Hsh as (-> & _). exact Hrest. }
      exists vs, s'. cbn [run_calls]. rewrite (bind_Ok _ _ _ _ _ E).
      split; [exact E'|eapply shape_trans; eauto].
    + destruct (query_spec l r s Hwf ltac:(lia)) as (v & s1 & E & [Hsh _] & _).
      destruct (IH s1 (shape_wf _ _ Hsh Hwf)) as (vs & s' & E' & Hsh').
      { destruct Hsh as (-> & _). exact Hrest. }
      exists (v :: vs), s'. cbn [run_calls]. rewrite (bind_Ok _ _ _ _ _ E).
      rewrite (bind_Ok _ _ _ _ _ E').
      split; [reflexivity|eapply shape_trans; eauto].
Qed.

(** * The claims *)

(** C1 (code defect).  The claim: after any updates, [query(l, r)] returns
    the maximum over the segments of [[l, r)] of the summed deltas covering
    each segment.  On a two-segment tree, after [update(0, 1, 1)] the two
    segments carry 1 and 0, so the claimed answer for [query(0, 2)] is 1;
    the code answers 2, because [update] recomputes a node from
    [tree[child] + lazy[child]] although [tree[child]] already contains
    [lazy[child]]. *)
Theorem C1_query_counts_child_lazy_twice :
  onNewTree 2 (run_calls [Update 0 1 1; Query 0 2]) = Ok [2] /\
  spec_rangeMax (spec_deltaSum [Update 0 1 1]) 0 2 = 1.
Proof. split; vm_compute; reflexivity. Qed.

(** The same defect makes the value stored at an inner node depend on the
    calls made so far, not only on the leaves: on a 9-station ledger with
    segments 0 and 1 of seat 0 booked, [query(0, 4)] on the seat's tree
    answers 2, and after [book(0, 2, 3)] and [cancel(0, 2, 3)] it answers 1,
    while every leaf is as before. *)
Example inner_value_depends_on_history :
  onNewSystem 1 9
    (SeatBookingSystem.book 0 0 2 >>>
     SeatBookingSystem.isAvailable 0 0 1 >>>
     let* before := SeatBookingSystem.onSeat 0 (SegmentTree.query 0 4) in
     SeatBookingSystem.book 0 2 3 >>>
     SeatBookingSystem.cancel 0 2 3 >>>
     let* after := SeatBookingSystem.onSeat 0 (SegmentTree.query 0 4) in
     ret (before, after))
  = Ok (2, 1).
Proof. vm_compute. reflexivity. Qed.

(** C2 (code defect).  The claim: while a booking of a seat is active, a
    second booking of the same seat whose range shares a segment with it
    fails.  On the ledger left by [worn_ledger] (no active booking),
    [book(0, 0, 4)] succeeds, and a second [book(0, 0, 4)] succeeds as well:
    both records are active at the end. *)
Theorem C2_overlapping_booking_accepted :
  onNewSystem 1 5
    (worn_ledger >>>
     let* first := SeatBookingSystem.book 0 0 4 in
     let* second := SeatBookingSystem.book 0 0 4 in
     let* bs := SeatBookingSystem.getBookings in
     ret (SeatBookingSystem.success first, SeatBookingSystem.success second,
          filter (fun b => SeatBookingSystem.active b = true) bs))
  = Ok (true, true,
        [SeatBookingSystem.mkBooking 3 0 0 4 true;
         SeatBookingSystem.mkBooking 4 0 0 4 true]).
Proof. vm_compute. reflexivity. Qed.


(** The failing path of [book] that runs a query first may also rearrange the
    seat's arrays: after [book(0, 0, 5)], the conflicting [book(0, 1, 2)]
    pushes the lazy value of node 1 down, first to nodes 3 and 4 and then
    from node 3 to nodes 7 and 8. *)
Example conflict_pushes_lazy_down :
  value_of
    ((let* before := SeatBookingSystem.get SeatBookingSystem.seats in
      let* r := SeatBookingSystem.book 0 1 2 in
      let* after := SeatBookingSystem.get SeatBookingSystem.seats in
      ret (SeatBookingSystem.success r,
           SegmentTree.lazy <$> before, SegmentTree.lazy <$> after))
       ledger_booked_0_5)
  = Ok (false,
        [[0; 1; 0; 0; 0; 0; 0; 0; 0; 0; 0; 1; 0; 0; 0; 0; 0; 0;
          0; 0; 0; 0; 0; 0; 0; 0; 0; 0; 0; 0; 0; 0; 0; 0; 0; 0]],
        [[0; 0; 0; 0; 1; 0; 0; 1; 1; 0; 0; 1; 0; 0; 0; 0; 0; 0;
          0; 0; 0; 0; 0; 0; 0; 0; 0; 0; 0; 0; 0; 0; 0; 0; 0; 0]]).
Proof. vm_compute. reflexivity. Qed.



(** C4.  On every reachable ledger [cancel(seat, l, r)] returns, and it
    succeeds exactly when the log holds an active booking of that seat with
    [from = l] and [to = r].  When it fails, the two trees and every booking
    are as before (only the operation counter has moved), and for a seat id
    and a range that pass the method's validation the failure is
    "no booking found".  When it succeeds, the first such record of the log
    is the one marked inactive, and both the seat's tree and the global tree
    received [update(l, r, -1)], which lowers the effective value of exactly
    the segments of [[l, r)] by one. *)
Theorem C4_cancel_needs_exact_match s seat l r :
  reachable s ->
  exists res s',
    SeatBookingSystem.cancel seat l r s = Ok (res, s') /\
    (SeatBookingSystem.success res = true <-> exact_match s seat l r) /\
    (SeatBookingSystem.success res = false ->
       s' = counted s /\
       (SeatBookingSystem.invalidSeat seat (SeatBookingSystem.numSeats s) = false ->
        SeatBookingSystem.invalidRange l r (SeatBookingSystem.numStations s) = false ->
        SeatBookingSystem.message res =
        SeatBookingSystem.NoBookingFound (seat + 1) (l + 1) (r + 1))) /\
    (SeatBookingSystem.success res = true ->
       exists i b tr tr' g',
         SeatBookingSystem.bookings s !! i = Some b /\
         SeatBookingSystem.matches seat l r b = true /\
         (forall j b', (j < i)%nat -> SeatBookingSystem.bookings s !! j = Some b' ->
                       SeatBookingSystem.matches seat l r b' = false) /\
         SeatBookingSystem.seats s !! Z.to_nat seat = Some tr /\
         SegmentTree.update l r (-1) tr = Ok (tt, tr') /\
         SegmentTree.update l r (-1) (SeatBookingSystem.globalTree s) = Ok (tt, g') /\
         s' = withBookings (<[i := deactivated b]> (SeatBookingSystem.bookings s))
                (withGlobalTree g' (withSeat seat tr' (counted s))) /\
         forall k, 0 <= k < SeatBookingSystem.numSegments s ->
           SegmentTree.effectiveLeaf tr' k =
             SegmentTree.effectiveLeaf tr k + (if covers l r k then -1 else 0) /\
           SegmentTree.effectiveLeaf g' k =
             SegmentTree.effectiveLeaf (SeatBookingSystem.globalTree s) k
             + (if covers l r k then -1 else 0)).
Proof.
  intros Hreach. pose proof (reachable_wf s Hreach) as Hwf.
  destruct (cancel_total s seat l r Hwf) as (res & s' & E).
  exists res, s'. split; [exact E|].
  apply cancel_run in E.
  destruct E as [Hseat|Hseat Hrange|Hseat Hrange Hfind
                 |i b tr tr' g' Hseat Hrange Hfind Htr Hu Hg]; cbn.
  - split; [|split; [|discriminate]].
    + split; [discriminate|]. intros Hm.
      apply (exact_match_valid _ _ _ _ Hwf) in Hm as [Hm _]. congruence.
    + intros _. split; [reflexivity|]. congruence.
  - split; [|split; [|discriminate]].
    + split; [discriminate|]. intros Hm.
      apply (exact_match_valid _ _ _ _ Hwf) in Hm as [_ Hm]. congruence.
    + intros _. split; [reflexivity|]. congruence.
  - split; [|split; [|discriminate]].
    + split; [discriminate|]. intros Hm.
      apply exact_match_find in Hm as (i & b & Hm). congruence.
    + intros _. split; reflexivity.
  - split; [|split; [discriminate|]].
    + split; [|reflexivity]. intros _. apply exact_match_find. eauto.
    + intros _. exists i, b, tr, tr', g'.
      destruct (find_Some _ _ _ _ Hfind) as (Hi & Hm & Hfirst).
      repeat (split; [assumption || reflexivity|]).
      destruct (wf_sys_seat _ _ _ Hwf Htr) as [Hwt Hnt].
      pose proof (proj1 (invalidRange_false _ _ _) Hrange) as (Hl & _).
      destruct (update_spec l r (-1) tr Hwt Hl) as (tr2 & Eu & _ & Hleaf).
      rewrite Hu in Eu. injection Eu as <-.
      pose proof Hwf as (_ & _ & _ & Hwg & Hng & _).
      destruct (update_spec l r (-1) _ Hwg Hl) as (g2 & Eg & _ & Hgleaf).
      rewrite Hg in Eg. injection Eg as <-.
      intros k Hk. split; [apply Hleaf|apply Hgleaf]; lia.
Qed.

Lemma C4_witness :
  reachable ledger_booked_0_5 /\
  exists res s',
    SeatBookingSystem.cancel 0 1 4 ledger_booked_0_5 = Ok (res, s') /\
    SeatBookingSystem.success res = false /\
    SeatBookingSystem.message res = SeatBookingSystem.NoBookingFound 1 2 5 /\
    s' = counted ledger_booked_0_5.
Proof.
  split; [exact ledger_booked_0_5_reachable|].
  destruct (C4_cancel_needs_exact_match ledger_booked_0_5 0 1 4
              ledger_booked_0_5_reachable)
    as (res & s' & E & Hiff & Hfail & _).
  exists res, s'. split; [exact E|].
  assert (Hs : SeatBookingSystem.success res = false).
  { destruct (SeatBookingSystem.success res); [|reflexivity].
    destruct (proj1 Hiff eq_refl) as (b & Hb & _ & Hfrom & _).
    cbn in Hb. apply list_elem_of_singleton in Hb. subst b. discriminate Hfrom. }
  split; [exact Hs|].
  destruct (Hfail Hs) as [Hs' Hmsg].
  split; [|exact Hs']. apply Hmsg; reflexivity.
Defined.

(** C5 (code defect).  The claim: [book(s, l, r)] followed at once by
    [cancel(s, l, r)] is an identity on what queries of the two trees
    return.  On a two-seat, five-station ledger with seat 0 booked for
    [[0, 4)], the global tree answers 1 to [query(0, 4)]; after
    [book(1, 0, 1)] and [cancel(1, 0, 1)], which both succeed, it answers 2,
    with the same bookings active as before.  The value of each single
    segment is restored; the values stored at the inner nodes are not (the
    double count of C1). *)
Theorem C5_round_trip_changes_range_query :
  onNewSystem 2 5
    (SeatBookingSystem.book 0 0 4 >>>
     let* before := SeatBookingSystem.onGlobalTree (SegmentTree.query 0 4) in
     let* booked := SeatBookingSystem.book 1 0 1 in
     let* cancelled := SeatBookingSystem.cancel 1 0 1 in
     let* after := SeatBookingSystem.onGlobalTree (SegmentTree.query 0 4) in
     let* bs := SeatBookingSystem.getBookings in
     ret (SeatBookingSystem.success booked, SeatBookingSystem.success cancelled,
          before, after, filter (fun b => SeatBookingSystem.active b = true) bs))
  = Ok (true, true, 1, 2, [SeatBookingSystem.mkBooking 1 0 0 4 true]).
Proof. vm_compute. reflexivity. Qed.

(** C6 (code defect).  The claim: the global tree's [query(l, r)] equals the
    maximum over the segments of [[l, r)] of the number of active bookings
    covering the segment.  After the single booking [book(0, 0, 1)] on a
    one-seat, three-station ledger that maximum over [[0, 2)] is 1; the
    global tree answers 2 (the same double count as in C1). *)
Theorem C6_global_tree_overcounts :
  onNewSystem 1 3
    (SeatBookingSystem.book 0 0 1 >>>
     let* v := SeatBookingSystem.onGlobalTree (SegmentTree.query 0 2) in
     let* bs := SeatBookingSystem.getBookings in
     ret (v, spec_rangeMax (spec_activeCount bs) 0 2))
  = Ok (2, 1).
Proof. vm_compute. reflexivity. Qed.

(** C7 (code defect).  The claim: a call with [r] beyond the number of
    segments is rejected as an invalid range.  The guard compares [r] with
    [numStations], one more than the number of segments: with 3 stations
    (2 segments) [book(0, 2, 3)] is accepted, changes no tree cell, and is
    accepted again. *)
Theorem C7_range_past_last_segment_accepted :
  onNewSystem 1 3
    (let* first := SeatBookingSystem.book 0 2 3 in
     let* second := SeatBookingSystem.book 0 2 3 in
     let* segments := SeatBookingSystem.get SeatBookingSystem.numSegments in
     ret (first, second, segments))
  = Ok (SeatBookingSystem.mkResult true (SeatBookingSystem.SeatBooked 1 3 4) (Some 1),
        SeatBookingSystem.mkResult true (SeatBookingSystem.SeatBooked 1 3 4) (Some 2),
        2).
Proof. vm_compute. reflexivity. Qed.

(** C8 (code defect).  The claim: right after a successful [book(s, l, r)],
    [isAvailable(s, l, r)] is false.  On the ledger left by [worn_ledger],
    [book(0, 0, 4)] succeeds and [isAvailable(0, 0, 4)] then answers true. *)
Theorem C8_available_after_booking :
  onNewSystem 1 5
    (worn_ledger >>>
     let* booked := SeatBookingSystem.book 0 0 4 in
     let* free := SeatBookingSystem.isAvailable 0 0 4 in
     ret (SeatBookingSystem.success booked, free))
  = Ok (true, true).
Proof. vm_compute. reflexivity. Qed.

(** C9.  For a segment count [n >= 0], the constructor allocates two arrays
    of [4 * n] cells, and every sequence of [update] and [query] calls with
    [0 <= l < r <= n] runs to the end on them: no call reads or writes a
    position outside the arrays (a run that did would end in
    [IndexOutOfRange]), and the arrays keep their length.  On a tree of zero
    segments every call with [0 <= l] returns at once, [query] with 0,
    leaving the tree as it was. *)
Theorem C9_arrays_of_4n_suffice n s :
  0 <= n -> SegmentTree.constructor n = Ok s ->
  length (SegmentTree.tree s) = Z.to_nat (4 * n) /\
  length (SegmentTree.lazy s) = Z.to_nat (4 * n) /\
  (forall cs, Forall (call_in_range n) cs ->
     exists vs s',
       run_calls cs s = Ok (vs, s') /\
       length (SegmentTree.tree s') = Z.to_nat (4 * n) /\
       length (SegmentTree.lazy s') = Z.to_nat (4 * n)) /\
  (n = 0 -> forall l r val, 0 <= l ->
     SegmentTree.update l r val s = Ok (tt, s) /\
     SegmentTree.query l r s = Ok (0, s)).
Proof.
  intros Hn Hnew. destruct (constructor_wf n s Hnew) as [Hwf En].
  pose proof Hwf as (_ & Ht & Hz). rewrite En in Ht, Hz.
  split; [exact Ht|]. split; [exact Hz|]. split.
  - intros cs Hcs. rewrite <- En in Hcs.
    destruct (run_calls_ok cs s Hwf Hcs) as (vs & s' & E & (_ & Et & Ez)).
    exists vs, s'. split; [exact E|]. split; congruence.
  - intros -> l r val Hl.
    unfold SegmentTree.update, SegmentTree.query. rewrite En.
    cbn [Z.to_nat SegmentTree.update_rec SegmentTree.query_rec].
    replace ((r <=? 0) || (0 <=? l)) with true
      by (symmetry; apply orb_true_iff; right; apply Z.leb_le; lia).
    split; reflexivity.
Qed.

Lemma C9_witness :
  0 <= 3 /\
  exists s, SegmentTree.constructor 3 = Ok s /\
    length (SegmentTree.tree s) = 12%nat /\
    exists vs s',
      run_calls [Update 0 2 1; Query 1 3; Update 1 3 (-1); Query 0 1] s = Ok (vs, s') /\
      length (SegmentTree.tree s') = 12%nat.
Proof.
  split; [lia|].
  destruct (SegmentTree.constructor 3) as [s|f] eqn:E.
  2:{ vm_compute in E. discriminate E. }
  exists s. split; [reflexivity|].
  destruct (C9_arrays_of_4n_suffice 3 s ltac:(lia) E) as (Ht & _ & Hrun & _).
  split; [exact Ht|].
  destruct (Hrun [Update 0 2 1; Query 1 3; Update 1 3 (-1); Query 0 1])
    as (vs & s' & E' & Ht' & _).
  { repeat constructor; cbn; lia. }
  exists vs, s'. split; [exact E'|exact Ht'].
Defined.

(** C10.  For a seat id below 0 or not below [numSeats], [getSeatStatus]
    returns ['available'] and touches nothing: the answer a free seat
    gets. *)
Theorem C10_invalid_seat_reads_available s seat :
  seat < 0 \/ SeatBookingSystem.numSeats s <= seat ->
  SeatBookingSystem.getSeatStatus seat s = Ok (SeatBookingSystem.Available, s).
Proof.
  intros H. unfold SeatBookingSystem.getSeatStatus, bind, SeatBookingSystem.get.
  replace (SeatBookingSystem.invalidSeat seat (SeatBookingSystem.numSeats s)) with true.
  - reflexivity.
  - symmetry. unfold SeatBookingSystem.invalidSeat. apply orb_true_iff. lia.
Qed.

Lemma C10_witness :
  (7 < 0 \/ SeatBookingSystem.numSeats fresh_ledger <= 7) /\
  SeatBookingSystem.getSeatStatus 7 fresh_ledger =
    Ok (SeatBookingSystem.Available, fresh_ledger) /\
  value_of (SeatBookingSystem.getSeatStatus 0 fresh_ledger) =
    Ok SeatBookingSystem.Available.
Proof.
  assert (H : 7 < 0 \/ SeatBookingSystem.numSeats fresh_ledger <= 7)
    by (right; vm_compute; discriminate).
  split; [exact H|]. split.
  - exact (C10_invalid_seat_reads_available fresh_ledger 7 H).
  - vm_compute. reflexivity.
Defined.

(** * Further properties of the two classes *)

(** ** A booking taken back *)

(** X19.  On every reachable ledger, when [book(seat, l, r)] succeeds the
    [cancel(seat, l, r)] that follows succeeds too, and afterwards every
    segment of the seat's tree and of the global tree shows the effective
    value it had before the booking, both as the walk of the visualisation
    computes it and as [query(i, i+1)] returns it. *)
Theorem X19_book_then_cancel_restores_leaves s seat l r res1 s1 :
  reachable s ->
  SeatBookingSystem.book seat l r s = Ok (res1, s1) ->
  SeatBookingSystem.success res1 = true ->
  exists res2 s2,
    SeatBookingSystem.cancel seat l r s1 = Ok (res2, s2) /\
    SeatBookingSystem.success res2 = true /\
    exists tr tr2,
      SeatBookingSystem.seats s !! Z.to_nat seat = Some tr /\
      SeatBookingSystem.seats s2 !! Z.to_nat seat = Some tr2 /\
      forall i, 0 <= i < SeatBookingSystem.numSegments s ->
        SegmentTree.effectiveLeaf tr2 i = SegmentTree.effectiveLeaf tr i /\
        pointQuery tr2 i = pointQuery tr i /\
        SegmentTree.effectiveLeaf (SeatBookingSystem.globalTree s2) i =
          SegmentTree.effectiveLeaf (SeatBookingSystem.globalTree s) i /\
        pointQuery (SeatBookingSystem.globalTree s2) i =
          pointQuery (SeatBookingSystem.globalTree s) i /\
        is_Some (pointQuery tr i) /\
        is_Some (pointQuery (SeatBookingSystem.globalTree s) i).
Proof.
  intros Hreach Hbook Hsucc. pose proof (reachable_wf s Hreach) as Hwf.
  apply book_run in Hbook.
  pose proof (book_outcome_wf _ _ _ _ _ _ Hwf Hbook) as Hwf1.
  destruct Hbook as [Hseat|Hseat Hrange|tr v tr1 Hseat Hrange Htr Hq Hv
                     |tr v tr1 tr2 g2 Hseat Hrange Htr Hq Hv Hu Hg];
    try discriminate Hsucc.
  match type of Hwf1 with wf_sys ?x => set (s1 := x) in * end.
  pose proof (proj1 (invalidRange_false _ _ _) Hrange) as (Hl & _).
  destruct (wf_sys_seat _ _ _ Hwf Htr) as [Hwt Hnt].
  pose proof Hwf as (_ & _ & _ & Hwg & Hng & _).
  (* what the booking did to the leaves *)
  destruct (query_spec l r tr Hwt Hl) as (v' & tr1' & Eq & [Hsh1 Hleaf1] & _).
  rewrite Hq in Eq. injection Eq as <- <-.
  pose proof (shape_wf _ _ Hsh1 Hwt) as Hwt1.
  destruct (update_spec l r 1 tr1 Hwt1 Hl) as (tr2' & Eu & Hsh2 & Hleaf2).
  rewrite Hu in Eu. injection Eu as <-.
  pose proof (shape_wf _ _ Hsh2 Hwt1) as Hwt2.
  destruct (update_spec l r 1 _ Hwg Hl) as (g2' & Eg & Hshg2 & Hgleaf2).
  rewrite Hg in Eg. injection Eg as <-.
  pose proof (shape_wf _ _ Hshg2 Hwg) as Hwg2.
  (* the cancellation *)
  assert (Hm : exact_match s1 seat l r).
  { eexists. split; [apply elem_of_app; right; apply list_elem_of_singleton; reflexivity|].
    cbn. auto. }
  apply exact_match_find in Hm as (i0 & b0 & Hfind).
  assert (Htr2 : SeatBookingSystem.seats s1 !! Z.to_nat seat = Some tr2).
  { cbn. apply list_lookup_insert_eq. rewrite length_insert.
    now apply lookup_lt_Some in Htr. }
  destruct (update_spec l r (-1) tr2 Hwt2 Hl) as (tr3 & Eu3 & Hsh3 & Hleaf3).
  destruct (update_spec l r (-1) g2 Hwg2 Hl) as (g3 & Eg3 & Hshg3 & Hgleaf3).
  eexists _, _. split.
  { apply cancel_complete.
    eapply (cancel_success s1 seat l r i0 b0 tr2 tr3 g3); eauto. }
  split; [reflexivity|].
  exists tr, tr3. split; [exact Htr|]. split.
  { cbn. apply list_lookup_insert_eq. rewrite !length_insert.
    now apply lookup_lt_Some in Htr. }
  intros i Hi.
  pose proof (shape_wf _ _ Hsh3 Hwt2) as Hwt3.
  pose proof (shape_wf _ _ Hshg3 Hwg2) as Hwg3.
  destruct Hsh1 as (En1 & _). destruct Hsh2 as (En2 & _). destruct Hsh3 as (En3 & _).
  destruct Hshg2 as (Eng2 & _). destruct Hshg3 as (Eng3 & _).
  assert (Hleaf : SegmentTree.effectiveLeaf tr3 i = SegmentTree.effectiveLeaf tr i).
  { rewrite Hleaf3, Hleaf2, Hleaf1 by lia. destruct (covers l r i); lia. }
  assert (Hgleaf : SegmentTree.effectiveLeaf g3 i =
                   SegmentTree.effectiveLeaf (SeatBookingSystem.globalTree s) i).
  { rewrite Hgleaf3, Hgleaf2 by lia. destruct (covers l r i); lia. }
  cbn [SeatBookingSystem.globalTree withBookings withGlobalTree].
  rewrite (pointQuery_spec tr3), (pointQuery_spec tr),
    (pointQuery_spec g3), (pointQuery_spec (SeatBookingSystem.globalTree s))
    by (auto; lia).
  rewrite Hleaf, Hgleaf.
  replace (SegmentTree.n tr3) with (SegmentTree.n tr) by congruence.
  replace (SegmentTree.n g3) with (SegmentTree.n (SeatBookingSystem.globalTree s))
    by congruence.
  repeat split; eauto.
Qed.

Lemma X19_witness :
  reachable fresh_ledger /\
  SeatBookingSystem.book 0 0 5 fresh_ledger =
    Ok (SeatBookingSystem.mkResult true (SeatBookingSystem.SeatBooked 1 1 6) (Some 1),
        ledger_booked_0_5) /\
  exists res2 s2 tr2,
    SeatBookingSystem.cancel 0 0 5 ledger_booked_0_5 = Ok (res2, s2) /\
    SeatBookingSystem.success res2 = true /\
    SeatBookingSystem.seats s2 !! 0%nat = Some tr2 /\
    forall i, 0 <= i < 9 -> SegmentTree.effectiveLeaf tr2 i = 0.
Proof.
  split; [exact fresh_ledger_reachable|]. split; [exact ledger_booked_0_5_run|].
  destruct (X19_book_then_cancel_restores_leaves fresh_ledger 0 0 5 _ _
              fresh_ledger_reachable ledger_booked_0_5_run eq_refl)
    as (res2 & s2 & E & Hs & tr & tr2 & Htr & Htr2 & Hleaves).
  exists res2, s2, tr2. split; [exact E|]. split; [exact Hs|]. split; [exact Htr2|].
  intros i Hi. destruct (Hleaves i Hi) as (-> & _).
  injection Htr as <-.
  assert (i = 0 \/ i = 1 \/ i = 2 \/ i = 3 \/ i = 4 \/ i = 5 \/ i = 6 \/ i = 7 \/ i = 8)
    as Hcases by lia.
  repeat (destruct Hcases as [->|Hcases]; [vm_compute; reflexivity|]).
  subst i. vm_compute. reflexivity.
Defined.

(** ** The tree *)

(** A query run again on a state that agrees, below the node, with the
    state the first run left, returns the same value and changes nothing. *)
Lemma query_rec_again fuel : forall l r node start end_ P s v s',
  wf s -> fits s node start end_ P -> start < end_ ->
  (Z.to_nat (end_ - start) < fuel)%nat ->
  SegmentTree.query_rec fuel l r node start end_ s = Ok (v, s') ->
  forall t, shape s t -> (forall j, desc node j -> same_at s' t j) ->
            SegmentTree.query_rec fuel l r node start end_ t = Ok (v, t).
Proof.
  induction fuel as [|fuel IH];
    intros l r node start end_ P s v s' Hwf Hfit Hlt Hfuel Hrun t Hsh Hagree; [lia|].
  cbn [SegmentTree.query_rec] in *.
  destruct (fits_node_bound _ _ _ _ _ Hwf Hfit) as [Hbt Hbz].
  pose proof Hsh as (Ent & Ett & Etz).
  destruct ((r <=? start) || (end_ <=? l)) eqn:Hout.
  { injection Hrun as <- <-. reflexivity. }
  destruct ((l <=? start) && (end_ <=? r)) eqn:Hin.
  { rewrite getTree_ok in Hrun by lia. injection Hrun as <- <-.
    rewrite getTree_ok by lia.
    destruct (Hagree node (desc_self _)) as [-> _]. reflexivity. }
  pose proof (partial_width _ _ _ _ Hout Hin) as Hw.
  pose proof (mid_bounds start end_ Hw) as Hm.
  pose proof (fits_children_bound _ _ _ _ _ Hwf Hfit Hw) as Hbc.
  pose proof Hwf as (Hn & Hlt_ & Hlz).
  destruct (pushDown_spec node s Hbc ltac:(congruence))
    as (s1 & E1 & Hsh1 & Hz1 & Ht1 & HtL & HzL & HtR & HzR & Hrest1).
  assert (Hwf1 : wf s1) by (eapply shape_wf; eauto).
  pose proof (fits_left _ _ _ _ _ _ Hsh1 Hfit Hw) as HfitL.
  destruct (query_rec_spec fuel l r (2 * node + 1)%nat start ((start + end_) / 2)
              (2 * P) s1 Hwf1 HfitL ltac:(lia) ltac:(lia))
    as (vL & s2 & E2 & Hsh2 & Hout2 & _).
  assert (Hsh12 : shape s s2) by (eapply shape_trans; eauto).
  assert (Hwf2 : wf s2) by (eapply shape_wf; [exact Hsh2|auto]).
  pose proof (fits_right _ _ _ _ _ _ Hsh12 Hfit Hw) as HfitR.
  destruct (query_rec_spec fuel l r (2 * node + 2)%nat ((start + end_) / 2) end_
              (2 * P) s2 Hwf2 HfitR ltac:(lia) ltac:(lia))
    as (vR & s3 & E3 & Hsh3 & Hout3 & _).
  rewrite (bind_Ok _ _ _ _ _ E1), (bind_Ok _ _ _ _ _ E2), (bind_Ok _ _ _ _ _ E3) in Hrun.
  injection Hrun as <- <-.
  (* the second run: nothing is left to push *)
  assert (Hzt : SegmentTree.lazy t !!! node = 0).
  { destruct (Hagree node (desc_self _)) as [_ ->].
    destruct (Hout3 node (not_desc_right_self _)) as [_ ->].
    destruct (Hout2 node (not_desc_left_self _)) as [_ ->]. exact Hz1. }
  assert (Epush : SegmentTree.pushDown node t = Ok (tt, t)).
  { unfold SegmentTree.pushDown. erewrite bind_Ok by (apply getLazy_ok; lia).
    rewrite Hzt. reflexivity. }
  rewrite (bind_Ok _ _ _ _ _ Epush).
  assert (Hsh1t : shape s1 t).
  { destruct Hsh1 as (A & B & C). unfold shape. repeat split; congruence. }
  assert (Hsh2t : shape s2 t).
  { destruct Hsh2 as (A & B & C), Hsh1t as (A' & B' & C').
    unfold shape. repeat split; congruence. }
  rewrite (bind_Ok _ _ _ _ _
             (IH l r _ _ _ (2 * P) s1 vL s2 Hwf1 HfitL ltac:(lia) ltac:(lia) E2 t Hsh1t
                ltac:(intros j Hj; eapply same_at_trans;
                        [apply Hout3; intros Hd; eapply desc_siblings; eauto
                        |apply Hagree; now apply desc_of_left]))).
  rewrite (bind_Ok _ _ _ _ _
             (IH l r _ _ _ (2 * P) s2 vR s3 Hwf2 HfitR ltac:(lia) ltac:(lia) E3 t Hsh2t
                ltac:(intros j Hj; apply Hagree; now apply desc_of_right))).
  reflexivity.
Qed.

(** The same for the public call. *)
Lemma query_again l r s v s' :
  wf s -> 0 <= l ->
  SegmentTree.query l r s = Ok (v, s') -> SegmentTree.query l r s' = Ok (v, s').
Proof.
  intros Hwf Hl Hrun.
  destruct (query_spec l r s Hwf Hl) as (v0 & s0 & E & [Hsh _] & Hzero & _).
  rewrite Hrun in E. injection E as <- <-.
  destruct (Z.eq_dec (SegmentTree.n s) 0) as [E0|Hn].
  - destruct (Hzero E0) as [_ ->]. exact Hrun.
  - unfold SegmentTree.query in *. pose proof Hsh as (-> & _).
    assert (Hn1 : 1 <= SegmentTree.n s) by (destruct Hwf; lia).
    eapply (query_rec_again _ l r 0 0 (SegmentTree.n s) 1 s v s'); eauto.
    + now apply fits_root.
    + lia.
    + rewrite Z.sub_0_r. lia.
    + intros j _. apply same_at_refl.
Qed.

(** ** How large the cells can get *)

Lemma within_budget_ext f : forall s1 s2 node start end_ q B,
  (forall j, desc node j -> same_at s1 s2 j) ->
  within_budget f s1 node start end_ q B -> within_budget f s2 node start end_ q B.
Proof.
  induction f as [|f IH]; intros s1 s2 node start end_ q B Hsame H; [exact I|].
  cbn [within_budget] in *. destruct H as (Ht & Hz & Hc).
  destruct (Hsame node (desc_self _)) as [-> ->].
  split; [exact Ht|]. split; [exact Hz|]. intros Hw. destruct (Hc Hw) as [HL HR].
  split; (eapply IH; [|eassumption]); intros j Hj; apply Hsame.
  - now apply desc_of_left.
  - now apply desc_of_right.
Qed.

Lemma within_budget_mono f : forall s node start end_ q q' B B',
  start < end_ -> q' <= q -> B <= B' ->
  within_budget f s node start end_ q B -> within_budget f s node start end_ q' B'.
Proof.
  induction f as [|f IH]; intros s node start end_ q q' B B' Hlt Hq HB H; [exact I|].
  cbn [within_budget] in *. destruct H as (Ht & Hz & Hc).
  split; [nia|]. split; [lia|]. intros Hw. destruct (Hc Hw) as [HL HR].
  pose proof (mid_bounds start end_ Hw) as Hm.
  split; (eapply IH; [| | |eassumption]); lia.
Qed.

Lemma within_budget_shift f : forall s node start end_ q B d,
  start < end_ -> 0 <= d ->
  within_budget f s node start end_ q B ->
  within_budget f s node start end_ (q + d) (B + d).
Proof.
  induction f as [|f IH]; intros s node start end_ q B d Hlt Hd H; [exact I|].
  cbn [within_budget] in *. destruct H as (Ht & Hz & Hc).
  split; [nia|]. split; [lia|]. intros Hw. destruct (Hc Hw) as [HL HR].
  pose proof (mid_bounds start end_ Hw) as Hm.
  replace (q + d + Z.abs (SegmentTree.lazy s !!! node))
    with (q + Z.abs (SegmentTree.lazy s !!! node) + d) by lia.
  split; apply IH; auto; lia.
Qed.

(** A node that receives the lazy value [z] of its parent, the parent's
    lazy value being cleared. *)
Lemma within_budget_absorb f s s' node start end_ q B z :
  start < end_ ->
  SegmentTree.tree s' !!! node = SegmentTree.tree s !!! node + z ->
  SegmentTree.lazy s' !!! node = SegmentTree.lazy s !!! node + z ->
  (forall j, desc node j -> j <> node -> same_at s s' j) ->
  within_budget f s node start end_ (q + Z.abs z) B ->
  within_budget f s' node start end_ q B.
Proof.
  intros Hlt Ht Hz Hrest H. destruct f as [|f]; [exact I|].
  cbn [within_budget] in *. destruct H as (Hbt & Hbz & Hc). rewrite Ht, Hz.
  split; [lia|]. split; [lia|]. intros Hw. destruct (Hc Hw) as [HL HR].
  pose proof (mid_bounds start end_ Hw) as Hm.
  split.
  - apply (within_budget_mono f s' _ _ _
             (q + Z.abs z + Z.abs (SegmentTree.lazy s !!! node)) _ B); try lia.
    apply (within_budget_ext f s s'); [|exact HL].
    intros j Hj. apply Hrest; [now apply desc_of_left|]. apply desc_ge in Hj. lia.
  - apply (within_budget_mono f s' _ _ _
             (q + Z.abs z + Z.abs (SegmentTree.lazy s !!! node)) _ B); try lia.
    apply (within_budget_ext f s s'); [|exact HR].
    intros j Hj. apply Hrest; [now apply desc_of_right|]. apply desc_ge in Hj. lia.
Qed.

(** A node covered by an update: both of its cells receive [val]. *)
Lemma within_budget_bump f s s' node start end_ q B val :
  start < end_ ->
  SegmentTree.tree s' !!! node = SegmentTree.tree s !!! node + val ->
  SegmentTree.lazy s' !!! node = SegmentTree.lazy s !!! node + val ->
  (forall j, desc node j -> j <> node -> same_at s s' j) ->
  within_budget f s node start end_ q B ->
  within_budget f s' node start end_ q (B + Z.abs val).
Proof.
  intros Hlt Ht Hz Hrest H. destruct f as [|f]; [exact I|].
  cbn [within_budget] in *. destruct H as (Hbt & Hbz & Hc). rewrite Ht, Hz.
  split; [nia|]. split; [lia|]. intros Hw. destruct (Hc Hw) as [HL HR].
  pose proof (mid_bounds start end_ Hw) as Hm.
  split.
  - apply (within_budget_mono f s' _ _ _
             (q + Z.abs (SegmentTree.lazy s !!! node) + Z.abs val) _ (B + Z.abs val));
      try lia.
    apply within_budget_shift; [lia|lia|].
    apply (within_budget_ext f s s'); [|exact HL].
    intros j Hj. apply Hrest; [now apply desc_of_left|]. apply desc_ge in Hj. lia.
  - apply (within_budget_mono f s' _ _ _
             (q + Z.abs (SegmentTree.lazy s !!! node) + Z.abs val) _ (B + Z.abs val));
      try lia.
    apply within_budget_shift; [lia|lia|].
    apply (within_budget_ext f s s'); [|exact HR].
    intros j Hj. apply Hrest; [now apply desc_of_right|]. apply desc_ge in Hj. lia.
Qed.

(** After [pushDown(node)] the two children stand with nothing above them
    at [node]. *)
Lemma within_budget_pushed f s s1 node start end_ q B :
  2 <= end_ - start ->
  SegmentTree.lazy s1 !!! node = 0 ->
  SegmentTree.tree s1 !!! node = SegmentTree.tree s !!! node ->
  SegmentTree.tree s1 !!! (2 * node + 1)%nat =
    SegmentTree.tree s !!! (2 * node + 1)%nat + SegmentTree.lazy s !!! node ->
  SegmentTree.lazy s1 !!! (2 * node + 1)%nat =
    SegmentTree.lazy s !!! (2 * node + 1)%nat + SegmentTree.lazy s !!! node ->
  SegmentTree.tree s1 !!! (2 * node + 2)%nat =
    SegmentTree.tree s !!! (2 * node + 2)%nat + SegmentTree.lazy s !!! node ->
  SegmentTree.lazy s1 !!! (2 * node + 2)%nat =
    SegmentTree.lazy s !!! (2 * node + 2)%nat + SegmentTree.lazy s !!! node ->
  (forall j, j <> node -> j <> (2 * node + 1)%nat -> j <> (2 * node + 2)%nat ->
             same_at s s1 j) ->
  within_budget (S f) s node start end_ q B ->
  within_budget f s1 (2 * node + 1) start ((start + end_) / 2) q B /\
  within_budget f s1 (2 * node + 2) ((start + end_) / 2) end_ q B.
Proof.
  intros Hw Hz1 Ht1 HtL HzL HtR HzR Hrest H.
  cbn [within_budget] in H. destruct H as (Hbt & Hbz & Hc).
  destruct (Hc Hw) as [HL HR].
  pose proof (mid_bounds start end_ Hw) as Hm.
  split.
  - apply (within_budget_absorb f s s1 _ _ _ q B (SegmentTree.lazy s !!! node));
      auto; [lia|].
    intros j Hj Hne. apply Hrest; auto.
    + apply desc_ge in Hj. lia.
    + intros ->. exact (not_desc_left_right _ Hj).
  - apply (within_budget_absorb f s s1 _ _ _ q B (SegmentTree.lazy s !!! node));
      auto; [lia|].
    intros j Hj Hne. apply Hrest; auto.
    + apply desc_ge in Hj. lia.
    + intros ->. exact (not_desc_right_left _ Hj).
Qed.

(** A node put together from its two children when its own lazy value is
    0: the cases "tree cell as before" (after a query) and "tree cell
    recomputed from the children" (after an update). *)
Lemma within_budget_join f s3 s4 node start end_ q B :
  2 <= end_ - start -> 0 <= q -> (1 <= f)%nat ->
  SegmentTree.lazy s4 !!! node = 0 ->
  (forall j, j <> node -> same_at s3 s4 j) ->
  (SegmentTree.tree s4 !!! node =
     Z.max (SegmentTree.tree s3 !!! (2 * node + 1)%nat
            + SegmentTree.lazy s3 !!! (2 * node + 1)%nat)
           (SegmentTree.tree s3 !!! (2 * node + 2)%nat
            + SegmentTree.lazy s3 !!! (2 * node + 2)%nat) \/
   Z.abs (SegmentTree.tree s4 !!! node) + q <= (2 * (end_ - start) - 1) * B) ->
  within_budget f s3 (2 * node + 1) start ((start + end_) / 2) q B ->
  within_budget f s3 (2 * node + 2) ((start + end_) / 2) end_ q B ->
  within_budget (S f) s4 node start end_ q B.
Proof.
  intros Hw Hq Hf Hz4 Hrest Ht4 HL HR.
  pose proof (mid_bounds start end_ Hw) as Hm.
  assert (HL4 : within_budget f s4 (2 * node + 1) start ((start + end_) / 2) q B).
  { apply (within_budget_ext f s3 s4); [|exact HL].
    intros j Hj. apply Hrest. apply desc_ge in Hj. lia. }
  assert (HR4 : within_budget f s4 (2 * node + 2) ((start + end_) / 2) end_ q B).
  { apply (within_budget_ext f s3 s4); [|exact HR].
    intros j Hj. apply Hrest. apply desc_ge in Hj. lia. }
  destruct f as [|f]; [lia|].
  pose proof HL as HL'. pose proof HR as HR'.
  cbn [within_budget] in HL', HR'.
  destruct HL' as (HLt & HLz & _). destruct HR' as (HRt & HRz & _).
  change (within_budget (S (S f)) s4 node start end_ q B)
    with (Z.abs (SegmentTree.tree s4 !!! node) + q <= (2 * (end_ - start) - 1) * B /\
          Z.abs (SegmentTree.lazy s4 !!! node) + q <= B /\
          (2 <= end_ - start ->
           within_budget (S f) s4 (2 * node + 1) start ((start + end_) / 2)
             (q + Z.abs (SegmentTree.lazy s4 !!! node)) B /\
           within_budget (S f) s4 (2 * node + 2) ((start + end_) / 2) end_
             (q + Z.abs (SegmentTree.lazy s4 !!! node)) B)).
  rewrite Hz4. cbn [Z.abs]. rewrite Z.add_0_r.
  split; [|split; [lia|intros _; split; assumption]].
  destruct Ht4 as [->|Ht4]; [|exact Ht4].
  assert (HB : 0 <= B) by lia.
  assert ((2 * ((start + end_) / 2 - start) - 1) * B <= (2 * (end_ - start) - 3) * B)
    by (apply Z.mul_le_mono_nonneg_r; lia).
  assert ((2 * (end_ - (start + end_) / 2) - 1) * B <= (2 * (end_ - start) - 3) * B)
    by (apply Z.mul_le_mono_nonneg_r; lia).
  lia.
Qed.

Lemma update_rec_budget fuel : forall l r val node start end_ P s s' f q B,
  wf s -> fits s node start end_ P -> start < end_ ->
  (Z.to_nat (end_ - start) < fuel)%nat ->
  SegmentTree.update_rec fuel l r val node start end_ s = Ok (tt, s') ->
  (Z.to_nat (end_ - start) <= f)%nat -> 0 <= q ->
  within_budget f s node start end_ q B ->
  within_budget f s' node start end_ q (B + Z.abs val).
Proof.
  induction fuel as [|fuel IH];
    intros l r val node start end_ P s s' f q B Hwf Hfit Hlt Hfuel Hrun Hf Hq Hwb; [lia|].
  revert Hrun. cbn [SegmentTree.update_rec].
  destruct (fits_node_bound _ _ _ _ _ Hwf Hfit) as [Hbt Hbz].
  destruct ((r <=? start) || (end_ <=? l)) eqn:Hout.
  { intros [= <-]. apply (within_budget_mono f s _ _ _ q _ B); auto; lia. }
  destruct ((l <=? start) && (end_ <=? r)) eqn:Hin.
  { rewrite !bind_assoc. repeat (step; rewrite ?bind_assoc).
    intros [= <-]. apply (within_budget_bump f s); auto; cbn.
    - now rewrite list_lookup_total_insert_eq by lia.
    - now rewrite list_lookup_total_insert_eq by lia.
    - intros j _ Hne. unfold same_at; cbn.
      now rewrite !list_lookup_total_insert_ne by auto. }
  pose proof (partial_width _ _ _ _ Hout Hin) as Hw.
  pose proof (mid_bounds start end_ Hw) as Hm.
  pose proof (fits_children_bound _ _ _ _ _ Hwf Hfit Hw) as Hbc.
  pose proof Hwf as (Hn & Hlt_ & Hlz).
  destruct (pushDown_spec node s Hbc ltac:(congruence))
    as (s1 & E1 & Hsh1 & Hz1 & Ht1 & HtL & HzL & HtR & HzR & Hrest1).
  assert (Hwf1 : wf s1) by (eapply shape_wf; eauto).
  pose proof (fits_left _ _ _ _ _ _ Hsh1 Hfit Hw) as HfitL.
  destruct (update_rec_spec fuel l r val (2 * node + 1)%nat start ((start + end_) / 2)
              (2 * P) s1 Hwf1 HfitL ltac:(lia) ltac:(lia))
    as (s2 & E2 & Hsh2 & Hout2 & _).
  assert (Hsh12 : shape s s2) by (eapply shape_trans; eauto).
  assert (Hwf2 : wf s2) by (eapply shape_wf; [exact Hsh2|auto]).
  pose proof (fits_right _ _ _ _ _ _ Hsh12 Hfit Hw) as HfitR.
  destruct (update_rec_spec fuel l r val (2 * node + 2)%nat ((start + end_) / 2) end_
              (2 * P) s2 Hwf2 HfitR ltac:(lia) ltac:(lia))
    as (s3 & E3 & Hsh3 & Hout3 & _).
  assert (Hsh13 : shape s s3) by (eapply shape_trans; eauto).
  destruct Hsh13 as (En3 & Elt3 & Elz3).
  rewrite (bind_Ok _ _ _ _ _ E1), (bind_Ok _ _ _ _ _ E2), (bind_Ok _ _ _ _ _ E3).
  repeat step. intros [= <-].
  assert (Hnode3 : SegmentTree.lazy s3 !!! node = 0).
  { destruct (Hout3 node (not_desc_right_self _)) as [_ ->].
    destruct (Hout2 node (not_desc_left_self _)) as [_ ->]. exact Hz1. }
  destruct f as [|f]; [lia|].
  destruct (within_budget_pushed f s s1 node start end_ q B Hw Hz1 Ht1 HtL HzL HtR HzR
              Hrest1 Hwb) as [HL1 HR1].
  (* the left child, then the right one *)
  pose proof (IH l r val _ _ _ (2 * P) s1 s2 f q B Hwf1 HfitL ltac:(lia) ltac:(lia) E2
                ltac:(lia) Hq HL1) as HL2.
  assert (HR2 : within_budget f s2 (2 * node + 2) ((start + end_) / 2) end_ q B).
  { apply (within_budget_ext f s1 s2); [|exact HR1].
    intros j Hj. apply Hout2. intros Hd. eapply desc_siblings; eauto. }
  pose proof (IH l r val _ _ _ (2 * P) s2 s3 f q B Hwf2 HfitR ltac:(lia) ltac:(lia) E3
                ltac:(lia) Hq HR2) as HR3.
  assert (HL3 : within_budget f s3 (2 * node + 1) start ((start + end_) / 2) q
                  (B + Z.abs val)).
  { apply (within_budget_ext f s2 s3); [|exact HL2].
    intros j Hj. apply Hout3. intros Hd. eapply desc_siblings; eauto. }
  apply (within_budget_join f s3); auto; try lia.
  - intros j Hne. unfold same_at; cbn. now rewrite list_lookup_total_insert_ne by auto.
  - left. cbn. now rewrite list_lookup_total_insert_eq by lia.
Qed.

Lemma query_rec_budget fuel : forall l r node start end_ P s v s' f q B,
  wf s -> fits s node start end_ P -> start < end_ ->
  (Z.to_nat (end_ - start) < fuel)%nat ->
  SegmentTree.query_rec fuel l r node start end_ s = Ok (v, s') ->
  (Z.to_nat (end_ - start) <= f)%nat -> 0 <= q ->
  within_budget f s node start end_ q B ->
  within_budget f s' node start end_ q B.
Proof.
  induction fuel as [|fuel IH];
    intros l r node start end_ P s v s' f q B Hwf Hfit Hlt Hfuel Hrun Hf Hq Hwb; [lia|].
  revert Hrun. cbn [SegmentTree.query_rec].
  destruct (fits_node_bound _ _ _ _ _ Hwf Hfit) as [Hbt Hbz].
  destruct ((r <=? start) || (end_ <=? l)) eqn:Hout.
  { intros [= <- <-]. exact Hwb. }
  destruct ((l <=? start) && (end_ <=? r)) eqn:Hin.
  { rewrite getTree_ok by lia. intros [= <- <-]. exact Hwb. }
  pose proof (partial_width _ _ _ _ Hout Hin) as Hw.
  pose proof (mid_bounds start end_ Hw) as Hm.
  pose proof (fits_children_bound _ _ _ _ _ Hwf Hfit Hw) as Hbc.
  pose proof Hwf as (Hn & Hlt_ & Hlz).
  destruct (pushDown_spec node s Hbc ltac:(congruence))
    as (s1 & E1 & Hsh1 & Hz1 & Ht1 & HtL & HzL & HtR & HzR & Hrest1).
  assert (Hwf1 : wf s1) by (eapply shape_wf; eauto).
  pose proof (fits_left _ _ _ _ _ _ Hsh1 Hfit Hw) as HfitL.
  destruct (query_rec_spec fuel l r (2 * node + 1)%nat start ((start + end_) / 2)
              (2 * P) s1 Hwf1 HfitL ltac:(lia) ltac:(lia))
    as (vL & s2 & E2 & Hsh2 & Hout2 & _).
  assert (Hsh12 : shape s s2) by (eapply shape_trans; eauto).
  assert (Hwf2 : wf s2) by (eapply shape_wf; [exact Hsh2|auto]).
  pose proof (fits_right _ _ _ _ _ _ Hsh12 Hfit Hw) as HfitR.
  destruct (query_rec_spec fuel l r (2 * node + 2)%nat ((start + end_) / 2) end_
              (2 * P) s2 Hwf2 HfitR ltac:(lia) ltac:(lia))
    as (vR & s3 & E3 & Hsh3 & Hout3 & _).
  rewrite (bind_Ok _ _ _ _ _ E1), (bind_Ok _ _ _ _ _ E2), (bind_Ok _ _ _ _ _ E3).
  unfold ret. intros [= <- <-].
  assert (Hnode3 : SegmentTree.lazy s3 !!! node = 0).
  { destruct (Hout3 node (not_desc_right_self _)) as [_ ->].
    destruct (Hout2 node (not_desc_left_self _)) as [_ ->]. exact Hz1. }
  assert (Htree3 : SegmentTree.tree s3 !!! node = SegmentTree.tree s !!! node).
  { destruct (Hout3 node (not_desc_right_self _)) as [-> _].
    destruct (Hout2 node (not_desc_left_self _)) as [-> _]. exact Ht1. }
  destruct f as [|f]; [lia|].
  destruct (within_budget_pushed f s s1 node start end_ q B Hw Hz1 Ht1 HtL HzL HtR HzR
              Hrest1 Hwb) as [HL1 HR1].
  pose proof (IH l r _ _ _ (2 * P) s1 vL s2 f q B Hwf1 HfitL ltac:(lia) ltac:(lia) E2
                ltac:(lia) Hq HL1) as HL2.
  assert (HR2 : within_budget f s2 (2 * node + 2) ((start + end_) / 2) end_ q B).
  { apply (within_budget_ext f s1 s2); [|exact HR1].
    intros j Hj. apply Hout2. intros Hd. eapply desc_siblings; eauto. }
  pose proof (IH l r _ _ _ (2 * P) s2 vR s3 f q B Hwf2 HfitR ltac:(lia) ltac:(lia) E3
                ltac:(lia) Hq HR2) as HR3.
  assert (HL3 : within_budget f s3 (2 * node + 1) start ((start + end_) / 2) q B).
  { apply (within_budget_ext f s2 s3); [|exact HL2].
    intros j Hj. apply Hout3. intros Hd. eapply desc_siblings; eauto. }
  apply (within_budget_join f s3); auto; try lia.
  - intros j _. apply same_at_refl.
  - right. rewrite Htree3. cbn [within_budget] in Hwb. lia.
Qed.

(** On arrays of zeros every budget is respected. *)
Lemma within_budget_zero f : forall s node start end_ P,
  wf s -> fits s node start end_ P -> start < end_ ->
  (forall j, (j < length (SegmentTree.tree s))%nat ->
             SegmentTree.tree s !!! j = 0 /\ SegmentTree.lazy s !!! j = 0) ->
  within_budget f s node start end_ 0 0.
Proof.
  induction f as [|f IH]; intros s node start end_ P Hwf Hfit Hlt Hzero; [exact I|].
  cbn [within_budget].
  destruct (fits_node_bound _ _ _ _ _ Hwf Hfit) as [Hb _].
  destruct (Hzero node Hb) as [-> ->]. cbn [Z.abs].
  split; [lia|]. split; [lia|]. intros Hw.
  pose proof (mid_bounds start end_ Hw) as Hm.
  split; apply (IH s _ _ _ (2 * P)); auto; try lia.
  - apply (fits_left s s); auto using shape_refl.
  - apply (fits_right s s); auto using shape_refl.
Qed.

Lemma run_calls_budget cs : forall s vs s' B,
  wf s -> Forall (call_in_range (SegmentTree.n s)) cs ->
  run_calls cs s = Ok (vs, s') ->
  within_budget (Z.to_nat (SegmentTree.n s)) s 0 0 (SegmentTree.n s) 0 B ->
  within_budget (Z.to_nat (SegmentTree.n s)) s' 0 0 (SegmentTree.n s) 0
    (B + spec_deltaBudget cs).
Proof.
  induction cs as [|c cs IH]; intros s vs s' B Hwf Hcs Hrun Hwb.
  - injection Hrun as _ <-. cbn. now rewrite Z.add_0_r.
  - inversion Hcs as [|? ? Hc Hrest]; subst.
    assert (Hn1 : 1 <= SegmentTree.n s) by (destruct c; cbn in Hc; lia).
    destruct c as [l r val|l r]; cbn in Hc; cbn [run_calls] in Hrun.
    + destruct (update_spec l r val s Hwf ltac:(lia)) as (s1 & E & Hsh & _).
      rewrite (bind_Ok _ _ _ _ _ E) in Hrun.
      pose proof Hsh as (En & _).
      assert (Hwb1 : within_budget (Z.to_nat (SegmentTree.n s)) s1 0 0 (SegmentTree.n s)
                       0 (B + Z.abs val)).
      { unfold SegmentTree.update in E.
        apply (update_rec_budget (S (Z.to_nat (SegmentTree.n s))) l r val 0%nat 0
                 (SegmentTree.n s) 1 s s1); auto;
          try lia.
        now apply fits_root. }
      rewrite <- En in Hwb1, Hrest.
      pose proof (IH s1 vs s' _ (shape_wf _ _ Hsh Hwf) Hrest Hrun Hwb1) as H.
      rewrite En in H. cbn [spec_deltaBudget foldr].
      fold (spec_deltaBudget cs). now rewrite Z.add_assoc.
    + destruct (query_spec l r s Hwf ltac:(lia)) as (v & s1 & E & [Hsh _] & _).
      rewrite (bind_Ok _ _ _ _ _ E) in Hrun.
      pose proof Hsh as (En & _).
      assert (Hwb1 : within_budget (Z.to_nat (SegmentTree.n s)) s1 0 0 (SegmentTree.n s)
                       0 B).
      { unfold SegmentTree.query in E.
        apply (query_rec_budget (S (Z.to_nat (SegmentTree.n s))) l r 0%nat 0
                 (SegmentTree.n s) 1 s v s1); auto; try lia.
        now apply fits_root. }
      rewrite <- En in Hwb1, Hrest.
      unfold bind in Hrun.
      destruct (run_calls cs s1) as [[vs' s2]|f] eqn:Hrun'; [|discriminate].
      injection Hrun as _ <-.
      pose proof (IH s1 vs' s2 _ (shape_wf _ _ Hsh Hwf) Hrest Hrun' Hwb1) as H.
      rewrite En in H. exact H.
Qed.

(** What the budget says of a single node. *)
Lemma within_budget_node n s B k a b :
  is_node n k a b ->
  within_budget (Z.to_nat n) s 0 0 n 0 B ->
  Z.abs (SegmentTree.tree s !!! k) <= (2 * n - 1) * B /\
  Z.abs (SegmentTree.lazy s !!! k) <= B.
Proof.
  intros Hnode Hwb.
  assert (H : exists f q, 0 <= q /\ 0 <= a /\ a < b /\ b <= n /\
                          (Z.to_nat (b - a) <= f)%nat /\ within_budget f s k a b q B).
  { induction Hnode as [Hn|k a b _ IH Hw|k a b _ IH Hw].
    - exists (Z.to_nat n), 0. repeat split; try lia. exact Hwb.
    - destruct IH as (f & q & Hq & Ha & Hab & Hb & Hf & H).
      destruct f as [|f]; [lia|]. cbn [within_budget] in H.
      destruct H as (_ & _ & Hc). destruct (Hc Hw) as [HL _].
      pose proof (mid_bounds a b Hw).
      exists f, (q + Z.abs (SegmentTree.lazy s !!! k)). repeat split; try lia. exact HL.
    - destruct IH as (f & q & Hq & Ha & Hab & Hb & Hf & H).
      destruct f as [|f]; [lia|]. cbn [within_budget] in H.
      destruct H as (_ & _ & Hc). destruct (Hc Hw) as [_ HR].
      pose proof (mid_bounds a b Hw).
      exists f, (q + Z.abs (SegmentTree.lazy s !!! k)). repeat split; try lia. exact HR. }
  destruct H as (f & q & Hq & Ha & Hab & Hb & Hf & H).
  destruct f as [|f]; [lia|]. cbn [within_budget] in H. destruct H as (Ht & Hz & _).
  assert (HB : 0 <= B) by lia.
  assert ((2 * (b - a) - 1) * B <= (2 * n - 1) * B)
    by (apply Z.mul_le_mono_nonneg_r; lia).
  lia.
Qed.

(** After in-range calls on a new tree no cell exceeds what the deltas
    allow. *)
Lemma run_calls_cells_within n s0 cs vs s M :
  SegmentTree.constructor n = Ok s0 -> Forall (call_in_range n) cs ->
  run_calls cs s0 = Ok (vs, s) ->
  2 * n * spec_deltaBudget cs <= M ->
  cells_within s M.
Proof.
  intros Hnew Hcs Hrun HM. destruct (constructor_wf n s0 Hnew) as [Hwf En].
  rewrite <- En in Hcs.
  destruct (run_calls_ok cs s0 Hwf Hcs) as (vs' & s' & E & Hsh).
  rewrite Hrun in E. injection E as <- <-. destruct Hsh as (En' & _).
  intros k a b Hnode. rewrite En', En in Hnode.
  assert (Hn1 : 1 <= n) by (clear -Hnode; induction Hnode; lia).
  assert (Hzero : within_budget (Z.to_nat (SegmentTree.n s0)) s0 0 0 (SegmentTree.n s0)
                    0 0).
  { apply (within_budget_zero _ s0 0%nat 0 _ 1); auto; [apply fits_root; auto; lia|lia|].
    revert Hnew. unfold SegmentTree.constructor, SegmentTree.newArray.
    destruct ((0 <=? 4 * n) && (4 * n <? 2 ^ 32)); [|discriminate].
    intros [= <-]. cbn. intros j Hj. rewrite length_replicate in Hj.
    now rewrite !lookup_total_replicate_2 by exact Hj. }
  pose proof (run_calls_budget cs s0 vs s 0 Hwf Hcs Hrun Hzero) as Hwb.
  rewrite En, Z.add_0_l in Hwb.
  destruct (within_budget_node n s _ k a b Hnode Hwb) as [Ht Hz].
  assert (HB : 0 <= spec_deltaBudget cs) by lia.
  assert ((2 * n - 1) * spec_deltaBudget cs <= 2 * n * spec_deltaBudget cs)
    by (apply Z.mul_le_mono_nonneg_r; lia).
  assert (spec_deltaBudget cs <= 2 * n * spec_deltaBudget cs) by nia.
  lia.
Qed.

(** X1.  After any sequence of in-range [update] and [query] calls on a new
    tree of [n] segments, with deltas whose magnitudes sum to at most
    [2^52 / (2 * n)], the effective value of every segment is the sum of the
    deltas of the updates covering it, and [query(i, i+1)] returns that sum,
    except that for [n >= 2] a negative sum is reported as 0 (the value the
    no-overlap branch contributes to the maximum).  Under that bound every
    cell of the tree stays within [2^52] in magnitude, so that a sum of two
    cells, or of a cell and a delta, is an integer within [2^53], where the
    doubles of the source are exact. *)
Theorem X1_segments_hold_the_delta_sums n s cs :
  SegmentTree.constructor n = Ok s -> Forall (call_in_range n) cs ->
  2 * n * spec_deltaBudget cs <= 2 ^ 52 ->
  exists vs s',
    run_calls cs s = Ok (vs, s') /\
    cells_within s' (2 ^ 52) /\
    forall i, 0 <= i < n ->
      SegmentTree.effectiveLeaf s' i = spec_deltaSum cs i /\
      pointQuery s' i =
        Some (if n =? 1 then spec_deltaSum cs i else Z.max 0 (spec_deltaSum cs i)).
Proof.
  intros Hnew Hcs Hbound. destruct (constructor_wf n s Hnew) as [Hwf En].
  pose proof Hcs as Hcs'. rewrite <- En in Hcs'.
  destruct (run_calls_leaves cs s Hwf Hcs') as (vs & s' & E & Hsh & Hleaf).
  exists vs, s'. split; [exact E|].
  split; [exact (run_calls_cells_within n s cs vs s' _ Hnew Hcs E Hbound)|].
  intros i Hi.
  assert (Hl : SegmentTree.effectiveLeaf s' i = spec_deltaSum cs i).
  { rewrite Hleaf by lia. rewrite (effectiveLeaf_new n s i Hnew Hi). lia. }
  split; [exact Hl|].
  pose proof Hsh as (En' & _).
  rewrite (pointQuery_spec s' i (shape_wf _ _ Hsh Hwf)) by lia.
  now rewrite Hl, En', En.
Qed.

Lemma X1_witness :
  exists s vs s',
    SegmentTree.constructor 3 = Ok s /\
    run_calls [Update 0 2 (-1); Query 0 3; Update 1 3 2] s = Ok (vs, s') /\
    SegmentTree.effectiveLeaf s' 0 = -1 /\ pointQuery s' 0 = Some 0 /\
    SegmentTree.effectiveLeaf s' 1 = 1 /\ pointQuery s' 1 = Some 1.
Proof.
  destruct (SegmentTree.constructor 3) as [s|f] eqn:E.
  2:{ vm_compute in E. discriminate E. }
  destruct (X1_segments_hold_the_delta_sums 3 s
              [Update 0 2 (-1); Query 0 3; Update 1 3 2] E)
    as (vs & s' & Erun & _ & H).
  { repeat constructor; cbn; lia. }
  { vm_compute. discriminate. }
  exists s, vs, s'. split; [reflexivity|]. split; [exact Erun|].
  destruct (H 0 ltac:(lia)) as [H0 H0']. destruct (H 1 ltac:(lia)) as [H1 H1'].
  repeat split; assumption.
Defined.

(** X2.  Asking again costs nothing: when [query(l, r)] has returned [v] on
    a tree obtained from the constructor by in-range calls, the same query on
    the tree it left returns [v] again and changes no cell (every lazy value
    on the way has already been pushed). *)
Theorem X2_query_twice n s cs l r :
  SegmentTree.constructor n = Ok s -> Forall (call_in_range n) cs -> 0 <= l ->
  exists vs s1 v s2,
    run_calls cs s = Ok (vs, s1) /\
    SegmentTree.query l r s1 = Ok (v, s2) /\
    SegmentTree.query l r s2 = Ok (v, s2).
Proof.
  intros Hnew Hcs Hl. destruct (constructor_wf n s Hnew) as [Hwf En].
  rewrite <- En in Hcs.
  destruct (run_calls_ok cs s Hwf Hcs) as (vs & s1 & E & Hsh).
  pose proof (shape_wf _ _ Hsh Hwf) as Hwf1.
  destruct (query_spec l r s1 Hwf1 Hl) as (v & s2 & Eq & _).
  exists vs, s1, v, s2. split; [exact E|]. split; [exact Eq|].
  eapply query_again; eauto.
Qed.

Lemma X2_witness :
  exists s vs s1 v s2,
    SegmentTree.constructor 4 = Ok s /\
    run_calls [Update 0 2 1; Update 1 4 1] s = Ok (vs, s1) /\
    SegmentTree.query 1 3 s1 = Ok (v, s2) /\
    SegmentTree.query 1 3 s2 = Ok (v, s2) /\ s2 <> s1.
Proof.
  destruct (SegmentTree.constructor 4) as [s|f] eqn:E.
  2:{ vm_compute in E. discriminate E. }
  destruct (X2_query_twice 4 s [Update 0 2 1; Update 1 4 1] 1 3 E)
    as (vs & s1 & v & s2 & E1 & E2 & E3).
  { repeat constructor; cbn; lia. }
  { lia. }
  exists s, vs, s1, v, s2. repeat (split; [assumption || reflexivity|]).
  pose proof E as E'. vm_compute in E'. injection E' as <-.
  pose proof E1 as E1'. vm_compute in E1'. injection E1' as _ <-.
  pose proof E2 as E2'. vm_compute in E2'. injection E2' as _ <-.
  discriminate.
Defined.

(** X3.  Pushing the root's lazy value down is invisible from outside: on a
    tree of two or more segments obtained from the constructor by in-range
    calls, [pushDown(0)] clears [lazy[0]], leaves the effective value of
    every segment as it was, and a second [pushDown(0)] changes nothing. *)
Theorem X3_pushDown_keeps_segments n s cs :
  SegmentTree.constructor n = Ok s -> Forall (call_in_range n) cs -> 2 <= n ->
  exists vs s1 s2,
    run_calls cs s = Ok (vs, s1) /\
    SegmentTree.pushDown 0 s1 = Ok (tt, s2) /\
    SegmentTree.lazy s2 !!! 0%nat = 0 /\
    (forall i, 0 <= i < n ->
       SegmentTree.effectiveLeaf s2 i = SegmentTree.effectiveLeaf s1 i) /\
    SegmentTree.pushDown 0 s2 = Ok (tt, s2).
Proof.
  intros Hnew Hcs Hn. destruct (constructor_wf n s Hnew) as [Hwf En].
  rewrite <- En in Hcs.
  destruct (run_calls_ok cs s Hwf Hcs) as (vs & s1 & E & Hsh).
  pose proof (shape_wf _ _ Hsh Hwf) as (Hn1 & Ht1 & Hz1).
  pose proof Hsh as (En1 & _).
  destruct (pushDown_spec 0 s1 ltac:(lia) ltac:(congruence))
    as (s2 & E2 & Hsh2 & Hz2 & Ht2 & HtL & HzL & HtR & HzR & Hrest).
  exists vs, s1, s2. split; [exact E|]. split; [exact E2|]. split; [exact Hz2|].
  pose proof Hsh2 as (En2 & Et2 & Ez2).
  split.
  - intros i Hi. unfold SegmentTree.effectiveLeaf. rewrite En2.
    apply collectLeaf_pushed; auto; lia.
  - unfold SegmentTree.pushDown. erewrite bind_Ok by (apply getLazy_ok; lia).
    rewrite Hz2. reflexivity.
Qed.

Lemma X3_witness :
  exists s vs s1 s2,
    SegmentTree.constructor 2 = Ok s /\
    run_calls [Update 0 2 1] s = Ok (vs, s1) /\
    SegmentTree.pushDown 0 s1 = Ok (tt, s2) /\
    SegmentTree.lazy s1 !!! 0%nat = 1 /\ SegmentTree.lazy s2 !!! 0%nat = 0 /\
    SegmentTree.effectiveLeaf s2 0 = SegmentTree.effectiveLeaf s1 0.
Proof.
  destruct (SegmentTree.constructor 2) as [s|f] eqn:E.
  2:{ vm_compute in E. discriminate E. }
  destruct (X3_pushDown_keeps_segments 2 s [Update 0 2 1] E)
    as (vs & s1 & s2 & E1 & E2 & Hz & Hleaf & _).
  { repeat constructor; cbn; lia. }
  { lia. }
  exists s, vs, s1, s2. repeat (split; [assumption || reflexivity|]).
  split; [|split; [exact Hz|apply Hleaf; lia]].
  pose proof E as E'. vm_compute in E'. injection E' as <-.
  pose proof E1 as E1'. vm_compute in E1'. injection E1' as _ <-.
  reflexivity.
Defined.

(** ** The ledger: what the read-only methods may change *)

Lemma same_but_seats_refl s : same_but_seats 0 s s.
Proof. unfold same_but_seats. repeat split; auto; lia. Qed.

Lemma same_but_seats_trans d1 d2 s1 s2 s3 :
  same_but_seats d1 s1 s2 -> same_but_seats d2 s2 s3 ->
  same_but_seats (d1 + d2) s1 s3.
Proof.
  unfold same_but_seats. intros (?&?&?&?&?&?&?) (?&?&?&?&?&?&?).
  repeat split; try congruence; lia.
Qed.

Lemma same_but_seats_counted s : same_but_seats 1 s (counted s).
Proof. unfold same_but_seats. repeat split; auto. Qed.

Lemma seats_leaf_equiv_refl s : seats_leaf_equiv s s.
Proof. intros k tr Hk. exists tr. split; [exact Hk|apply leaf_equiv_refl]. Qed.

Lemma seats_leaf_equiv_trans s1 s2 s3 :
  seats_leaf_equiv s1 s2 -> seats_leaf_equiv s2 s3 -> seats_leaf_equiv s1 s3.
Proof.
  intros H1 H2 k tr Hk. destruct (H1 k tr Hk) as (tr' & Hk' & He).
  destruct (H2 k tr' Hk') as (tr'' & Hk'' & He').
  exists tr''. split; [exact Hk''|eapply leaf_equiv_trans; eauto].
Qed.

Lemma same_other_seats_refl seat s : same_other_seats seat s s.
Proof. intros k _. reflexivity. Qed.

Lemma same_other_seats_trans seat s1 s2 s3 :
  same_other_seats seat s1 s2 -> same_other_seats seat s2 s3 ->
  same_other_seats seat s1 s3.
Proof. intros H1 H2 k Hk. rewrite (H2 k Hk). now apply H1. Qed.

(** One availability query on one seat. *)
Lemma onSeat_query_quiet s seat l r v s' :
  wf_sys s -> 0 <= l ->
  SeatBookingSystem.onSeat seat (SegmentTree.query l r) s = Ok (v, s') ->
  wf_sys s' /\ same_but_seats 0 s s' /\ seats_leaf_equiv s s' /\
  same_other_seats seat s s'.
Proof.
  intros Hwf Hl H. split; [eapply onSeat_query_wf; eauto|].
  apply onSeat_run in H as (tr & tr' & _ & Htr & Hq & ->).
  destruct (wf_sys_seat _ _ _ Hwf Htr) as [Hwt _].
  destruct (query_spec l r tr Hwt Hl) as (v' & tr1 & Eq & Hequiv & _).
  rewrite Hq in Eq. injection Eq as <- <-.
  split; [|split].
  - unfold same_but_seats; cbn. rewrite length_insert. repeat split; lia.
  - intros k tr0 Hk. cbn. destruct (decide (k = Z.to_nat seat)) as [->|Hne].
    + rewrite Htr in Hk. injection Hk as <-.
      exists tr'. split; [|exact Hequiv].
      apply list_lookup_insert_eq. now apply lookup_lt_Some in Htr.
    + exists tr0. split; [|apply leaf_equiv_refl].
      rewrite list_lookup_insert_ne by auto. exact Hk.
  - intros k Hk. cbn. now rewrite list_lookup_insert_ne by auto.
Qed.

Lemma queryAvailableLoop_quiet seatIds : forall l r acc s res s',
  wf_sys s -> 0 <= l ->
  SeatBookingSystem.queryAvailableLoop seatIds l r acc s = Ok (res, s') ->
  same_but_seats 0 s s' /\ seats_leaf_equiv s s'.
Proof.
  induction seatIds as [|seat rest IH]; intros l r acc s res s' Hwf Hl H.
  - injection H as <- <-. split; [apply same_but_seats_refl|apply seats_leaf_equiv_refl].
  - cbn [SeatBookingSystem.queryAvailableLoop] in H. unfold bind at 1 in H.
    destruct (SeatBookingSystem.onSeat seat _ s) as [[v s1]|f] eqn:Hq; [|discriminate].
    destruct (onSeat_query_quiet _ _ _ _ _ _ Hwf Hl Hq) as (Hwf1 & Hs1 & He1 & _).
    assert (same_but_seats 0 s1 s' /\ seats_leaf_equiv s1 s') as [Hs2 He2]
      by (destruct (v =? 0); eapply IH; eauto).
    split; [exact (same_but_seats_trans 0 0 _ _ _ Hs1 Hs2)
           |eapply seats_leaf_equiv_trans; eauto].
Qed.

Lemma allBookedLoop_quiet segments : forall seat s res s',
  wf_sys s -> Forall (fun i => 0 <= i) segments ->
  SeatBookingSystem.allBookedLoop segments seat s = Ok (res, s') ->
  same_but_seats 0 s s' /\ seats_leaf_equiv s s' /\ same_other_seats seat s s'.
Proof.
  induction segments as [|i rest IH]; intros seat s res s' Hwf Hpos H.
  - injection H as <- <-.
    split; [apply same_but_seats_refl|].
    split; [apply seats_leaf_equiv_refl|apply same_other_seats_refl].
  - cbn [SeatBookingSystem.allBookedLoop] in H. unfold bind at 1 in H.
    destruct (SeatBookingSystem.onSeat seat _ s) as [[v s1]|f] eqn:Hq; [|discriminate].
    inversion Hpos as [|? ? Hi Hrest]; subst.
    destruct (onSeat_query_quiet _ _ _ _ _ _ Hwf Hi Hq) as (Hwf1 & Hs1 & He1 & Ho1).
    destruct (v =? 0).
    + injection H as <- <-. auto.
    + destruct (IH seat s1 res s' Hwf1 Hrest H) as (Hs2 & He2 & Ho2).
      split; [exact (same_but_seats_trans 0 0 _ _ _ Hs1 Hs2)|].
      split; [eapply seats_leaf_equiv_trans; eauto
             |eapply same_other_seats_trans; eauto].
Qed.

(** The paths through the three read-only methods. *)
Lemma isAvailable_run s seat l r b s' :
  SeatBookingSystem.isAvailable seat l r s = Ok (b, s') ->
  (b = false /\ s' = s /\
   (SeatBookingSystem.invalidSeat seat (SeatBookingSystem.numSeats s) = true \/
    SeatBookingSystem.invalidRange l r (SeatBookingSystem.numStations s) = true)) \/
  (SeatBookingSystem.invalidSeat seat (SeatBookingSystem.numSeats s) = false /\
   SeatBookingSystem.invalidRange l r (SeatBookingSystem.numStations s) = false /\
   exists v, SeatBookingSystem.onSeat seat (SegmentTree.query l r) s = Ok (v, s') /\
             b = (v =? 0)).
Proof.
  unfold SeatBookingSystem.isAvailable.
  unfold bind at 1. cbn [SeatBookingSystem.get]. unfold bind at 1.
  cbn [SeatBookingSystem.get].
  destruct (SeatBookingSystem.invalidSeat _ _) eqn:Hseat.
  { intros [= <- <-]. left. auto. }
  destruct (SeatBookingSystem.invalidRange _ _ _) eqn:Hrange.
  { intros [= <- <-]. left. auto. }
  unfold bind at 1.
  destruct (SeatBookingSystem.onSeat seat _ s) as [[v s1]|f] eqn:Hq; [|discriminate].
  unfold ret. intros [= <- <-]. right. eauto.
Qed.

Lemma getSeatStatus_run s seat st s' :
  SeatBookingSystem.getSeatStatus seat s = Ok (st, s') ->
  (SeatBookingSystem.invalidSeat seat (SeatBookingSystem.numSeats s) = true /\
   st = SeatBookingSystem.Available /\ s' = s) \/
  (SeatBookingSystem.invalidSeat seat (SeatBookingSystem.numSeats s) = false /\
   exists v s1,
     SeatBookingSystem.onSeat seat
       (SegmentTree.query 0 (SeatBookingSystem.numSegments s)) s = Ok (v, s1) /\
     ((v = 0 /\ st = SeatBookingSystem.Available /\ s' = s1) \/
      (v <> 0 /\ exists b,
         SeatBookingSystem.allBookedLoop
           (seqZ 0 (SeatBookingSystem.numSegments s)) seat s1 = Ok (b, s') /\
         st = if b then SeatBookingSystem.Booked else SeatBookingSystem.Partial))).
Proof.
  unfold SeatBookingSystem.getSeatStatus.
  unfold bind at 1. cbn [SeatBookingSystem.get]. unfold bind at 1.
  cbn [SeatBookingSystem.get].
  destruct (SeatBookingSystem.invalidSeat _ _) eqn:Hseat.
  { intros [= <- <-]. left. auto. }
  unfold bind at 1.
  destruct (SeatBookingSystem.onSeat seat _ s) as [[v s1]|f] eqn:Hq; [|discriminate].
  destruct (v =? 0) eqn:Hv.
  { intros [= <- <-]. apply Z.eqb_eq in Hv. right. split; [reflexivity|].
    exists v, s1. split; [reflexivity|]. left. auto. }
  unfold bind at 1.
  destruct (SeatBookingSystem.allBookedLoop _ _ _) as [[b s2]|f] eqn:Hloop; [|discriminate].
  unfold ret. intros [= <- <-]. apply Z.eqb_neq in Hv. right. split; [reflexivity|].
  exists v, s1. split; [reflexivity|]. right. split; [exact Hv|].
  exists b. split; [exact Hloop|reflexivity].
Qed.

Lemma queryAvailable_run s l r res s' :
  SeatBookingSystem.queryAvailable l r s = Ok (res, s') ->
  (SeatBookingSystem.invalidRange l r (SeatBookingSystem.numStations s) = true /\
   res = SeatBookingSystem.Availability.mk [] (SeatBookingSystem.InvalidStationRange l r) /\
   s' = counted s) \/
  (SeatBookingSystem.invalidRange l r (SeatBookingSystem.numStations s) = false /\
   exists av,
     SeatBookingSystem.queryAvailableLoop
       (seqZ 0 (SeatBookingSystem.numSeats s)) l r [] (counted s) = Ok (av, s') /\
     res = SeatBookingSystem.Availability.mk av
             (if Z.of_nat (length av) >? 0
              then SeatBookingSystem.SeatsAvailable (Z.of_nat (length av)) (l + 1) (r + 1)
              else SeatBookingSystem.NoSeatsAvailable (l + 1) (r + 1))).
Proof.
  unfold SeatBookingSystem.queryAvailable.
  unfold bind at 1. cbn [SeatBookingSystem.countOperation]. fold (counted s).
  unfold bind at 1. cbn [SeatBookingSystem.get]. unfold bind at 1.
  cbn [SeatBookingSystem.get counted SeatBookingSystem.numSeats
       SeatBookingSystem.numStations]. fold (counted s).
  destruct (SeatBookingSystem.invalidRange _ _ _) eqn:Hrange.
  { intros [= <- <-]. left. auto. }
  unfold bind at 1.
  destruct (SeatBookingSystem.queryAvailableLoop _ _ _ _ _) as [[av s1]|f] eqn:Hloop;
    [|discriminate].
  unfold ret. intros [= <- <-]. right. split; [reflexivity|]. eauto.
Qed.

(** The three read-only methods on a well-formed ledger. *)
Lemma isAvailable_quiet s seat l r b s' :
  wf_sys s -> SeatBookingSystem.isAvailable seat l r s = Ok (b, s') ->
  same_but_seats 0 s s' /\ seats_leaf_equiv s s' /\ same_other_seats seat s s'.
Proof.
  intros Hwf H. apply isAvailable_run in H as [(_ & -> & _)|(_ & Hrange & v & Hq & _)].
  - split; [apply same_but_seats_refl|].
    split; [apply seats_leaf_equiv_refl|apply same_other_seats_refl].
  - apply invalidRange_false in Hrange as (Hl & _).
    destruct (onSeat_query_quiet _ _ _ _ _ _ Hwf Hl Hq) as (_ & ? & ? & ?). auto.
Qed.

Lemma getSeatStatus_quiet s seat st s' :
  wf_sys s -> SeatBookingSystem.getSeatStatus seat s = Ok (st, s') ->
  same_but_seats 0 s s' /\ seats_leaf_equiv s s' /\ same_other_seats seat s s'.
Proof.
  intros Hwf H.
  apply getSeatStatus_run in H
    as [(_ & _ & ->)|(_ & v & s1 & Hq & [(_ & _ & ->)|(_ & b & Hloop & _)])].
  - split; [apply same_but_seats_refl|].
    split; [apply seats_leaf_equiv_refl|apply same_other_seats_refl].
  - destruct (onSeat_query_quiet _ _ _ _ _ _ Hwf (Z.le_refl 0) Hq) as (_ & ? & ? & ?). auto.
  - destruct (onSeat_query_quiet _ _ _ _ _ _ Hwf (Z.le_refl 0) Hq) as (Hwf1 & Hs1 & He1 & Ho1).
    pose proof Hs1 as (_ & _ & En & _). rewrite <- En in Hloop.
    destruct (allBookedLoop_quiet _ _ _ _ _ Hwf1 (seqZ_nonneg _) Hloop) as (Hs2 & He2 & Ho2).
    split; [exact (same_but_seats_trans 0 0 _ _ _ Hs1 Hs2)|].
    split; [eapply seats_leaf_equiv_trans; eauto|eapply same_other_seats_trans; eauto].
Qed.

Lemma queryAvailable_quiet s l r res s' :
  wf_sys s -> SeatBookingSystem.queryAvailable l r s = Ok (res, s') ->
  same_but_seats 1 s s' /\ seats_leaf_equiv s s'.
Proof.
  intros Hwf H. apply queryAvailable_run in H as [(_ & _ & ->)|(Hrange & av & Hloop & _)].
  - split; [apply same_but_seats_counted|exact (seats_leaf_equiv_refl s)].
  - apply invalidRange_false in Hrange as (Hl & _).
    destruct (queryAvailableLoop_quiet _ _ _ _ _ _ _ (wf_sys_counted _ Hwf) Hl Hloop)
      as (Hs & He).
    split; [exact (same_but_seats_trans 1 0 _ _ _ (same_but_seats_counted s) Hs)|].
    exact He.
Qed.

(** ** Seat trees against the bookings log *)

Lemma spec_seatCount_cons b bs seat i :
  spec_seatCount (b :: bs) seat i =
  (if SeatBookingSystem.active b
      && (SeatBookingSystem.seatId b =? seat)
      && covers (SeatBookingSystem.from b) (SeatBookingSystem.to b) i
   then 1 else 0) + spec_seatCount bs seat i.
Proof. reflexivity. Qed.

Lemma spec_seatCount_nonneg bs seat i : 0 <= spec_seatCount bs seat i.
Proof.
  induction bs as [|b bs IH]; [cbn; lia|].
  rewrite spec_seatCount_cons. destruct (_ && _); lia.
Qed.

Lemma spec_seatCount_app bs b seat i :
  spec_seatCount (bs ++ [b]) seat i =
  spec_seatCount bs seat i
  + (if SeatBookingSystem.active b
        && (SeatBookingSystem.seatId b =? seat)
        && covers (SeatBookingSystem.from b) (SeatBookingSystem.to b) i
     then 1 else 0).
Proof.
  induction bs as [|b0 bs IH].
  - cbn [app]. rewrite spec_seatCount_cons. cbn. lia.
  - change ((b0 :: bs) ++ [b]) with (b0 :: (bs ++ [b])).
    rewrite !spec_seatCount_cons, IH. lia.
Qed.

Lemma spec_seatCount_deactivate bs : forall k b seat i,
  bs !! k = Some b -> SeatBookingSystem.active b = true ->
  spec_seatCount (<[k := deactivated b]> bs) seat i =
  spec_seatCount bs seat i
  + (if (SeatBookingSystem.seatId b =? seat)
        && covers (SeatBookingSystem.from b) (SeatBookingSystem.to b) i
     then -1 else 0).
Proof.
  induction bs as [|b0 bs IH]; intros k b seat i Hk Hact; [discriminate|].
  destruct k as [|k]; cbn in Hk.
  - injection Hk as ->.
    change (<[0%nat := deactivated b]> (b :: bs)) with (deactivated b :: bs).
    rewrite !spec_seatCount_cons, Hact. cbn [deactivated SeatBookingSystem.active
      SeatBookingSystem.seatId SeatBookingSystem.from SeatBookingSystem.to andb].
    destruct (_ && _); lia.
  - change (<[S k := deactivated b]> (b0 :: bs))
      with (b0 :: <[k := deactivated b]> bs).
    rewrite !spec_seatCount_cons, (IH k b seat i Hk Hact). lia.
Qed.

(** The invariant survives anything that keeps the log and the leaves. *)
Lemma seats_count_active_quiet d s s' :
  wf_sys s -> seats_count_active s ->
  same_but_seats d s s' -> seats_leaf_equiv s s' -> seats_count_active s'.
Proof.
  intros Hwf Hinv (_ & _ & En & _ & Eb & _ & Elen) Heq k tr' i Hk Hi.
  rewrite Eb. rewrite En in Hi.
  assert (Hlt : (k < length (SeatBookingSystem.seats s))%nat)
    by (rewrite <- Elen; now apply lookup_lt_Some in Hk).
  destruct (lookup_lt_is_Some_2 _ _ Hlt) as [tr Htr].
  destruct (Heq k tr Htr) as (tr'' & Hk'' & (_ & Hleaf)).
  rewrite Hk in Hk''. injection Hk'' as <-.
  destruct (wf_sys_seat _ _ _ Hwf Htr) as [_ Hn].
  rewrite Hleaf by (rewrite Hn; exact Hi). now apply Hinv.
Qed.

Lemma pushSeats_new count : forall numSegments acc seats,
  SeatBookingSystem.pushSeats count numSegments acc = Ok seats ->
  Forall (fun tr => SegmentTree.constructor numSegments = Ok tr) acc ->
  Forall (fun tr => SegmentTree.constructor numSegments = Ok tr) seats.
Proof.
  induction count as [|count IH]; intros numSegments acc seats H Hacc.
  - now injection H as <-.
  - cbn [SeatBookingSystem.pushSeats] in H.
    remember (SegmentTree.constructor numSegments) as c eqn:Hc in H.
    destruct c as [tr|f]; [|discriminate]. symmetry in Hc.
    apply IH in H; [exact H|]. apply Forall_app. split; [exact Hacc|].
    constructor; [exact Hc|constructor].
Qed.

Lemma reachable_seats_count_active s : reachable s -> seats_count_active s.
Proof.
  induction 1 as [ns nst s H|s seat l r res s' Hs IH H|s seat l r res s' Hs IH H
                  |s l r res s' Hs IH H|s seat l r res s' Hs IH H|s seat res s' Hs IH H].
  - revert H. unfold SeatBookingSystem.constructor.
    destruct (SeatBookingSystem.pushSeats _ _ _) as [seats|f] eqn:Hseats; [|discriminate].
    destruct (SegmentTree.constructor _) as [g|f]; [|discriminate].
    intros [= <-]. intros k tr i Hk Hi. cbn in *.
    apply pushSeats_new in Hseats; [|constructor].
    pose proof (proj1 (Forall_lookup _ _) Hseats k tr Hk) as Hnew.
    exact (effectiveLeaf_new _ _ _ Hnew Hi).
  - pose proof (reachable_wf s Hs) as Hwf. apply book_run in H.
    destruct H as [Hseat|Hseat Hrange|tr v tr1 Hseat Hrange Htr Hq Hv
                   |tr v tr1 tr2 g2 Hseat Hrange Htr Hq Hv Hu Hg];
      try exact IH.
    + (* conflict: only a query ran *)
      pose proof (proj1 (invalidSeat_false _ _) Hseat) as Hs0.
      pose proof (proj1 (invalidRange_false _ _ _) Hrange) as (Hl & _).
      assert (Hq' : SeatBookingSystem.onSeat seat (SegmentTree.query l r) s
                    = Ok (v, withSeat seat tr1 s))
        by (eapply onSeat_ok; eauto; lia).
      destruct (onSeat_query_quiet _ _ _ _ _ _ Hwf Hl Hq') as (_ & Hsame & Heq & _).
      exact (seats_count_active_quiet 0 s _ Hwf IH Hsame Heq).
    + pose proof (proj1 (invalidSeat_false _ _) Hseat) as Hs0.
      pose proof (proj1 (invalidRange_false _ _ _) Hrange) as (Hl & _).
      destruct (wf_sys_seat _ _ _ Hwf Htr) as [Hwt Hnt].
      destruct (query_spec l r tr Hwt Hl) as (v' & tr1' & Eq & [Hsh1 Hleaf1] & _).
      rewrite Hq in Eq. injection Eq as <- <-.
      pose proof (shape_wf _ _ Hsh1 Hwt) as Hwt1.
      destruct (update_spec l r 1 tr1 Hwt1 Hl) as (tr2' & Eu & Hsh2 & Hleaf2).
      rewrite Hu in Eu. injection Eu as <-.
      pose proof Hsh1 as (En1 & _).
      intros k tr' i Hk Hi.
      cbn [withBookings withGlobalTree withSeat counted SeatBookingSystem.seats
           SeatBookingSystem.bookings SeatBookingSystem.numSegments] in Hk, Hi |- *.
      rewrite spec_seatCount_app.
      cbn [SeatBookingSystem.active SeatBookingSystem.seatId SeatBookingSystem.from
           SeatBookingSystem.to andb].
      destruct (decide (k = Z.to_nat seat)) as [->|Hne].
      * rewrite list_lookup_insert_eq in Hk
          by (rewrite length_insert; now apply lookup_lt_Some in Htr).
        injection Hk as <-.
        rewrite Hleaf2, Hleaf1 by lia. rewrite (IH _ _ _ Htr Hi).
        replace (seat =? Z.of_nat (Z.to_nat seat)) with true
          by (symmetry; apply Z.eqb_eq; lia).
        reflexivity.
      * rewrite !list_lookup_insert_ne in Hk by auto.
        rewrite (IH _ _ _ Hk Hi).
        replace (seat =? Z.of_nat k) with false
          by (symmetry; apply Z.eqb_neq; lia).
        cbn. lia.
  - pose proof (reachable_wf s Hs) as Hwf. apply cancel_run in H.
    destruct H as [Hseat|Hseat Hrange|Hseat Hrange Hfind
                   |i0 b tr tr1 g' Hseat Hrange Hfind Htr Hu Hg];
      try exact IH.
    pose proof (proj1 (invalidSeat_false _ _) Hseat) as Hs0.
    pose proof (proj1 (invalidRange_false _ _ _) Hrange) as (Hl & _).
    destruct (wf_sys_seat _ _ _ Hwf Htr) as [Hwt Hnt].
    destruct (update_spec l r (-1) tr Hwt Hl) as (tr2' & Eu & Hsh2 & Hleaf2).
    rewrite Hu in Eu. injection Eu as <-.
    destruct (find_Some _ _ _ _ Hfind) as (Hi0 & Hm & _).
    apply matches_true in Hm as (Hsid & Hfrom & Hto & Hact).
    intros k tr' i Hk Hi.
      cbn [withBookings withGlobalTree withSeat counted SeatBookingSystem.seats
           SeatBookingSystem.bookings SeatBookingSystem.numSegments] in Hk, Hi |- *.
    rewrite (spec_seatCount_deactivate _ _ _ _ _ Hi0 Hact). rewrite Hsid, Hfrom, Hto.
    destruct (decide (k = Z.to_nat seat)) as [->|Hne].
    + rewrite list_lookup_insert_eq in Hk by (now apply lookup_lt_Some in Htr).
      injection Hk as <-.
      rewrite Hleaf2 by lia. rewrite (IH _ _ _ Htr Hi).
      replace (seat =? Z.of_nat (Z.to_nat seat)) with true
        by (symmetry; apply Z.eqb_eq; lia).
      reflexivity.
    + rewrite list_lookup_insert_ne in Hk by auto.
      rewrite (IH _ _ _ Hk Hi).
      replace (seat =? Z.of_nat k) with false
        by (symmetry; apply Z.eqb_neq; lia).
      cbn. lia.
  - pose proof (reachable_wf s Hs) as Hwf.
    destruct (queryAvailable_quiet _ _ _ _ _ Hwf H) as (Hsame & Heq).
    exact (seats_count_active_quiet 1 s _ Hwf IH Hsame Heq).
  - pose proof (reachable_wf s Hs) as Hwf.
    destruct (isAvailable_quiet _ _ _ _ _ _ Hwf H) as (Hsame & Heq & _).
    exact (seats_count_active_quiet 0 s _ Hwf IH Hsame Heq).
  - pose proof (reachable_wf s Hs) as Hwf.
    destruct (getSeatStatus_quiet _ _ _ _ Hwf H) as (Hsame & Heq & _).
    exact (seats_count_active_quiet 0 s _ Hwf IH Hsame Heq).
Qed.

(** What a one-segment query on a seat tree tells about the log. *)
Lemma point_value s seat i tr v tr' :
  wf_sys s -> seats_count_active s -> 0 <= seat ->
  0 <= i < SeatBookingSystem.numSegments s ->
  SeatBookingSystem.seats s !! Z.to_nat seat = Some tr ->
  SegmentTree.query i (i + 1) tr = Ok (v, tr') ->
  0 <= v /\ (v = 0 <-> spec_seatCount (SeatBookingSystem.bookings s) seat i = 0).
Proof.
  intros Hwf Hinv Hs Hi Htr Hq.
  destruct (wf_sys_seat _ _ _ Hwf Htr) as [Hwt Hnt].
  destruct (query_spec i (i + 1) tr Hwt ltac:(lia)) as (v' & tr1 & Eq & _ & _ & Hpt).
  rewrite Hq in Eq. injection Eq as <- <-.
  specialize (Hpt i eq_refl eq_refl ltac:(lia)).
  rewrite (Hinv _ _ _ Htr Hi) in Hpt.
  replace (Z.of_nat (Z.to_nat seat)) with seat in Hpt by lia.
  pose proof (spec_seatCount_nonneg (SeatBookingSystem.bookings s) seat i).
  destruct (SegmentTree.n tr =? 1); lia.
Qed.

Lemma allBookedLoop_meaning segments : forall seat s b s',
  wf_sys s -> seats_count_active s ->
  SeatBookingSystem.invalidSeat seat (SeatBookingSystem.numSeats s) = false ->
  Forall (fun i => 0 <= i < SeatBookingSystem.numSegments s) segments ->
  SeatBookingSystem.allBookedLoop segments seat s = Ok (b, s') ->
  if b
  then Forall (fun i => 1 <= spec_seatCount (SeatBookingSystem.bookings s) seat i)
              segments
  else Exists (fun i => spec_seatCount (SeatBookingSystem.bookings s) seat i = 0)
              segments.
Proof.
  induction segments as [|i rest IH]; intros seat s b s' Hwf Hinv Hseat Hsegs H.
  - injection H as <- <-. constructor.
  - cbn [SeatBookingSystem.allBookedLoop] in H. unfold bind at 1 in H.
    destruct (SeatBookingSystem.onSeat seat _ s) as [[v s1]|f] eqn:Hq; [|discriminate].
    inversion Hsegs as [|? ? Hi Hrest]; subst.
    pose proof (proj1 (invalidSeat_false _ _) Hseat) as Hs0.
    destruct (onSeat_query_quiet _ _ _ _ _ _ Hwf (proj1 Hi) Hq) as (Hwf1 & Hsame & Heq & _).
    pose proof (seats_count_active_quiet 0 s s1 Hwf Hinv Hsame Heq) as Hinv1.
    apply onSeat_run in Hq as (tr & tr' & _ & Htr & Hq & _).
    destruct (point_value s seat i tr v tr' Hwf Hinv ltac:(lia) Hi Htr Hq) as [Hv0 Hv].
    pose proof (spec_seatCount_nonneg (SeatBookingSystem.bookings s) seat i).
    destruct Hsame as (En & _ & Eseg & _ & Eb & _).
    destruct (v =? 0) eqn:Hz.
    + injection H as <- <-. apply Z.eqb_eq in Hz. left. now apply Hv.
    + apply Z.eqb_neq in Hz.
      specialize (IH seat s1 b s' Hwf1 Hinv1).
      rewrite En, Eseg, Eb in IH. specialize (IH Hseat Hrest H).
      destruct b.
      * constructor; [|exact IH]. lia.
      * now right.
Qed.

(** X4.  The three read-only methods leave the bookings, the global tree
    and the configuration alone, and every seat tree keeps the effective
    value of each of its segments; [queryAvailable] adds one to
    [operationCount], [isAvailable] and [getSeatStatus] do not count, and
    these two touch no tree but the one of the seat asked about. *)
Theorem X4_queries_do_not_disturb s :
  reachable s ->
  (forall seat l r b s',
     SeatBookingSystem.isAvailable seat l r s = Ok (b, s') ->
     same_but_seats 0 s s' /\ seats_leaf_equiv s s' /\ same_other_seats seat s s') /\
  (forall seat st s',
     SeatBookingSystem.getSeatStatus seat s = Ok (st, s') ->
     same_but_seats 0 s s' /\ seats_leaf_equiv s s' /\ same_other_seats seat s s') /\
  (forall l r res s',
     SeatBookingSystem.queryAvailable l r s = Ok (res, s') ->
     same_but_seats 1 s s' /\ seats_leaf_equiv s s').
Proof.
  intros Hreach. pose proof (reachable_wf s Hreach) as Hwf.
  split; [|split].
  - intros seat l r b s'. apply isAvailable_quiet, Hwf.
  - intros seat st s'. apply getSeatStatus_quiet, Hwf.
  - intros l r res s'. apply queryAvailable_quiet, Hwf.
Qed.

Lemma X4_witness :
  reachable ledger_booked_0_5 /\
  exists b s',
    SeatBookingSystem.isAvailable 0 1 2 ledger_booked_0_5 = Ok (b, s') /\
    SeatBookingSystem.bookings s' = SeatBookingSystem.bookings ledger_booked_0_5 /\
    SeatBookingSystem.operationCount s' = 1 /\
    s' <> ledger_booked_0_5.
Proof.
  split; [exact ledger_booked_0_5_reachable|].
  destruct (SeatBookingSystem.isAvailable 0 1 2 ledger_booked_0_5)
    as [[b s']|f] eqn:E.
  2:{ vm_compute in E. discriminate E. }
  exists b, s'. split; [reflexivity|].
  destruct (X4_queries_do_not_disturb _ ledger_booked_0_5_reachable) as (H & _).
  destruct (H 0 1 2 b s' E) as ((_ & _ & _ & _ & Eb & Ec & _) & _).
  split; [exact Eb|]. split; [rewrite Ec; reflexivity|].
  pose proof E as E'. vm_compute in E'. injection E' as _ <-. discriminate.
Defined.

(** X5.  In every reachable ledger each segment of each seat's tree shows
    the number of active bookings of that seat that cover the segment (so it
    is never negative), and each segment of the global tree shows the number
    of active bookings of any seat that cover it. *)
Theorem X5_segments_count_active_bookings s :
  reachable s ->
  forall i, 0 <= i < SeatBookingSystem.numSegments s ->
    SegmentTree.effectiveLeaf (SeatBookingSystem.globalTree s) i =
      spec_activeCount (SeatBookingSystem.bookings s) i /\
    forall k tr, SeatBookingSystem.seats s !! k = Some tr ->
      SegmentTree.effectiveLeaf tr i =
        spec_seatCount (SeatBookingSystem.bookings s) (Z.of_nat k) i /\
      0 <= SegmentTree.effectiveLeaf tr i.
Proof.
  intros Hreach i Hi. split; [now apply global_leaves_count_active|].
  intros k tr Hk.
  rewrite (reachable_seats_count_active s Hreach k tr i Hk Hi).
  split; [reflexivity|apply spec_seatCount_nonneg].
Qed.

Lemma X5_witness :
  reachable ledger_booked_0_5 /\
  SegmentTree.effectiveLeaf (SeatBookingSystem.globalTree ledger_booked_0_5) 4 = 1 /\
  SegmentTree.effectiveLeaf (SeatBookingSystem.globalTree ledger_booked_0_5) 5 = 0.
Proof.
  pose proof (X5_segments_count_active_bookings _ ledger_booked_0_5_reachable) as H.
  split; [exact ledger_booked_0_5_reachable|].
  split.
  - destruct (H 4) as [-> _]; [|reflexivity].
    vm_compute; split; [discriminate|reflexivity].
  - destruct (H 5) as [-> _]; [|reflexivity].
    vm_compute; split; [discriminate|reflexivity].
Defined.

(** X6.  One segment at a time the ledger is exact: in every reachable
    ledger, for a valid seat and a segment [i], [isAvailable(seat, i, i+1)]
    answers true exactly when no active booking of that seat covers [i], and
    [book(seat, i, i+1)] succeeds exactly then. *)
Theorem X6_single_segment_is_exact s seat i :
  reachable s ->
  0 <= seat < SeatBookingSystem.numSeats s ->
  0 <= i < SeatBookingSystem.numSegments s ->
  (exists b s',
     SeatBookingSystem.isAvailable seat i (i + 1) s = Ok (b, s') /\
     (b = true <-> spec_seatCount (SeatBookingSystem.bookings s) seat i = 0)) /\
  (exists res s',
     SeatBookingSystem.book seat i (i + 1) s = Ok (res, s') /\
     (SeatBookingSystem.success res = true <->
      spec_seatCount (SeatBookingSystem.bookings s) seat i = 0)).
Proof.
  intros Hreach Hseat Hi. pose proof (reachable_wf s Hreach) as Hwf.
  pose proof (reachable_seats_count_active s Hreach) as Hinv.
  pose proof Hwf as (Eseg & _).
  assert (Hvs : SeatBookingSystem.invalidSeat seat (SeatBookingSystem.numSeats s) = false)
    by (apply invalidSeat_false; lia).
  assert (Hvr : SeatBookingSystem.invalidRange i (i + 1)
                  (SeatBookingSystem.numStations s) = false)
    by (apply invalidRange_false; lia).
  destruct (wf_sys_seat_exists _ _ Hwf Hvs) as [tr Htr].
  destruct (wf_sys_seat _ _ _ Hwf Htr) as [Hwt _].
  destruct (query_spec i (i + 1) tr Hwt ltac:(lia)) as (v & tr1 & Eq & _).
  destruct (point_value s seat i tr v tr1 Hwf Hinv ltac:(lia) Hi Htr Eq) as [Hv0 Hv].
  split.
  - exists (v =? 0), (withSeat seat tr1 s). split.
    + unfold SeatBookingSystem.isAvailable, bind, SeatBookingSystem.get.
      rewrite Hvs, Hvr. erewrite onSeat_ok; eauto; lia.
    + rewrite Z.eqb_eq. exact Hv.
  - destruct (book_total s seat i (i + 1) Hwf) as (res & s' & E).
    exists res, s'. split; [exact E|]. apply book_run in E.
    destruct E as [Hseat'|Hseat' Hrange|tr' v' tr1' Hseat' Hrange Htr' Hq Hv'
                   |tr' v' tr1' tr2 g2 Hseat' Hrange Htr' Hq Hv' Hu Hg];
      cbn [SeatBookingSystem.success]; try congruence.
    + rewrite Htr in Htr'. injection Htr' as <-. rewrite Eq in Hq.
      injection Hq as <- <-. split; [discriminate|]. intros Hc. apply Hv in Hc. lia.
    + rewrite Htr in Htr'. injection Htr' as <-. rewrite Eq in Hq.
      injection Hq as <- <-. split; [|reflexivity]. intros _. apply Hv. lia.
Qed.

Lemma X6_witness :
  reachable ledger_booked_0_5 /\
  (exists b s', SeatBookingSystem.isAvailable 0 4 5 ledger_booked_0_5 = Ok (b, s')
                /\ b <> true) /\
  (exists res s', SeatBookingSystem.book 0 5 6 ledger_booked_0_5 = Ok (res, s')
                  /\ SeatBookingSystem.success res = true).
Proof.
  split; [exact ledger_booked_0_5_reachable|]. split.
  - destruct (X6_single_segment_is_exact ledger_booked_0_5 0 4
                ledger_booked_0_5_reachable)
      as ((b & s' & E & Hb) & _);
      [vm_compute; split; [discriminate|reflexivity]..|].
    exists b, s'. split; [exact E|]. intros Ht. apply Hb in Ht. vm_compute in Ht.
    discriminate Ht.
  - destruct (X6_single_segment_is_exact ledger_booked_0_5 0 5
                ledger_booked_0_5_reachable)
      as (_ & (res & s' & E & Hres));
      [vm_compute; split; [discriminate|reflexivity]..|].
    exists res, s'. split; [exact E|]. apply Hres. vm_compute. reflexivity.
Defined.

(** X7.  What the status of a valid seat tells: in a reachable ledger,
    ['booked'] is returned only when every segment of the journey is covered
    by an active booking of the seat, and ['partial'] only when some segment
    is covered by none. *)
Theorem X7_status_reads_the_segments s seat st s' :
  reachable s ->
  0 <= seat < SeatBookingSystem.numSeats s ->
  SeatBookingSystem.getSeatStatus seat s = Ok (st, s') ->
  (st = SeatBookingSystem.Booked ->
   forall i, 0 <= i < SeatBookingSystem.numSegments s ->
             1 <= spec_seatCount (SeatBookingSystem.bookings s) seat i) /\
  (st = SeatBookingSystem.Partial ->
   exists i, 0 <= i < SeatBookingSystem.numSegments s /\
             spec_seatCount (SeatBookingSystem.bookings s) seat i = 0).
Proof.
  intros Hreach Hseat H. pose proof (reachable_wf s Hreach) as Hwf.
  pose proof (reachable_seats_count_active s Hreach) as Hinv.
  apply getSeatStatus_run in H
    as [(Hbad & _)|(Hvs & v & s1 & Hq & [(_ & -> & _)|(_ & b & Hloop & ->)])].
  - apply invalidSeat_false in Hseat. congruence.
  - split; discriminate.
  - destruct (onSeat_query_quiet _ _ _ _ _ _ Hwf (Z.le_refl 0) Hq)
      as (Hwf1 & Hsame & Heq & _).
    pose proof (seats_count_active_quiet 0 s s1 Hwf Hinv Hsame Heq) as Hinv1.
    destruct Hsame as (En & _ & Eseg & _ & Eb & _).
    rewrite <- Eseg in Hloop.
    apply allBookedLoop_meaning in Hloop; auto.
    + rewrite Eb, Eseg in Hloop. destruct b; split; try discriminate; intros _.
      * intros i Hi. rewrite Forall_seqZ in Hloop. apply Hloop. lia.
      * apply Exists_exists in Hloop as (i & Hin & Hc).
        apply elem_of_seqZ in Hin. exists i. split; [lia|exact Hc].
    + now rewrite En.
    + apply Forall_seqZ. intros. lia.
Qed.

Lemma X7_witness :
  reachable ledger_booked_0_5 /\
  (0 <= 0 < SeatBookingSystem.numSeats ledger_booked_0_5) /\
  exists st s',
    SeatBookingSystem.getSeatStatus 0 ledger_booked_0_5 = Ok (st, s') /\
    st = SeatBookingSystem.Partial /\
    exists i, 0 <= i < 9 /\
      spec_seatCount (SeatBookingSystem.bookings ledger_booked_0_5) 0 i = 0.
Proof.
  split; [exact ledger_booked_0_5_reachable|].
  assert (Hs : 0 <= 0 < SeatBookingSystem.numSeats ledger_booked_0_5)
    by (vm_compute; split; [discriminate|reflexivity]).
  split; [exact Hs|].
  destruct (SeatBookingSystem.getSeatStatus 0 ledger_booked_0_5) as [[st s']|f] eqn:E.
  2:{ vm_compute in E. discriminate E. }
  exists st, s'. split; [reflexivity|].
  assert (Hst : st = SeatBookingSystem.Partial).
  { pose proof E as E'. vm_compute in E'. now injection E' as <- _. }
  split; [exact Hst|].
  destruct (X7_status_reads_the_segments _ 0 st s' ledger_booked_0_5_reachable Hs E)
    as (_ & Hp).
  exact (Hp Hst).
Defined.

(** ** Runs of client calls *)

Lemma onSeat_query_total s seat l r :
  wf_sys s ->
  SeatBookingSystem.invalidSeat seat (SeatBookingSystem.numSeats s) = false ->
  0 <= l ->
  exists v s', SeatBookingSystem.onSeat seat (SegmentTree.query l r) s = Ok (v, s').
Proof.
  intros Hwf Hseat Hl.
  destruct (wf_sys_seat_exists _ _ Hwf Hseat) as [tr Htr].
  destruct (wf_sys_seat _ _ _ Hwf Htr) as [Hwt _].
  destruct (query_spec l r tr Hwt Hl) as (v & tr1 & Eq & _).
  apply invalidSeat_false in Hseat.
  eexists _, _. eapply onSeat_ok; [lia|exact Htr|exact Eq].
Qed.

Lemma isAvailable_total s seat l r :
  wf_sys s -> exists b s', SeatBookingSystem.isAvailable seat l r s = Ok (b, s').
Proof.
  intros Hwf. unfold SeatBookingSystem.isAvailable, bind, SeatBookingSystem.get.
  destruct (SeatBookingSystem.invalidSeat _ _) eqn:Hseat; [eexists _, _; reflexivity|].
  destruct (SeatBookingSystem.invalidRange _ _ _) eqn:Hrange;
    [eexists _, _; reflexivity|].
  apply invalidRange_false in Hrange as (Hl & _).
  destruct (onSeat_query_total s seat l r Hwf Hseat Hl) as (v & s1 & E).
  rewrite E. eexists _, _; reflexivity.
Qed.

Lemma queryAvailableLoop_total seatIds : forall l r acc s,
  wf_sys s -> 0 <= l ->
  Forall (fun k => SeatBookingSystem.invalidSeat k (SeatBookingSystem.numSeats s) = false)
         seatIds ->
  exists res s', SeatBookingSystem.queryAvailableLoop seatIds l r acc s = Ok (res, s').
Proof.
  induction seatIds as [|seat rest IH]; intros l r acc s Hwf Hl Hall.
  - eexists _, _; reflexivity.
  - inversion Hall as [|? ? Hseat Hrest]; subst.
    destruct (onSeat_query_total s seat l r Hwf Hseat Hl) as (v & s1 & E).
    cbn [SeatBookingSystem.queryAvailableLoop]. unfold bind at 1. rewrite E.
    destruct (onSeat_query_quiet _ _ _ _ _ _ Hwf Hl E) as (Hwf1 & (En & _) & _).
    rewrite <- En in Hrest.
    destruct (v =? 0); apply IH; auto.
Qed.

Lemma allBookedLoop_total segments : forall seat s,
  wf_sys s ->
  SeatBookingSystem.invalidSeat seat (SeatBookingSystem.numSeats s) = false ->
  Forall (fun i => 0 <= i) segments ->
  exists b s', SeatBookingSystem.allBookedLoop segments seat s = Ok (b, s').
Proof.
  induction segments as [|i rest IH]; intros seat s Hwf Hseat Hall.
  - eexists _, _; reflexivity.
  - inversion Hall as [|? ? Hi Hrest]; subst.
    destruct (onSeat_query_total s seat i (i + 1) Hwf Hseat Hi) as (v & s1 & E).
    cbn [SeatBookingSystem.allBookedLoop]. unfold bind at 1. rewrite E.
    destruct (onSeat_query_quiet _ _ _ _ _ _ Hwf Hi E) as (Hwf1 & (En & _) & _).
    rewrite <- En in Hseat.
    destruct (v =? 0); [eexists _, _; reflexivity|]. apply IH; auto.
Qed.

Lemma seqZ_valid_seats n :
  Forall (fun k => SeatBookingSystem.invalidSeat k n = false) (seqZ 0 n).
Proof. apply Forall_seqZ. intros k Hk. apply invalidSeat_false. lia. Qed.

Lemma queryAvailable_total s l r :
  wf_sys s -> exists res s', SeatBookingSystem.queryAvailable l r s = Ok (res, s').
Proof.
  intros Hwf. unfold SeatBookingSystem.queryAvailable.
  unfold bind at 1. cbn [SeatBookingSystem.countOperation]. fold (counted s).
  unfold bind at 1. cbn [SeatBookingSystem.get]. unfold bind at 1.
  cbn [SeatBookingSystem.get counted SeatBookingSystem.numSeats
       SeatBookingSystem.numStations]. fold (counted s).
  destruct (SeatBookingSystem.invalidRange _ _ _) eqn:Hrange;
    [eexists _, _; reflexivity|].
  apply invalidRange_false in Hrange as (Hl & _).
  destruct (queryAvailableLoop_total (seqZ 0 (SeatBookingSystem.numSeats s)) l r []
              (counted s) (wf_sys_counted s Hwf) Hl (seqZ_valid_seats _))
    as (av & s1 & E).
  unfold bind at 1. rewrite E. eexists _, _; reflexivity.
Qed.

Lemma getSeatStatus_total s seat :
  wf_sys s -> exists st s', SeatBookingSystem.getSeatStatus seat s = Ok (st, s').
Proof.
  intros Hwf. unfold SeatBookingSystem.getSeatStatus.
  unfold bind at 1. cbn [SeatBookingSystem.get]. unfold bind at 1.
  cbn [SeatBookingSystem.get].
  destruct (SeatBookingSystem.invalidSeat _ _) eqn:Hseat; [eexists _, _; reflexivity|].
  destruct (onSeat_query_total s seat 0 (SeatBookingSystem.numSegments s) Hwf Hseat
              (Z.le_refl 0)) as (v & s1 & E).
  unfold bind at 1. rewrite E.
  destruct (v =? 0); [eexists _, _; reflexivity|].
  destruct (onSeat_query_quiet _ _ _ _ _ _ Hwf (Z.le_refl 0) E) as (Hwf1 & (En & _) & _).
  rewrite <- En in Hseat.
  destruct (allBookedLoop_total (seqZ 0 (SeatBookingSystem.numSegments s)) seat s1
              Hwf1 Hseat (seqZ_nonneg _)) as (b & s2 & E2).
  unfold bind at 1. rewrite E2. eexists _, _; reflexivity.
Qed.

Lemma exec_total c s : wf_sys s -> exists x s', exec c s = Ok (x, s').
Proof.
  intros Hwf. destruct c as [seat l r|seat l r|l r|seat l r|seat]; unfold exec, bind.
  - destruct (book_total s seat l r Hwf) as (x & s' & ->). eexists _, _; reflexivity.
  - destruct (cancel_total s seat l r Hwf) as (x & s' & ->). eexists _, _; reflexivity.
  - destruct (queryAvailable_total s l r Hwf) as (x & s' & ->). eexists _, _; reflexivity.
  - destruct (isAvailable_total s seat l r Hwf) as (x & s' & ->).
    eexists _, _; reflexivity.
  - destruct (getSeatStatus_total s seat Hwf) as (x & s' & ->). eexists _, _; reflexivity.
Qed.

Lemma exec_reachable c s x s' : reachable s -> exec c s = Ok (x, s') -> reachable s'.
Proof.
  intros Hreach.
  destruct c as [seat l r|seat l r|l r|seat l r|seat]; unfold exec, bind, ret.
  - destruct (SeatBookingSystem.book seat l r s) as [[res s1]|f] eqn:E; [|discriminate].
    intros [= <- <-]. eapply reach_book; eauto.
  - destruct (SeatBookingSystem.cancel seat l r s) as [[res s1]|f] eqn:E; [|discriminate].
    intros [= <- <-]. eapply reach_cancel; eauto.
  - destruct (SeatBookingSystem.queryAvailable l r s) as [[res s1]|f] eqn:E;
      [|discriminate].
    intros [= <- <-]. eapply reach_queryAvailable; eauto.
  - destruct (SeatBookingSystem.isAvailable seat l r s) as [[res s1]|f] eqn:E;
      [|discriminate].
    intros [= <- <-]. eapply reach_isAvailable; eauto.
  - destruct (SeatBookingSystem.getSeatStatus seat s) as [[res s1]|f] eqn:E;
      [|discriminate].
    intros [= <- <-]. eapply reach_getSeatStatus; eauto.
Qed.

Lemma run_commands_cons c cs s xs s' :
  run_commands (c :: cs) s = Ok (xs, s') ->
  exists x s1 xs', exec c s = Ok (x, s1) /\ run_commands cs s1 = Ok (xs', s') /\
                   xs = x :: xs'.
Proof.
  cbn [run_commands]. unfold bind at 1.
  destruct (exec c s) as [[x s1]|f]; [|discriminate].
  unfold bind at 1.
  destruct (run_commands cs s1) as [[xs' s2]|f] eqn:Hrun; [|discriminate].
  unfold ret. intros [= <- <-]. exists x, s1, xs'. auto.
Qed.

(** The five calls sorted by what they may write. *)
Lemma exec_cases c s x s' :
  wf_sys s -> exec c s = Ok (x, s') ->
  (exists seat l r res, c = Book seat l r /\ x = Result res /\
                        book_outcome s seat l r res s') \/
  (exists seat l r res, c = Cancel seat l r /\ x = Result res /\
                        cancel_outcome s seat l r res s') \/
  (exists l r res, c = QueryAvailable l r /\ x = Seats res /\ same_but_seats 1 s s') \/
  (is_counted c = false /\ booked c x = false /\ cancelled c x = false /\
   same_but_seats 0 s s').
Proof.
  intros Hwf.
  destruct c as [seat l r|seat l r|l r|seat l r|seat]; unfold exec, bind, ret.
  - destruct (SeatBookingSystem.book seat l r s) as [[res s1]|f] eqn:E; [|discriminate].
    intros [= <- <-]. left. exists seat, l, r, res. auto using book_run.
  - destruct (SeatBookingSystem.cancel seat l r s) as [[res s1]|f] eqn:E; [|discriminate].
    intros [= <- <-]. right; left. exists seat, l, r, res. auto using cancel_run.
  - destruct (SeatBookingSystem.queryAvailable l r s) as [[res s1]|f] eqn:E;
      [|discriminate].
    intros [= <- <-]. right; right; left. exists l, r, res.
    repeat split; try reflexivity; eapply queryAvailable_quiet; eauto.
  - destruct (SeatBookingSystem.isAvailable seat l r s) as [[res s1]|f] eqn:E;
      [|discriminate].
    intros [= <- <-]. right; right; right.
    repeat split; try reflexivity; eapply isAvailable_quiet; eauto.
  - destruct (SeatBookingSystem.getSeatStatus seat s) as [[res s1]|f] eqn:E;
      [|discriminate].
    intros [= <- <-]. right; right; right.
    repeat split; try reflexivity; eapply getSeatStatus_quiet; eauto.
Qed.

Lemma active_count_deactivate bs : forall i b,
  bs !! i = Some b -> SeatBookingSystem.active b = true ->
  Z.of_nat (length (filter (fun b => SeatBookingSystem.active b = true)
                      (<[i := deactivated b]> bs))) =
  Z.of_nat (length (filter (fun b => SeatBookingSystem.active b = true) bs)) - 1.
Proof.
  induction bs as [|b0 bs IH]; intros [|i] b Hb Ha; try discriminate.
  - injection Hb as ->.
    change (<[0%nat := deactivated b]> (b :: bs)) with (deactivated b :: bs).
    rewrite filter_cons_False by (cbn; discriminate).
    rewrite filter_cons_True by exact Ha. cbn [length]. lia.
  - change (<[S i := deactivated b]> (b0 :: bs))
      with (b0 :: <[i := deactivated b]> bs).
    cbn in Hb. specialize (IH i b Hb Ha). rewrite !filter_cons.
    destruct (decide (SeatBookingSystem.active b0 = true)); cbn [length]; lia.
Qed.

(** One call: the counter, the length of the log and the number of active
    bookings move as the call and its reply say. *)
Lemma exec_counts c s x s' :
  wf_sys s -> exec c s = Ok (x, s') ->
  SeatBookingSystem.operationCount s' =
    SeatBookingSystem.operationCount s + (if is_counted c then 1 else 0) /\
  Z.of_nat (length (SeatBookingSystem.bookings s')) =
    Z.of_nat (length (SeatBookingSystem.bookings s)) + (if booked c x then 1 else 0) /\
  SeatBookingSystem.getActiveBookings s' =
    SeatBookingSystem.getActiveBookings s + (if booked c x then 1 else 0)
    - (if cancelled c x then 1 else 0).
Proof.
  intros Hwf H. unfold SeatBookingSystem.getActiveBookings.
  destruct (exec_cases c s x s' Hwf H)
    as [(seat & l & r & res & -> & -> & Ho)
       |[(seat & l & r & res & -> & -> & Ho)
        |[(l & r & res & -> & -> & Hq)|(Hc & Hb & Hx & Hq)]]].
  - destruct Ho; cbn; rewrite ?Z.add_0_r, ?Z.sub_0_r; try (repeat split; reflexivity).
    rewrite length_app, filter_app, length_app.
    rewrite filter_cons_True by reflexivity. rewrite filter_nil.
    cbn [length]. repeat split; lia.
  - destruct Ho as [| | |i b tr tr' g' Hseat Hrange Hfind Htr Hu Hg]; cbn;
      rewrite ?Z.add_0_r, ?Z.sub_0_r; try (repeat split; reflexivity).
    apply find_Some in Hfind as (Hi & Hm & _). apply matches_true in Hm as (_ & _ & _ & Ha).
    rewrite length_insert, (active_count_deactivate _ _ _ Hi Ha). repeat split; lia.
  - destruct Hq as (_ & _ & _ & _ & Eb & Ec & _). cbn. rewrite Eb, Ec.
    repeat split; lia.
  - destruct Hq as (_ & _ & _ & _ & Eb & Ec & _). rewrite Hc, Hb, Hx, Eb, Ec.
    repeat split; lia.
Qed.

Lemma log_extends_refl bs : log_extends bs bs.
Proof. intros i b Hb. exists b. auto 10. Qed.

Lemma log_extends_trans bs1 bs2 bs3 :
  log_extends bs1 bs2 -> log_extends bs2 bs3 -> log_extends bs1 bs3.
Proof.
  intros H1 H2 i b Hb.
  destruct (H1 i b Hb) as (b2 & Hb2 & E1 & E2 & E3 & E4 & Ha).
  destruct (H2 i b2 Hb2) as (b3 & Hb3 & F1 & F2 & F3 & F4 & Ha').
  exists b3. repeat split; try congruence. auto.
Qed.

(** One call: the configuration stays, the log is continued, and the ids
    stay consecutive. *)
Lemma exec_log c s x s' :
  wf_sys s -> exec c s = Ok (x, s') ->
  same_config s s' /\
  log_extends (SeatBookingSystem.bookings s) (SeatBookingSystem.bookings s') /\
  (ids_consecutive (SeatBookingSystem.bookings s) ->
   ids_consecutive (SeatBookingSystem.bookings s')).
Proof.
  intros Hwf H.
  destruct (exec_cases c s x s' Hwf H)
    as [(seat & l & r & res & -> & -> & Ho)
       |[(seat & l & r & res & -> & -> & Ho)
        |[(l & r & res & -> & -> & Hq)|(Hc & Hb & Hx & Hq)]]].
  - destruct Ho; cbn;
      [split; [repeat split|split; [apply log_extends_refl|auto]]..|].
    split; [repeat split|split].
    + intros i b Hb. exists b. rewrite lookup_app_l by (now apply lookup_lt_Some in Hb).
      auto 10.
    + intros Hids i b Hb. apply lookup_app_Some in Hb as [Hb|[Hlen Hb]].
      * now apply Hids.
      * apply list_lookup_singleton_Some in Hb as [Hi <-]. cbn. lia.
  - destruct Ho as [| | |i0 b0 tr tr' g' Hseat Hrange Hfind Htr Hu Hg]; cbn;
      [split; [repeat split|split; [apply log_extends_refl|auto]]..|].
    split; [repeat split|split].
    + apply find_Some in Hfind as (Hi & _).
      intros i b Hb. destruct (decide (i = i0)) as [->|Hne].
      * rewrite Hi in Hb. injection Hb as <-. exists (deactivated b0).
        rewrite list_lookup_insert_eq by (now apply lookup_lt_Some in Hi).
        cbn. repeat split; auto. discriminate.
      * exists b. rewrite list_lookup_insert_ne by auto. auto 10.
    + apply find_Some in Hfind as (Hi & _).
      intros Hids i b Hb. destruct (decide (i = i0)) as [->|Hne].
      * rewrite list_lookup_insert_eq in Hb by (now apply lookup_lt_Some in Hi).
        injection Hb as <-. cbn. now apply Hids.
      * rewrite list_lookup_insert_ne in Hb by auto. now apply Hids.
  - destruct Hq as (E1 & E2 & E3 & _ & Eb & _). rewrite Eb.
    split; [repeat split; assumption|]. split; [apply log_extends_refl|auto].
  - destruct Hq as (E1 & E2 & E3 & _ & Eb & _). rewrite Eb.
    split; [repeat split; assumption|]. split; [apply log_extends_refl|auto].
Qed.

Lemma reachable_ids s : reachable s -> ids_consecutive (SeatBookingSystem.bookings s).
Proof.
  induction 1 as [numSeats numStations s H|s seat l r res s' Hr IH H|s seat l r res s' Hr IH H
                  |s l r res s' Hr IH H|s seat l r res s' Hr IH H|s seat res s' Hr IH H].
  - unfold SeatBookingSystem.constructor in H.
    destruct (SeatBookingSystem.pushSeats _ _ _); [|discriminate].
    destruct (SegmentTree.constructor _); [|discriminate].
    injection H as <-. intros i b Hb. discriminate.
  - apply (exec_log (Book seat l r) s (Result res) s' (reachable_wf s Hr)); [|exact IH].
    unfold exec, bind. now rewrite H.
  - apply (exec_log (Cancel seat l r) s (Result res) s' (reachable_wf s Hr)); [|exact IH].
    unfold exec, bind. now rewrite H.
  - apply (exec_log (QueryAvailable l r) s (Seats res) s' (reachable_wf s Hr));
      [|exact IH].
    unfold exec, bind. now rewrite H.
  - apply (exec_log (IsAvailable seat l r) s (Answer res) s' (reachable_wf s Hr));
      [|exact IH].
    unfold exec, bind. now rewrite H.
  - apply (exec_log (GetSeatStatus seat) s (Status res) s' (reachable_wf s Hr));
      [|exact IH].
    unfold exec, bind. now rewrite H.
Qed.

(** X8.  No call faults on a reachable ledger: every sequence of [book],
    [cancel], [queryAvailable], [isAvailable] and [getSeatStatus] calls, with
    any arguments, runs to the end with one reply per call.  No seat is
    looked up outside [seats], no tree cell outside its array. *)
Theorem X8_calls_never_fault s cs :
  reachable s ->
  exists xs s', run_commands cs s = Ok (xs, s') /\ length xs = length cs /\ reachable s'.
Proof.
  revert s. induction cs as [|c cs IH]; intros s Hreach.
  - exists [], s. auto.
  - destruct (exec_total c s (reachable_wf s Hreach)) as (x & s1 & E).
    destruct (IH s1 (exec_reachable c s x s1 Hreach E)) as (xs & s' & Hrun & Hlen & Hr).
    exists (x :: xs), s'. cbn [run_commands]. unfold bind at 1. rewrite E.
    unfold bind at 1. rewrite Hrun. cbn. auto.
Qed.

Lemma X8_witness :
  reachable fresh_ledger /\
  exists xs s',
    run_commands [Book 0 0 5; Book 3 (-1) 40; IsAvailable 0 4 9; Cancel 0 0 5;
                  GetSeatStatus 0; QueryAvailable 0 9; Cancel 0 0 5] fresh_ledger
    = Ok (xs, s') /\ length xs = 7%nat.
Proof.
  split; [exact fresh_ledger_reachable|].
  destruct (X8_calls_never_fault fresh_ledger
              [Book 0 0 5; Book 3 (-1) 40; IsAvailable 0 4 9; Cancel 0 0 5;
               GetSeatStatus 0; QueryAvailable 0 9; Cancel 0 0 5]
              fresh_ledger_reachable) as (xs & s' & E & Hlen & _).
  exists xs, s'. split; [exact E|exact Hlen].
Defined.

(** X9.  The counters over a run of calls: [operationCount] grows by the
    number of [book], [cancel] and [queryAvailable] calls, whether they
    succeed or not ([isAvailable] and [getSeatStatus] are not counted); the
    log grows by one record per successful [book] and never shrinks; and
    [getActiveBookings] moves by the successful bookings minus the
    successful cancellations. *)
Theorem X9_counters_follow_the_calls cs : forall s xs s',
  reachable s -> run_commands cs s = Ok (xs, s') ->
  SeatBookingSystem.operationCount s' =
    SeatBookingSystem.operationCount s + tally (fun c _ => is_counted c) cs xs /\
  Z.of_nat (length (SeatBookingSystem.bookings s')) =
    Z.of_nat (length (SeatBookingSystem.bookings s)) + tally booked cs xs /\
  SeatBookingSystem.getActiveBookings s' =
    SeatBookingSystem.getActiveBookings s + tally booked cs xs - tally cancelled cs xs.
Proof.
  induction cs as [|c cs IH]; intros s xs s' Hreach H.
  - injection H as <- <-. cbn. repeat split; lia.
  - apply run_commands_cons in H as (x & s1 & xs' & E & Hrun & ->).
    destruct (exec_counts c s x s1 (reachable_wf s Hreach) E) as (E1 & E2 & E3).
    destruct (IH s1 xs' s' (exec_reachable c s x s1 Hreach E) Hrun) as (F1 & F2 & F3).
    cbn [tally]. repeat split; lia.
Qed.

Lemma X9_witness :
  reachable fresh_ledger /\
  exists xs s',
    run_commands [Book 0 0 5; Book 0 2 3; IsAvailable 0 4 9; Cancel 0 0 5;
                  QueryAvailable 0 9] fresh_ledger = Ok (xs, s') /\
    SeatBookingSystem.operationCount s' = 4 /\
    length (SeatBookingSystem.bookings s') = 1%nat /\
    SeatBookingSystem.getActiveBookings s' = 0.
Proof.
  split; [exact fresh_ledger_reachable|].
  destruct (run_commands [Book 0 0 5; Book 0 2 3; IsAvailable 0 4 9; Cancel 0 0 5;
                          QueryAvailable 0 9] fresh_ledger) as [[xs s']|f] eqn:E.
  2:{ vm_compute in E. discriminate E. }
  exists xs, s'. split; [reflexivity|].
  destruct (X9_counters_follow_the_calls _ _ _ _ fresh_ledger_reachable E)
    as (H1 & H2 & H3).
  pose proof E as E'. vm_compute in E'. injection E' as Hxs _. subst xs.
  cbn in H1, H2, H3. split; [exact H1|]. split; [lia|exact H3].
Defined.

(** X10.  The bookings log is append-only.  In a reachable ledger the
    record at position [i] has id [i + 1] and a seat and range that passed
    validation.  Over any run of calls the seat, station and segment counts
    stay as constructed, every record stays at its position with its id,
    seat and range, and a record that is inactive is never active again. *)
Theorem X10_log_is_append_only s :
  reachable s ->
  (forall i b, SeatBookingSystem.bookings s !! i = Some b ->
     SeatBookingSystem.id b = Z.of_nat i + 1 /\
     0 <= SeatBookingSystem.seatId b < SeatBookingSystem.numSeats s /\
     0 <= SeatBookingSystem.from b < SeatBookingSystem.to b /\
     SeatBookingSystem.to b <= SeatBookingSystem.numStations s) /\
  (forall cs xs s', run_commands cs s = Ok (xs, s') ->
     same_config s s' /\
     log_extends (SeatBookingSystem.bookings s) (SeatBookingSystem.bookings s')).
Proof.
  intros Hreach. split.
  - intros i b Hb. split; [exact (reachable_ids s Hreach i b Hb)|].
    pose proof (reachable_wf s Hreach) as (_ & _ & _ & _ & _ & Hbs).
    destruct (proj1 (Forall_lookup _ _) Hbs i b Hb) as [Hs Hr].
    apply invalidSeat_false in Hs. apply invalidRange_false in Hr. lia.
  - intros cs. revert s Hreach. induction cs as [|c cs IH]; intros s Hreach xs s' H.
    + injection H as <- <-. split; [repeat split|apply log_extends_refl].
    + apply run_commands_cons in H as (x & s1 & xs' & E & Hrun & ->).
      destruct (exec_log c s x s1 (reachable_wf s Hreach) E) as ((A1 & A2 & A3) & Hlog & _).
      destruct (IH s1 (exec_reachable c s x s1 Hreach E) xs' s' Hrun)
        as ((B1 & B2 & B3) & Hlog').
      split; [repeat split; congruence|]. eapply log_extends_trans; eauto.
Qed.

Lemma X10_witness :
  reachable ledger_booked_0_5 /\
  exists xs s' b,
    run_commands [Cancel 0 0 5; Book 0 0 5] ledger_booked_0_5 = Ok (xs, s') /\
    SeatBookingSystem.bookings s' !! 0%nat = Some b /\
    SeatBookingSystem.id b = 1 /\ SeatBookingSystem.active b = false.
Proof.
  split; [exact ledger_booked_0_5_reachable|].
  destruct (run_commands [Cancel 0 0 5; Book 0 0 5] ledger_booked_0_5)
    as [[xs s']|f] eqn:E.
  2:{ vm_compute in E. discriminate E. }
  destruct (X10_log_is_append_only _ ledger_booked_0_5_reachable) as (_ & H).
  destruct (H _ _ _ E) as (_ & Hlog).
  destruct (Hlog 0%nat (SeatBookingSystem.mkBooking 1 0 0 5 true) eq_refl)
    as (b & Hb & Hid & _).
  exists xs, s', b. split; [reflexivity|]. split; [exact Hb|]. split; [exact Hid|].
  pose proof E as E'. vm_compute in E'. injection E' as _ <-.
  cbn in Hb. injection Hb as <-. reflexivity.
Defined.

(** ** A successful booking *)

Lemma isAvailable_point s seat i :
  wf_sys s -> seats_count_active s ->
  0 <= seat < SeatBookingSystem.numSeats s ->
  0 <= i < SeatBookingSystem.numSegments s ->
  exists s', SeatBookingSystem.isAvailable seat i (i + 1) s =
             Ok (spec_seatCount (SeatBookingSystem.bookings s) seat i =? 0, s').
Proof.
  intros Hwf Hinv Hseat Hi. pose proof Hwf as (Eseg & _).
  assert (Hvs : SeatBookingSystem.invalidSeat seat (SeatBookingSystem.numSeats s) = false)
    by (apply invalidSeat_false; lia).
  assert (Hvr : SeatBookingSystem.invalidRange i (i + 1)
                  (SeatBookingSystem.numStations s) = false)
    by (apply invalidRange_false; lia).
  destruct (wf_sys_seat_exists _ _ Hwf Hvs) as [tr Htr].
  destruct (wf_sys_seat _ _ _ Hwf Htr) as [Hwt _].
  destruct (query_spec i (i + 1) tr Hwt ltac:(lia)) as (v & tr1 & Eq & _).
  destruct (point_value s seat i tr v tr1 Hwf Hinv ltac:(lia) Hi Htr Eq) as [Hv0 Hv].
  exists (withSeat seat tr1 s).
  unfold SeatBookingSystem.isAvailable, bind, SeatBookingSystem.get.
  rewrite Hvs, Hvr. erewrite onSeat_ok; [|lia|exact Htr|exact Eq].
  unfold ret. do 2 f_equal.
  destruct (Z.eqb_spec v 0), (Z.eqb_spec (spec_seatCount (SeatBookingSystem.bookings s)
                                            seat i) 0); tauto.
Qed.

(** X11.  What a successful [book(seat, l, r)] does on a reachable ledger:
    it returns the id [length of the log + 1] and appends the active record
    with that id; the global tree and the tree of the seat show one more at
    each segment of [[l, r)] and the same elsewhere; the trees of the other
    seats are untouched; and afterwards every single segment of the range
    reads as not available for that seat. *)
Theorem X11_booking_adds_one s seat l r res s' :
  reachable s ->
  SeatBookingSystem.book seat l r s = Ok (res, s') ->
  SeatBookingSystem.success res = true ->
  SeatBookingSystem.bookingId res =
    Some (Z.of_nat (length (SeatBookingSystem.bookings s)) + 1) /\
  SeatBookingSystem.bookings s' =
    SeatBookingSystem.bookings s ++
    [SeatBookingSystem.mkBooking
       (Z.of_nat (length (SeatBookingSystem.bookings s)) + 1) seat l r true] /\
  same_other_seats seat s s' /\
  forall i, 0 <= i < SeatBookingSystem.numSegments s ->
    SegmentTree.effectiveLeaf (SeatBookingSystem.globalTree s') i =
      SegmentTree.effectiveLeaf (SeatBookingSystem.globalTree s) i
      + (if covers l r i then 1 else 0) /\
    (exists tr tr',
       SeatBookingSystem.seats s !! Z.to_nat seat = Some tr /\
       SeatBookingSystem.seats s' !! Z.to_nat seat = Some tr' /\
       SegmentTree.effectiveLeaf tr' i =
         SegmentTree.effectiveLeaf tr i + (if covers l r i then 1 else 0)) /\
    (covers l r i = true ->
     exists s'', SeatBookingSystem.isAvailable seat i (i + 1) s' = Ok (false, s'')).
Proof.
  intros Hreach Hbook Hsucc. pose proof (reachable_wf s Hreach) as Hwf.
  pose proof (reach_book _ _ _ _ _ _ Hreach Hbook) as Hreach'.
  pose proof (reachable_wf s' Hreach') as Hwf'.
  pose proof (reachable_seats_count_active s' Hreach') as Hinv'.
  pose proof (reachable_seats_count_active s Hreach) as Hinv.
  apply book_run in Hbook.
  destruct Hbook as [Hseat|Hseat Hrange|tr v tr1 Hseat Hrange Htr Hq Hv
                     |tr v tr1 tr2 g2 Hseat Hrange Htr Hq Hv Hu Hg];
    try discriminate Hsucc.
  match type of Hwf' with wf_sys ?x => set (s1 := x) in * end.
  pose proof (proj1 (invalidRange_false _ _ _) Hrange) as (Hl & _).
  pose proof (proj1 (invalidSeat_false _ _) Hseat) as Hs.
  destruct (wf_sys_seat _ _ _ Hwf Htr) as [Hwt Hnt].
  pose proof Hwf as (_ & _ & _ & Hwg & Hng & _).
  destruct (query_spec l r tr Hwt Hl) as (v' & tr1' & Eq & [Hsh1 Hleaf1] & _).
  rewrite Hq in Eq. injection Eq as <- <-.
  pose proof (shape_wf _ _ Hsh1 Hwt) as Hwt1.
  destruct (update_spec l r 1 tr1 Hwt1 Hl) as (tr2' & Eu & Hsh2 & Hleaf2).
  rewrite Hu in Eu. injection Eu as <-.
  destruct (update_spec l r 1 _ Hwg Hl) as (g2' & Eg & Hshg2 & Hgleaf2).
  rewrite Hg in Eg. injection Eg as <-.
  destruct Hsh1 as (En1 & _).
  assert (Htr2 : SeatBookingSystem.seats s1 !! Z.to_nat seat = Some tr2).
  { cbn. apply list_lookup_insert_eq. rewrite length_insert.
    now apply lookup_lt_Some in Htr. }
  split; [reflexivity|]. split; [reflexivity|]. split.
  { intros k Hk. cbn. now rewrite !list_lookup_insert_ne by auto. }
  intros i Hi.
  assert (Hleaf : SegmentTree.effectiveLeaf tr2 i =
                  SegmentTree.effectiveLeaf tr i + (if covers l r i then 1 else 0)).
  { rewrite Hleaf2, Hleaf1 by lia. reflexivity. }
  split; [apply Hgleaf2; lia|]. split; [exists tr, tr2; auto|].
  intros Hc.
  destruct (isAvailable_point s1 seat i Hwf' Hinv' Hs Hi) as (s'' & E).
  exists s''. rewrite E. do 2 f_equal. apply Z.eqb_neq.
  pose proof (Hinv' _ _ i Htr2 Hi) as E2.
  pose proof (Hinv _ _ i Htr Hi) as E1.
  replace (Z.of_nat (Z.to_nat seat)) with seat in E1, E2 by lia.
  pose proof (spec_seatCount_nonneg (SeatBookingSystem.bookings s) seat i).
  rewrite <- E2, Hleaf, E1, Hc. lia.
Qed.

Lemma X11_witness :
  reachable fresh_ledger /\
  SeatBookingSystem.book 0 0 5 fresh_ledger =
    Ok (SeatBookingSystem.mkResult true (SeatBookingSystem.SeatBooked 1 1 6) (Some 1),
        ledger_booked_0_5) /\
  SegmentTree.effectiveLeaf (SeatBookingSystem.globalTree ledger_booked_0_5) 4 = 1 /\
  exists s'', SeatBookingSystem.isAvailable 0 4 5 ledger_booked_0_5 = Ok (false, s'').
Proof.
  split; [exact fresh_ledger_reachable|]. split; [exact ledger_booked_0_5_run|].
  destruct (X11_booking_adds_one fresh_ledger 0 0 5 _ _
              fresh_ledger_reachable ledger_booked_0_5_run eq_refl)
    as (_ & _ & _ & H).
  destruct (H 4) as (Hg & _ & Ha).
  { vm_compute; split; [discriminate|reflexivity]. }
  split; [rewrite Hg; reflexivity|]. apply Ha. reflexivity.
Defined.

(** ** [queryAvailable] against [isAvailable] *)

Lemma isAvailableNow_seat s l r seat tr v tr' :
  SeatBookingSystem.invalidSeat seat (SeatBookingSystem.numSeats s) = false ->
  SeatBookingSystem.invalidRange l r (SeatBookingSystem.numStations s) = false ->
  SeatBookingSystem.seats s !! Z.to_nat seat = Some tr ->
  SegmentTree.query l r tr = Ok (v, tr') ->
  isAvailableNow s l r seat = (v =? 0).
Proof.
  intros Hseat Hrange Htr Hq.
  unfold isAvailableNow, SeatBookingSystem.isAvailable, bind, SeatBookingSystem.get.
  rewrite Hseat, Hrange. apply invalidSeat_false in Hseat.
  erewrite onSeat_ok; [|lia|exact Htr|exact Hq]. reflexivity.
Qed.

Lemma isAvailableNow_invalid s l r seat :
  SeatBookingSystem.invalidRange l r (SeatBookingSystem.numStations s) = true ->
  isAvailableNow s l r seat = false.
Proof.
  intros Hrange.
  unfold isAvailableNow, SeatBookingSystem.isAvailable, bind, SeatBookingSystem.get.
  rewrite Hrange. now destruct (SeatBookingSystem.invalidSeat _ _).
Qed.

Lemma filter_none {A : Type} (P : A -> Prop) `{!forall x, Decision (P x)} (l : list A) :
  Forall (fun x => ~ P x) l -> filter P l = [].
Proof.
  induction 1 as [|x l Hx _ IH]; [reflexivity|].
  now rewrite filter_cons_False.
Qed.

Lemma filter_all {A : Type} (P : A -> Prop) `{!forall x, Decision (P x)} (l : list A) :
  Forall P l -> filter P l = l.
Proof.
  induction 1 as [|x l Hx _ IH]; [reflexivity|].
  rewrite filter_cons_True by exact Hx. now rewrite IH.
Qed.

Lemma queryAvailableLoop_filter s0 l r seatIds : forall acc s res s',
  wf_sys s ->
  SeatBookingSystem.invalidRange l r (SeatBookingSystem.numStations s0) = false ->
  SeatBookingSystem.numSeats s = SeatBookingSystem.numSeats s0 ->
  NoDup seatIds ->
  Forall (fun k => SeatBookingSystem.invalidSeat k (SeatBookingSystem.numSeats s0) = false)
         seatIds ->
  (forall k, k ∈ seatIds ->
     SeatBookingSystem.seats s !! Z.to_nat k = SeatBookingSystem.seats s0 !! Z.to_nat k) ->
  SeatBookingSystem.queryAvailableLoop seatIds l r acc s = Ok (res, s') ->
  res = acc ++ filter (fun k => isAvailableNow s0 l r k = true) seatIds.
Proof.
  induction seatIds as [|seat rest IH]; intros acc s res s' Hwf Hrange En Hnd Hall Hsame H.
  - injection H as <- <-. now rewrite filter_nil, app_nil_r.
  - cbn [SeatBookingSystem.queryAvailableLoop] in H. unfold bind at 1 in H.
    destruct (SeatBookingSystem.onSeat seat _ s) as [[v s1]|f] eqn:Hq; [|discriminate].
    pose proof (proj1 (invalidRange_false _ _ _) Hrange) as (Hl & _).
    destruct (onSeat_query_quiet _ _ _ _ _ _ Hwf Hl Hq) as (Hwf1 & (En1 & _) & _ & Hoth).
    apply onSeat_run in Hq as (tr & tr' & Hs0 & Htr & Hq & ->).
    inversion Hall as [|? ? Hseat Hrest]; subst.
    apply NoDup_cons in Hnd as [Hnotin Hnd].
    rewrite (Hsame seat) in Htr by constructor.
    pose proof (isAvailableNow_seat s0 l r seat tr v tr' Hseat Hrange Htr Hq) as Hnow.
    assert (Hsame1 : forall k, k ∈ rest ->
              SeatBookingSystem.seats (withSeat seat tr' s) !! Z.to_nat k =
              SeatBookingSystem.seats s0 !! Z.to_nat k).
    { intros k Hk. rewrite Hoth.
      - apply Hsame. now constructor.
      - pose proof (proj1 (Forall_forall _ _) Hrest k Hk) as Hkv.
        apply invalidSeat_false in Hkv. intros Heq.
        assert (k = seat) by lia. subst k. contradiction. }
    rewrite filter_cons. rewrite Hnow.
    destruct (v =? 0).
    + rewrite decide_True by reflexivity.
      rewrite (IH _ _ _ _ Hwf1 Hrange ltac:(congruence) Hnd Hrest Hsame1 H).
      now rewrite <- app_assoc.
    + rewrite decide_False by discriminate.
      exact (IH _ _ _ _ Hwf1 Hrange ltac:(congruence) Hnd Hrest Hsame1 H).
Qed.

(** X12.  [queryAvailable(l, r)] on a reachable ledger lists exactly the
    seats for which [isAvailable(seat, l, r)] answers true on that ledger,
    each once and in increasing order; for a range that fails validation
    both give nothing. *)
Theorem X12_queryAvailable_lists_isAvailable s l r res s' :
  reachable s ->
  SeatBookingSystem.queryAvailable l r s = Ok (res, s') ->
  SeatBookingSystem.Availability.available res =
  filter (fun seat => isAvailableNow s l r seat = true)
         (seqZ 0 (SeatBookingSystem.numSeats s)).
Proof.
  intros Hreach H. pose proof (reachable_wf s Hreach) as Hwf.
  apply queryAvailable_run in H as [(Hrange & -> & _)|(Hrange & av & Hloop & ->)].
  - cbn. symmetry. apply filter_none. apply Forall_forall. intros k _.
    rewrite (isAvailableNow_invalid _ _ _ _ Hrange). discriminate.
  - cbn. apply (queryAvailableLoop_filter s l r) in Hloop; auto.
    + apply NoDup_seqZ.
    + apply seqZ_valid_seats.
Qed.

Lemma X12_witness :
  reachable ledger_booked_0_5 /\
  (exists res s', SeatBookingSystem.queryAvailable 2 4 ledger_booked_0_5 = Ok (res, s') /\
                  SeatBookingSystem.Availability.available res = []) /\
  (exists res s', SeatBookingSystem.queryAvailable 5 9 ledger_booked_0_5 = Ok (res, s') /\
                  SeatBookingSystem.Availability.available res = [0]).
Proof.
  split; [exact ledger_booked_0_5_reachable|]. split.
  - destruct (SeatBookingSystem.queryAvailable 2 4 ledger_booked_0_5)
      as [[res s']|f] eqn:E.
    2:{ vm_compute in E. discriminate E. }
    exists res, s'. split; [reflexivity|].
    rewrite (X12_queryAvailable_lists_isAvailable _ _ _ _ _
               ledger_booked_0_5_reachable E).
    vm_compute. reflexivity.
  - destruct (SeatBookingSystem.queryAvailable 5 9 ledger_booked_0_5)
      as [[res s']|f] eqn:E.
    2:{ vm_compute in E. discriminate E. }
    exists res, s'. split; [reflexivity|].
    rewrite (X12_queryAvailable_lists_isAvailable _ _ _ _ _
               ledger_booked_0_5_reachable E).
    vm_compute. reflexivity.
Defined.

(** ** A new ledger *)

Lemma constructor_blank n s : SegmentTree.constructor n = Ok s -> blank s.
Proof.
  unfold SegmentTree.constructor, SegmentTree.newArray.
  destruct ((0 <=? 4 * n) && (4 * n <? 2 ^ 32)); [|discriminate].
  intros [= <-]. split; cbn; apply Forall_replicate; reflexivity.
Qed.

Lemma query_rec_blank fuel : forall l r node start end_ s v s',
  blank s ->
  SegmentTree.query_rec fuel l r node start end_ s = Ok (v, s') -> v = 0 /\ s' = s.
Proof.
  induction fuel as [|fuel IH]; intros l r node start end_ s v s' [Ht Hz] H;
    cbn [SegmentTree.query_rec] in H; [discriminate|].
  destruct ((r <=? start) || (end_ <=? l)); [now injection H as <- <-|].
  destruct ((l <=? start) && (end_ <=? r)).
  - unfold SegmentTree.getTree in H.
    destruct (SegmentTree.tree s !! node) as [x|] eqn:E; [|discriminate].
    injection H as <- <-. split; [|reflexivity].
    exact (proj1 (Forall_lookup _ _) Ht node x E).
  - unfold bind at 1 in H.
    assert (Hp : SegmentTree.pushDown node s = Ok (tt, s) \/
                 exists f, SegmentTree.pushDown node s = Err f).
    { destruct (SegmentTree.lazy s !! node) as [x|] eqn:E.
      - left. unfold SegmentTree.pushDown. unfold bind at 1.
        unfold SegmentTree.getLazy at 1. rewrite E.
        rewrite (proj1 (Forall_lookup _ _) Hz node x E). reflexivity.
      - right. exists IndexOutOfRange. unfold SegmentTree.pushDown. unfold bind at 1.
        unfold SegmentTree.getLazy at 1. rewrite E. reflexivity. }
    destruct Hp as [Hp|[f Hp]]; rewrite Hp in H; [|discriminate].
    unfold bind at 1 in H.
    destruct (SegmentTree.query_rec fuel l r (2 * node + 1) _ _ s)
      as [[a s1]|f] eqn:Hleft; [|discriminate].
    apply IH in Hleft as [-> ->]; [|split; auto].
    unfold bind at 1 in H.
    destruct (SegmentTree.query_rec fuel l r (2 * node + 2) _ _ s)
      as [[b s2]|f] eqn:Hright; [|discriminate].
    apply IH in Hright as [-> ->]; [|split; auto].
    injection H as <- <-. auto.
Qed.

Lemma withSeat_id s seat tr :
  SeatBookingSystem.seats s !! Z.to_nat seat = Some tr -> withSeat seat tr s = s.
Proof.
  intros Htr. destruct s. unfold withSeat; cbn in *. f_equal.
  now apply list_insert_id.
Qed.

Lemma onSeat_query_blank s seat l r tr :
  wf_sys s -> 0 <= seat -> 0 <= l ->
  SeatBookingSystem.seats s !! Z.to_nat seat = Some tr -> blank tr ->
  SeatBookingSystem.onSeat seat (SegmentTree.query l r) s = Ok (0, s) /\
  SegmentTree.query l r tr = Ok (0, tr).
Proof.
  intros Hwf Hs Hl Htr Hblank.
  destruct (wf_sys_seat _ _ _ Hwf Htr) as [Hwt _].
  destruct (query_spec l r tr Hwt Hl) as (v & tr1 & Eq & _).
  pose proof Eq as Eq'. unfold SegmentTree.query in Eq'.
  apply query_rec_blank in Eq' as [-> ->]; [|exact Hblank].
  split; [|exact Eq].
  erewrite onSeat_ok; [|exact Hs|exact Htr|exact Eq].
  now rewrite withSeat_id.
Qed.

Lemma constructor_seats_blank numSeats numStations s :
  SeatBookingSystem.constructor numSeats numStations = Ok s ->
  Forall blank (SeatBookingSystem.seats s).
Proof.
  unfold SeatBookingSystem.constructor.
  destruct (SeatBookingSystem.pushSeats _ _ _) as [seats|f] eqn:Hseats; [|discriminate].
  destruct (SegmentTree.constructor _) as [g|f] eqn:Hg; [|discriminate].
  intros [= <-]. cbn. apply pushSeats_new in Hseats; [|constructor].
  eapply Forall_impl; [exact Hseats|]. intros tr. apply constructor_blank.
Qed.

(** X13.  The station counts the constructor refuses.  For
    [numStations < 1] the length [4 * (numStations - 1)] handed to
    [new Array] is negative, for [numStations > 2^30] it is [2^32] or more:
    [new SeatBookingSystem(numSeats, numStations)] throws in both cases,
    whatever [numSeats] is.  So a ledger that was built has
    [1 <= numStations <= 2^30]; it has an empty log, the counter at 0,
    [numStations - 1] segments, one tree per seat (none for a negative
    [numSeats]) and no active booking.  Whether the constructor returns for
    a count inside the bounds depends on the memory at hand and is not
    claimed. *)
Theorem X13_constructor_refuses_bad_station_counts numSeats numStations :
  (~ 1 <= numStations <= 2 ^ 30 ->
   SeatBookingSystem.constructor numSeats numStations = Err InvalidArrayLength) /\
  forall s, SeatBookingSystem.constructor numSeats numStations = Ok s ->
    1 <= numStations <= 2 ^ 30 /\
    SeatBookingSystem.bookings s = [] /\ SeatBookingSystem.operationCount s = 0 /\
    SeatBookingSystem.numSegments s = numStations - 1 /\
    length (SeatBookingSystem.seats s) = Z.to_nat numSeats /\
    SeatBookingSystem.getActiveBookings s = 0.
Proof.
  assert (Hbad : ~ 1 <= numStations <= 2 ^ 30 ->
                 SegmentTree.constructor (numStations - 1) = Err InvalidArrayLength).
  { intros Hn. unfold SegmentTree.constructor, SegmentTree.newArray.
    replace ((0 <=? 4 * (numStations - 1)) && (4 * (numStations - 1) <? 2 ^ 32))
      with false; [reflexivity|].
    symmetry. apply andb_false_iff.
    destruct (Z_le_gt_dec 1 numStations); [right; apply Z.ltb_ge|left; apply Z.leb_gt];
      lia. }
  assert (Hfail : ~ 1 <= numStations <= 2 ^ 30 ->
                  SeatBookingSystem.constructor numSeats numStations
                  = Err InvalidArrayLength).
  { intros Hn. unfold SeatBookingSystem.constructor.
    destruct (Z.to_nat numSeats) as [|count]; cbn [SeatBookingSystem.pushSeats].
    - now rewrite (Hbad Hn).
    - now rewrite (Hbad Hn). }
  split; [exact Hfail|].
  intros s Hs. split.
  - destruct (Z_le_gt_dec 1 numStations), (Z_le_gt_dec numStations (2 ^ 30));
      try lia; rewrite Hfail in Hs by lia; discriminate.
  - pose proof (constructor_wf_sys _ _ _ Hs) as (_ & Hlen & _).
    revert Hs Hlen. unfold SeatBookingSystem.constructor.
    destruct (SeatBookingSystem.pushSeats _ _ _) as [seats|f]; [|discriminate].
    destruct (SegmentTree.constructor _) as [g|f]; [|discriminate].
    intros [= <-]. cbn. auto.
Qed.

(** X14.  On a ledger as constructed every seat is free: for a valid seat
    and a range that passes validation [isAvailable] answers true and
    [book] succeeds, [getSeatStatus] answers ['available'] for every seat
    id, and [queryAvailable] lists all seats; the two read-only calls leave
    the ledger exactly as it was. *)
Theorem X14_new_ledger_is_free numSeats numStations s :
  SeatBookingSystem.constructor numSeats numStations = Ok s ->
  (forall seat l r,
     0 <= seat < numSeats -> 0 <= l < r -> r <= numStations ->
     SeatBookingSystem.isAvailable seat l r s = Ok (true, s) /\
     exists res s', SeatBookingSystem.book seat l r s = Ok (res, s') /\
                    SeatBookingSystem.success res = true) /\
  (forall seat,
     SeatBookingSystem.getSeatStatus seat s = Ok (SeatBookingSystem.Available, s)) /\
  (forall l r res s',
     0 <= l < r -> r <= numStations ->
     SeatBookingSystem.queryAvailable l r s = Ok (res, s') ->
     SeatBookingSystem.Availability.available res = seqZ 0 numSeats).
Proof.
  intros Hnew. pose proof (constructor_wf_sys _ _ _ Hnew) as Hwf.
  pose proof (constructor_seats_blank _ _ _ Hnew) as Hblank.
  assert (En : SeatBookingSystem.numSeats s = numSeats /\
               SeatBookingSystem.numStations s = numStations).
  { revert Hnew. unfold SeatBookingSystem.constructor.
    destruct (SeatBookingSystem.pushSeats _ _ _) as [seats|f]; [|discriminate].
    destruct (SegmentTree.constructor _) as [g|f]; [|discriminate].
    intros [= <-]. cbn. auto. }
  destruct En as [En Em].
  assert (Hfree : forall seat l r,
            0 <= seat < numSeats -> 0 <= l < r -> r <= numStations ->
            SeatBookingSystem.isAvailable seat l r s = Ok (true, s) /\
            exists tr, SeatBookingSystem.seats s !! Z.to_nat seat = Some tr /\
                       SegmentTree.query l r tr = Ok (0, tr)).
  { intros seat l r Hseat Hl Hr.
    assert (Hvs : SeatBookingSystem.invalidSeat seat (SeatBookingSystem.numSeats s)
                  = false) by (apply invalidSeat_false; lia).
    assert (Hvr : SeatBookingSystem.invalidRange l r (SeatBookingSystem.numStations s)
                  = false) by (apply invalidRange_false; lia).
    destruct (wf_sys_seat_exists _ _ Hwf Hvs) as [tr Htr].
    pose proof (proj1 (Forall_lookup _ _) Hblank _ _ Htr) as Hb.
    destruct (onSeat_query_blank s seat l r tr Hwf ltac:(lia) ltac:(lia) Htr Hb)
      as [Hq Hq'].
    split; [|eauto].
    unfold SeatBookingSystem.isAvailable, bind, SeatBookingSystem.get.
    rewrite Hvs, Hvr, Hq. reflexivity. }
  split; [|split].
  - intros seat l r Hseat Hl Hr.
    destruct (Hfree seat l r Hseat Hl Hr) as [Ha (tr & Htr & Hq)].
    split; [exact Ha|].
    destruct (book_total s seat l r Hwf) as (res & s' & E).
    exists res, s'. split; [exact E|]. apply book_run in E.
    destruct E as [Hseat'|Hseat' Hrange|tr' v' tr1' Hseat' Hrange Htr' Hq' Hv'
                   |tr' v' tr1' tr2 g2 Hseat' Hrange Htr' Hq' Hv' Hu Hg];
      cbn [SeatBookingSystem.success]; try reflexivity.
    + apply invalidSeat_false in Hseat. congruence.
    + assert (SeatBookingSystem.invalidRange l r (SeatBookingSystem.numStations s)
              = false) by (apply invalidRange_false; lia). congruence.
    + rewrite Htr in Htr'. injection Htr' as <-. rewrite Hq in Hq'.
      injection Hq' as <- <-. lia.
  - intros seat.
    unfold SeatBookingSystem.getSeatStatus, bind, SeatBookingSystem.get.
    destruct (SeatBookingSystem.invalidSeat _ _) eqn:Hvs; [reflexivity|].
    destruct (wf_sys_seat_exists _ _ Hwf Hvs) as [tr Htr].
    pose proof (proj1 (Forall_lookup _ _) Hblank _ _ Htr) as Hb.
    apply invalidSeat_false in Hvs.
    destruct (onSeat_query_blank s seat 0 (SeatBookingSystem.numSegments s) tr Hwf
                ltac:(lia) (Z.le_refl 0) Htr Hb) as [-> _].
    reflexivity.
  - intros l r res s' Hl Hr H.
    assert (Hvr : SeatBookingSystem.invalidRange l r (SeatBookingSystem.numStations s)
                  = false) by (apply invalidRange_false; lia).
    apply queryAvailable_run in H as [(Hrange & _)|(_ & av & Hloop & ->)];
      [congruence|].
    cbn. apply (queryAvailableLoop_filter s l r) in Hloop; auto.
    + rewrite Hloop, En. cbn. apply filter_all. apply Forall_seqZ. intros k Hk.
      destruct (Hfree k l r ltac:(lia) Hl Hr) as [Ha _].
      unfold isAvailableNow. now rewrite Ha.
    + apply NoDup_seqZ.
    + apply seqZ_valid_seats.
Qed.

Lemma X14_witness :
  SeatBookingSystem.constructor 1 10 = Ok fresh_ledger /\
  SeatBookingSystem.isAvailable 0 2 7 fresh_ledger = Ok (true, fresh_ledger) /\
  SeatBookingSystem.getSeatStatus 0 fresh_ledger
    = Ok (SeatBookingSystem.Available, fresh_ledger).
Proof.
  split; [exact fresh_ledger_new|].
  destruct (X14_new_ledger_is_free 1 10 fresh_ledger fresh_ledger_new) as (H1 & H2 & _).
  split; [|apply H2].
  destruct (H1 0 2 7) as [Ha _]; [lia..|exact Ha].
Defined.

(** ** The visualisation of a tree *)

Lemma readCell_ok cells i allNodes :
  (i < length cells)%nat ->
  SegmentTree.readCell cells i allNodes = Ok (cells !!! i, allNodes).
Proof.
  intros H. unfold SegmentTree.readCell.
  destruct (lookup_lt_is_Some_2 _ _ H) as [v Hv].
  rewrite Hv. now rewrite (list_lookup_total_correct _ _ _ Hv).
Qed.

(** What [collectNodes] appends for a node of the tree: its leaves come in
    the order of their segments, each with the value of the walk to it, and
    every inner node has a leaf below it that is deeper. *)
Lemma collectNodes_spec fuel : forall s node start end_ P acc depth allNodes,
  wf s -> fits s node start end_ P ->
  0 <= start -> start < end_ -> end_ <= SegmentTree.n s ->
  (Z.to_nat (end_ - start) <= fuel)%nat ->
  exists L,
    SegmentTree.collectNodes fuel s node start end_ acc depth allNodes
      = Ok (tt, allNodes ++ L) /\
    (forall f, (Z.to_nat (end_ - start) <= f)%nat ->
       map (fun nd => (SegmentTree.Node.start nd,
                       SegmentTree.Cell.mk (SegmentTree.Node.value nd)
                                           (SegmentTree.Node.range nd)))
           (filter (fun nd => SegmentTree.Node.isLeaf nd = true) L)
       = map (fun i => (i, SegmentTree.Cell.mk
                             (SegmentTree.collectLeaf f s node start end_ acc i)
                             (i + 1, i + 2)))
             (seqZ start (end_ - start))) /\
    Forall (fun nd => depth <= SegmentTree.Node.depth nd) L /\
    Forall (fun nd => SegmentTree.Node.isLeaf nd = false ->
              exists nd', nd' ∈ L /\ SegmentTree.Node.isLeaf nd' = true /\
                          SegmentTree.Node.depth nd < SegmentTree.Node.depth nd') L.
Proof.
  induction fuel as [|fuel IH];
    intros s node start end_ P acc depth allNodes Hwf Hfit H0 Hlt Hn Hf; [lia|].
  cbn [SegmentTree.collectNodes].
  replace ((start >=? end_) || (start >=? SegmentTree.n s)) with false
    by (symmetry; apply orb_false_iff; lia).
  destruct (fits_node_bound _ _ _ _ _ Hwf Hfit) as [Hbt Hbz].
  unfold bind at 1. rewrite (readCell_ok _ _ _ Hbt).
  unfold bind at 1. unfold SegmentTree.push at 1.
  destruct (end_ - start =? 1) eqn:Hleaf.
  - apply Z.eqb_eq in Hleaf. cbn [negb]. unfold ret.
    eexists [_]. split; [reflexivity|]. split; [|split].
    + intros f Hf'. destruct f as [|f]; [lia|].
      rewrite filter_cons_True by reflexivity. rewrite filter_nil.
      cbn [SegmentTree.collectLeaf]. rewrite Hleaf.
      change (seqZ start 1) with [start].
      cbn. rewrite Z.min_l by lia.
      replace (end_ + 1) with (start + 2) by lia. reflexivity.
    + constructor; [cbn; lia|constructor].
    + constructor; [cbn; discriminate|constructor].
  - apply Z.eqb_neq in Hleaf. cbn [negb].
    assert (Hw : 2 <= end_ - start) by lia.
    pose proof (mid_bounds start end_ Hw) as Hm.
    unfold bind at 1. rewrite (readCell_ok _ _ _ Hbz).
    match goal with |- context [SegmentTree.push ?x] => set (info := x)
                  | |- context [?a ++ [?x]] => set (info := x) end.
    destruct (IH s (2 * node + 1)%nat start ((start + end_) / 2) (2 * P)
                (acc + SegmentTree.lazy s !!! node) (depth + 1) (allNodes ++ [info])
                Hwf (fits_left s s _ _ _ _ (shape_refl s) Hfit Hw))
      as (L1 & E1 & M1 & D1 & I1); [lia..|].
    unfold bind at 1. rewrite E1.
    destruct (IH s (2 * node + 2)%nat ((start + end_) / 2) end_ (2 * P)
                (acc + SegmentTree.lazy s !!! node) (depth + 1)
                ((allNodes ++ [info]) ++ L1)
                Hwf (fits_right s s _ _ _ _ (shape_refl s) Hfit Hw))
      as (L2 & E2 & M2 & D2 & I2); [lia..|].
    rewrite E2. exists (info :: L1 ++ L2). split.
    { do 2 f_equal. now rewrite <- !app_assoc. }
    assert (Hleaf1 : exists nd', nd' ∈ L1 /\ SegmentTree.Node.isLeaf nd' = true).
    { specialize (M1 fuel ltac:(lia)).
      rewrite (seqZ_cons start) in M1 by lia.
      destruct (filter _ L1) as [|nd' rest] eqn:Efilter; [discriminate M1|].
      assert (Hin : nd' ∈ filter (fun nd => SegmentTree.Node.isLeaf nd = true) L1)
        by (rewrite Efilter; constructor).
      apply list_elem_of_filter in Hin as [? ?]. eauto. }
    split; [|split].
    + intros f Hf'. destruct f as [|f]; [lia|].
      rewrite filter_cons_False by (unfold info; cbn; discriminate).
      rewrite filter_app, map_app, (M1 f), (M2 f) by lia.
      replace (end_ - start)
        with (((start + end_) / 2 - start) + (end_ - (start + end_) / 2)) by lia.
      rewrite seqZ_app by lia. rewrite map_app.
      replace (start + ((start + end_) / 2 - start)) with ((start + end_) / 2) by lia.
      f_equal; apply map_ext_in; intros i Hi; apply list_elem_of_In, elem_of_seqZ in Hi;
        rewrite (collectLeaf_node f s node start end_ acc i Hw).
      * replace (i <? (start + end_) / 2) with true by (symmetry; apply Z.ltb_lt; lia).
        reflexivity.
      * replace (i <? (start + end_) / 2) with false by (symmetry; apply Z.ltb_ge; lia).
        reflexivity.
    + constructor; [cbn; lia|]. apply Forall_app. split.
      * eapply Forall_impl; [exact D1|]. cbn. intros; lia.
      * eapply Forall_impl; [exact D2|]. cbn. intros; lia.
    + constructor.
      * intros _. destruct Hleaf1 as (nd' & Hin & Hl'). exists nd'.
        split; [right; apply elem_of_app; now left|]. split; [exact Hl'|].
        pose proof (proj1 (Forall_forall _ _) D1 nd' Hin) as Hd. cbn in *. lia.
      * apply Forall_app. split.
        -- eapply Forall_impl; [exact I1|]. cbn. intros nd Hnd Hl.
           destruct (Hnd Hl) as (nd' & Hin & Hl' & Hd). exists nd'.
           split; [right; apply elem_of_app; now left|]. auto.
        -- eapply Forall_impl; [exact I2|]. cbn. intros nd Hnd Hl.
           destruct (Hnd Hl) as (nd' & Hin & Hl' & Hd). exists nd'.
           split; [right; apply elem_of_app; now right|]. auto.
Qed.

Lemma maxOf_spec l m :
  SegmentTree.maxOf l = Some m -> m ∈ l /\ Forall (fun d => d <= m) l.
Proof.
  destruct l as [|d rest]; [discriminate|]. intros [= <-].
  induction rest as [|e rest IH]; cbn [foldr].
  - split; [constructor|]. constructor; [lia|constructor].
  - destruct IH as [Hin Hall].
    inversion Hall as [|? ? Hd Hrest]; subst.
    apply elem_of_cons in Hin.
    destruct (Z.max_spec e (foldr Z.max d rest)) as [[Hlt ->]|[Hle ->]].
    + split.
      * destruct Hin as [->|Hin]; [constructor|]. right; right; exact Hin.
      * constructor; [exact Hd|]. constructor; [lia|exact Hrest].
    + split; [right; constructor|].
      constructor; [lia|]. constructor; [lia|].
      eapply Forall_impl; [exact Hrest|]. cbn. intros; lia.
Qed.

Lemma sortByStart_sorted l : forall a,
  map SegmentTree.Node.start l = seqZ a (Z.of_nat (length l)) ->
  SegmentTree.sortByStart l = l.
Proof.
  induction l as [|x l IH]; intros a H; [reflexivity|].
  cbn [length] in H. rewrite Nat2Z.inj_succ, seqZ_cons, Z.pred_succ in H by lia.
  cbn [map] in H. injection H as Hx Hl.
  unfold SegmentTree.sortByStart in *. cbn [foldr]. rewrite (IH _ Hl).
  destruct l as [|y l']; [reflexivity|].
  cbn [SegmentTree.insertByStart].
  cbn [length] in Hl. rewrite Nat2Z.inj_succ, seqZ_cons in Hl by lia.
  cbn [map] in Hl. injection Hl as Hy _.
  replace (SegmentTree.Node.start y <? SegmentTree.Node.start x) with false
    by (symmetry; apply Z.ltb_ge; lia).
  reflexivity.
Qed.

Lemma filter_agree {A : Type} (P Q : A -> Prop)
  `{!forall x, Decision (P x)} `{!forall x, Decision (Q x)} (l : list A) :
  Forall (fun x => P x <-> Q x) l -> filter P l = filter Q l.
Proof.
  induction 1 as [|x l Hx _ IH]; [reflexivity|].
  rewrite !filter_cons, IH.
  destruct (decide (P x)), (decide (Q x)); tauto.
Qed.

Lemma pushLevel_length allNodes m levels : forall acc,
  (length (foldl (SegmentTree.pushLevel allNodes m) acc levels)
   <= length acc + length levels)%nat.
Proof.
  induction levels as [|level levels IH]; intros acc; cbn [foldl length]; [lia|].
  etransitivity; [apply IH|]. unfold SegmentTree.pushLevel.
  destruct (_ >? 0); rewrite ?length_app; cbn [length]; lia.
Qed.

Lemma pushLevel_skip allNodes m levels :
  Forall (fun level =>
            Forall (fun nd => SegmentTree.displayLevel m nd <> level) allNodes) levels ->
  forall acc, foldl (SegmentTree.pushLevel allNodes m) acc levels = acc.
Proof.
  induction 1 as [|level levels Hlevel _ IH]; intros acc; cbn [foldl]; [reflexivity|].
  rewrite IH. unfold SegmentTree.pushLevel.
  now rewrite (filter_none _ _ Hlevel).
Qed.

(** The rows of the visualisation of a well-formed tree with at least one
    segment: at most three rows of inner nodes, then the row of the
    segments. *)
Lemma getTreeVisualization_rows s :
  wf s -> 1 <= SegmentTree.n s ->
  exists upper,
    SegmentTree.getTreeVisualization s =
      Ok (upper ++ [map (fun i => SegmentTree.Cell.mk (SegmentTree.effectiveLeaf s i)
                                                      (i + 1, i + 2))
                        (seqZ 0 (SegmentTree.n s))]) /\
    (length upper <= 3)%nat.
Proof.
  intros Hwf Hn. unfold SegmentTree.getTreeVisualization.
  replace (SegmentTree.n s =? 0) with false by (symmetry; apply Z.eqb_neq; lia).
  destruct (collectNodes_spec (S (Z.to_nat (SegmentTree.n s))) s 0 0 (SegmentTree.n s)
              1 0 0 [] Hwf (fits_root s Hwf Hn))
    as (L & E & Hmap & Hdepth & Hinner); [lia..|].
  rewrite E. cbn [app].
  specialize (Hmap (Z.to_nat (SegmentTree.n s)) ltac:(lia)).
  rewrite Z.sub_0_r in Hmap.
  set (leaves := filter (fun nd => SegmentTree.Node.isLeaf nd = true) L) in *.
  assert (Hstarts : map SegmentTree.Node.start leaves = seqZ 0 (SegmentTree.n s)).
  { apply (f_equal (map fst)) in Hmap. rewrite !map_map in Hmap. cbn [fst] in Hmap.
    rewrite map_id in Hmap. exact Hmap. }
  assert (Hcells : map (fun nd => SegmentTree.Cell.mk (SegmentTree.Node.value nd)
                                                      (SegmentTree.Node.range nd)) leaves
                   = map (fun i => SegmentTree.Cell.mk (SegmentTree.effectiveLeaf s i)
                                                       (i + 1, i + 2))
                         (seqZ 0 (SegmentTree.n s))).
  { apply (f_equal (map snd)) in Hmap. rewrite !map_map in Hmap. exact Hmap. }
  assert (Hlen : Z.of_nat (length leaves) = SegmentTree.n s).
  { rewrite <- (length_map SegmentTree.Node.start), Hstarts, length_seqZ. lia. }
  destruct (SegmentTree.maxOf (map SegmentTree.Node.depth leaves)) as [m|] eqn:Hmax.
  2:{ destruct leaves; [cbn in Hlen; lia|discriminate Hmax]. }
  apply maxOf_spec in Hmax as [Hm_in Hm_max].
  assert (Hleaf_depth : forall nd, nd ∈ L -> SegmentTree.Node.isLeaf nd = true ->
                                   SegmentTree.Node.depth nd <= m).
  { intros nd Hnd Hl. apply (proj1 (Forall_forall _ _) Hm_max).
    apply list_elem_of_In, in_map, list_elem_of_In.
    apply list_elem_of_filter. auto. }
  assert (Hm0 : 0 <= m).
  { apply list_elem_of_In, in_map_iff in Hm_in as (nd & <- & Hin).
    apply list_elem_of_In, list_elem_of_filter in Hin as [_ Hin].
    exact (proj1 (Forall_forall _ _) Hdepth nd Hin). }
  assert (Hbottom : filter (fun nd => SegmentTree.displayLevel m nd = m) L = leaves).
  { apply filter_agree. apply Forall_forall. intros nd Hnd.
    unfold SegmentTree.displayLevel.
    destruct (SegmentTree.Node.isLeaf nd) eqn:Hl; [tauto|].
    split; [|discriminate]. intros Hd.
    destruct (proj1 (Forall_forall _ _) Hinner nd Hnd Hl) as (nd' & Hin' & Hl' & Hlt).
    pose proof (Hleaf_depth nd' Hin' Hl').
    pose proof (proj1 (Forall_forall _ _) Hdepth nd Hnd).
    destruct (SegmentTree.Node.depth nd <=? 2); lia. }
  rewrite (seqZ_app 0 m 1), foldl_app by lia.
  change (seqZ (0 + m) 1) with [m]. cbn [foldl].
  unfold SegmentTree.pushLevel at 1.
  rewrite Hbottom, (sortByStart_sorted leaves 0) by (rewrite Hlen; exact Hstarts).
  replace (Z.of_nat (length leaves) >? 0) with true by (symmetry; rewrite Hlen; lia).
  rewrite Hcells. eexists. split; [reflexivity|].
  assert (Hsplit : seqZ 0 m =
                   seqZ 0 (Z.min m 3) ++ seqZ (0 + Z.min m 3) (m - Z.min m 3)).
  { rewrite <- seqZ_app by lia. f_equal. lia. }
  rewrite Hsplit, foldl_app, pushLevel_skip.
  - etransitivity; [apply pushLevel_length|]. rewrite length_seqZ. cbn [length]. lia.
  - apply Forall_seqZ. intros level Hlevel. apply Forall_forall. intros nd _.
    unfold SegmentTree.displayLevel.
    destruct (SegmentTree.Node.isLeaf nd); [lia|].
    destruct (SegmentTree.Node.depth nd <=? 2) eqn:Hd; lia.
Qed.

(** X15.  The visualisation of a tree after any in-range calls with deltas
    whose magnitudes sum to at most [2^52 / (2 * n)] (every cell then stays
    within [2^52], where the doubles of the source are exact): for an empty
    tree it has no rows; otherwise its last row lists the segments from left
    to right, each with the sum of the deltas of the updates that cover it
    and the 1-based range [[i + 1, i + 2)], and above it there are at most
    three rows (the inner nodes of depth 0, 1 and 2). *)
Theorem X15_visualisation_ends_with_the_segments n s0 cs :
  SegmentTree.constructor n = Ok s0 -> Forall (call_in_range n) cs ->
  2 * n * spec_deltaBudget cs <= 2 ^ 52 ->
  exists vs s,
    run_calls cs s0 = Ok (vs, s) /\
    cells_within s (2 ^ 52) /\
    (n = 0 -> SegmentTree.getTreeVisualization s = Ok []) /\
    (1 <= n -> exists upper,
       SegmentTree.getTreeVisualization s =
         Ok (upper ++ [map (fun i => SegmentTree.Cell.mk (spec_deltaSum cs i)
                                                         (i + 1, i + 2))
                           (seqZ 0 n)]) /\
       (length upper <= 3)%nat).
Proof.
  intros Hnew Hcs Hbound. destruct (constructor_wf n s0 Hnew) as [Hwf En].
  pose proof Hcs as Hcs'. rewrite <- En in Hcs'.
  destruct (run_calls_leaves cs s0 Hwf Hcs') as (vs & s & E & Hsh & Hleaf).
  exists vs, s. split; [exact E|].
  split; [exact (run_calls_cells_within n s0 cs vs s _ Hnew Hcs E Hbound)|].
  pose proof (shape_wf _ _ Hsh Hwf) as Hwf'. destruct Hsh as (En' & _).
  split.
  - intros Hn0. unfold SegmentTree.getTreeVisualization.
    replace (SegmentTree.n s =? 0) with true by (symmetry; apply Z.eqb_eq; lia).
    reflexivity.
  - intros Hn1.
    destruct (getTreeVisualization_rows s Hwf' ltac:(lia)) as (upper & Hviz & Hlen).
    exists upper. split; [|exact Hlen]. rewrite Hviz. do 3 f_equal.
    replace (SegmentTree.n s) with n by lia.
    apply map_ext_in. intros i Hi. apply list_elem_of_In, elem_of_seqZ in Hi.
    rewrite Hleaf by lia. rewrite (effectiveLeaf_new n s0 i Hnew) by lia.
    f_equal.
Qed.

Lemma X15_witness :
  exists s0 vs s,
    SegmentTree.constructor 5 = Ok s0 /\
    run_calls [Update 0 3 1; Query 1 2; Update 2 5 1] s0 = Ok (vs, s) /\
    exists upper,
      SegmentTree.getTreeVisualization s =
        Ok (upper ++ [[SegmentTree.Cell.mk 1 (1, 2); SegmentTree.Cell.mk 1 (2, 3);
                       SegmentTree.Cell.mk 2 (3, 4); SegmentTree.Cell.mk 1 (4, 5);
                       SegmentTree.Cell.mk 1 (5, 6)]]).
Proof.
  destruct (SegmentTree.constructor 5) as [s0|f] eqn:E.
  2:{ vm_compute in E. discriminate E. }
  destruct (X15_visualisation_ends_with_the_segments 5 s0
              [Update 0 3 1; Query 1 2; Update 2 5 1] E)
    as (vs & s & Hrun & _ & _ & Hviz).
  { repeat constructor; cbn; lia. }
  { vm_compute. discriminate. }
  exists s0, vs, s. split; [reflexivity|]. split; [exact Hrun|].
  destruct (Hviz ltac:(lia)) as (upper & Hv & _).
  exists upper. exact Hv.
Defined.

(** X16.  What the ledger's two visualisations show at the bottom.  In a
    reachable ledger with at least one segment, the last row of
    [getGlobalTreeVisualization()] gives for each segment the number of
    active bookings that cover it, and the last row of
    [getTreeVisualization(seat)] for a valid seat the number of active
    bookings of that seat that cover it; for a seat id that fails validation
    the latter is the empty list. *)
Theorem X16_ledger_visualisations s :
  reachable s ->
  (1 <= SeatBookingSystem.numSegments s ->
     (exists upper,
        SeatBookingSystem.getGlobalTreeVisualization s =
          Ok (upper ++ [map (fun i => SegmentTree.Cell.mk
                                        (spec_activeCount (SeatBookingSystem.bookings s) i)
                                        (i + 1, i + 2))
                            (seqZ 0 (SeatBookingSystem.numSegments s))]) /\
        (length upper <= 3)%nat) /\
     (forall seat, 0 <= seat < SeatBookingSystem.numSeats s ->
        exists upper,
          SeatBookingSystem.getTreeVisualization seat s =
            Ok (upper ++ [map (fun i => SegmentTree.Cell.mk
                                 (spec_seatCount (SeatBookingSystem.bookings s) seat i)
                                 (i + 1, i + 2))
                              (seqZ 0 (SeatBookingSystem.numSegments s))]) /\
          (length upper <= 3)%nat)) /\
  (forall seat, seat < 0 \/ SeatBookingSystem.numSeats s <= seat ->
     SeatBookingSystem.getTreeVisualization seat s = Ok []).
Proof.
  intros Hreach. pose proof (reachable_wf s Hreach) as Hwf.
  split.
  - intros Hn. split.
    + pose proof Hwf as (_ & _ & _ & Hwg & Hng & _).
      destruct (getTreeVisualization_rows _ Hwg ltac:(lia)) as (upper & Hviz & Hlen).
      exists upper. split; [|exact Hlen].
      unfold SeatBookingSystem.getGlobalTreeVisualization. rewrite Hviz, Hng.
      do 3 f_equal. apply map_ext_in. intros i Hi.
      apply list_elem_of_In, elem_of_seqZ in Hi.
      rewrite (global_leaves_count_active s Hreach i) by lia. reflexivity.
    + intros seat Hseat.
      assert (Hvs : SeatBookingSystem.invalidSeat seat (SeatBookingSystem.numSeats s)
                    = false) by (apply invalidSeat_false; lia).
      destruct (wf_sys_seat_exists _ _ Hwf Hvs) as [tr Htr].
      destruct (wf_sys_seat _ _ _ Hwf Htr) as [Hwt Hnt].
      destruct (getTreeVisualization_rows _ Hwt ltac:(lia)) as (upper & Hviz & Hlen).
      exists upper. split; [|exact Hlen].
      unfold SeatBookingSystem.getTreeVisualization. rewrite Hvs, Htr, Hviz, Hnt.
      do 3 f_equal. apply map_ext_in. intros i Hi.
      apply list_elem_of_In, elem_of_seqZ in Hi.
      rewrite (reachable_seats_count_active s Hreach _ _ i Htr) by lia.
      replace (Z.of_nat (Z.to_nat seat)) with seat by lia. reflexivity.
  - intros seat Hseat. unfold SeatBookingSystem.getTreeVisualization.
    replace (SeatBookingSystem.invalidSeat seat (SeatBookingSystem.numSeats s)) with true;
      [reflexivity|].
    symmetry. unfold SeatBookingSystem.invalidSeat. apply orb_true_iff. lia.
Qed.

Lemma X16_witness :
  reachable ledger_booked_0_5 /\
  exists upper,
    SeatBookingSystem.getTreeVisualization 0 ledger_booked_0_5 =
      Ok (upper ++ [[SegmentTree.Cell.mk 1 (1, 2); SegmentTree.Cell.mk 1 (2, 3);
                     SegmentTree.Cell.mk 1 (3, 4); SegmentTree.Cell.mk 1 (4, 5);
                     SegmentTree.Cell.mk 1 (5, 6); SegmentTree.Cell.mk 0 (6, 7);
                     SegmentTree.Cell.mk 0 (7, 8); SegmentTree.Cell.mk 0 (8, 9);
                     SegmentTree.Cell.mk 0 (9, 10)]]).
Proof.
  split; [exact ledger_booked_0_5_reachable|].
  destruct (X16_ledger_visualisations _ ledger_booked_0_5_reachable) as (H & _).
  destruct H as (_ & Hseat).
  { vm_compute. discriminate. }
  destruct (Hseat 0) as (upper & Hviz & _).
  { vm_compute; split; [discriminate|reflexivity]. }
  exists upper. exact Hviz.
Defined.

(** ** The level-by-level visualisation *)

Lemma scan_spec s P nodes : forall level nextNodes,
  wf s -> Forall (pending_ok s P) nodes ->
  exists L N,
    SegmentTree.ByLevel.scan s nodes level nextNodes = Ok (level ++ L, nextNodes ++ N) /\
    L = map (fun nd => SegmentTree.Cell.mk
                         (SegmentTree.tree s !!! SegmentTree.ByLevel.node nd
                          + SegmentTree.ByLevel.accLazy nd)
                         (SegmentTree.ByLevel.start nd, SegmentTree.ByLevel.end_ nd))
            nodes /\
    Forall (pending_ok s (2 * P)) N.
Proof.
  induction nodes as [|nd rest IH]; intros level nextNodes Hwf Hall.
  - exists [], []. cbn. rewrite !app_nil_r. auto.
  - inversion Hall as [|? ? (Hfit & Hrange & Hn) Hrest]; subst.
    cbn [SegmentTree.ByLevel.scan].
    replace ((SegmentTree.ByLevel.start nd >=? SegmentTree.ByLevel.end_ nd)
             || (SegmentTree.ByLevel.start nd >=? SegmentTree.n s)) with false
      by (symmetry; apply orb_false_iff; lia).
    destruct (fits_node_bound _ _ _ _ _ Hwf Hfit) as [Hbt Hbz].
    destruct (lookup_lt_is_Some_2 _ _ Hbt) as [tv Htv].
    destruct (lookup_lt_is_Some_2 _ _ Hbz) as [lz Hlz].
    pose proof (list_lookup_total_correct _ _ _ Htv) as Htot.
    rewrite Htv. rewrite Z.min_l by lia.
    destruct (SegmentTree.ByLevel.end_ nd - SegmentTree.ByLevel.start nd >? 1) eqn:Hw.
    + rewrite Hlz.
      assert (Hw' : 2 <= SegmentTree.ByLevel.end_ nd - SegmentTree.ByLevel.start nd)
        by lia.
      pose proof (mid_bounds _ _ Hw') as Hm.
      match goal with |- context [SegmentTree.ByLevel.scan s rest ?lv ?nx] =>
        destruct (IH lv nx Hwf Hrest) as (L & N & E & HL & HN) end.
      rewrite E. eexists (_ :: L), (_ :: _ :: N). split.
      { now rewrite <- !app_assoc. }
      split; [cbn [map]; now rewrite Htot, HL|].
      constructor; [|constructor; [|exact HN]].
      * split; [apply (fits_left s s); auto using shape_refl|cbn; lia].
      * split; [apply (fits_right s s); auto using shape_refl|cbn; lia].
    + match goal with |- context [SegmentTree.ByLevel.scan s rest ?lv ?nx] =>
        destruct (IH lv nx Hwf Hrest) as (L & N & E & HL & HN) end.
      rewrite E. eexists (_ :: L), N. split.
      { now rewrite <- !app_assoc. }
      split; [cbn [map]; now rewrite Htot, HL|exact HN].
Qed.

Lemma buildLevel_spec s fuel : forall P nodes levels,
  wf s -> Forall (pending_ok s P) nodes -> nodes <> [] ->
  (length levels < 5)%nat -> (5 <= length levels + fuel)%nat ->
  exists rest,
    SegmentTree.ByLevel.buildLevel fuel s nodes levels =
      Ok (tt, levels ++
              map (fun nd => SegmentTree.Cell.mk
                               (SegmentTree.tree s !!! SegmentTree.ByLevel.node nd
                                + SegmentTree.ByLevel.accLazy nd)
                               (SegmentTree.ByLevel.start nd, SegmentTree.ByLevel.end_ nd))
                  nodes :: rest) /\
    (length levels + 1 + length rest <= 5)%nat /\
    Forall (fun row => row <> []) rest.
Proof.
  induction fuel as [|fuel IH]; intros P nodes levels Hwf Hall Hne Hlen Hfuel; [lia|].
  cbn [SegmentTree.ByLevel.buildLevel].
  destruct (scan_spec s P nodes [] [] Hwf Hall) as (L & N & E & HL & HN).
  rewrite E. cbn [app].
  assert (HlenL : length L = length nodes) by (rewrite HL; apply length_map).
  replace (Z.of_nat (length L) >? 0) with true
    by (symmetry; destruct nodes; [congruence|cbn in HlenL; lia]).
  rewrite length_app. cbn [length].
  destruct ((Z.of_nat (length levels + 1) <? 5) && (Z.of_nat (length N) >? 0)) eqn:Hmore.
  - apply andb_true_iff in Hmore as [Hfew Hsome]. apply Z.ltb_lt in Hfew.
    destruct (IH (2 * P) N (levels ++ [L]) Hwf HN) as (rest & E' & Hlen' & Hrows).
    + destruct N; [cbn in Hsome; discriminate Hsome|discriminate].
    + rewrite length_app. cbn [length]. lia.
    + rewrite length_app. cbn [length]. lia.
    + rewrite E'. eexists (_ :: rest). split.
      { rewrite <- app_assoc. cbn [app]. rewrite HL. reflexivity. }
      rewrite length_app in Hlen'. cbn [length] in *. split; [lia|].
      constructor; [|exact Hrows].
      destruct N; [cbn in Hsome; discriminate Hsome|discriminate].
  - exists []. rewrite HL. split; [reflexivity|]. cbn [length]. split; [lia|constructor].
Qed.

(** X17.  The level-by-level [getTreeVisualization] (the variant in the
    second copy of the class), on a tree after any in-range calls: for an
    empty tree it has no rows; otherwise it returns between one and five
    rows, none of them empty, the first being the root alone with the value
    [tree[0]] and the 0-based range [[0, n)]. *)
Theorem X17_level_view_has_one_to_five_rows n s0 cs :
  SegmentTree.constructor n = Ok s0 -> Forall (call_in_range n) cs ->
  exists vs s,
    run_calls cs s0 = Ok (vs, s) /\
    (n = 0 -> SegmentTree.ByLevel.getTreeVisualization s = Ok []) /\
    (1 <= n -> exists rest,
       SegmentTree.ByLevel.getTreeVisualization s =
         Ok ([SegmentTree.Cell.mk (SegmentTree.tree s !!! 0%nat) (0, n)] :: rest) /\
       (length rest <= 4)%nat /\ Forall (fun row => row <> []) rest /\
       (n = 1 -> rest = [])).
Proof.
  intros Hnew Hcs. destruct (constructor_wf n s0 Hnew) as [Hwf En].
  rewrite <- En in Hcs.
  destruct (run_calls_ok cs s0 Hwf Hcs) as (vs & s & E & Hsh).
  exists vs, s. split; [exact E|].
  pose proof (shape_wf _ _ Hsh Hwf) as Hwf'. destruct Hsh as (En' & _).
  unfold SegmentTree.ByLevel.getTreeVisualization. split.
  - intros Hn0.
    replace (SegmentTree.n s =? 0) with true by (symmetry; apply Z.eqb_eq; lia).
    reflexivity.
  - intros Hn1.
    replace (SegmentTree.n s =? 0) with false by (symmetry; apply Z.eqb_neq; lia).
    assert (Hroot : Forall (pending_ok s 1)
                      [SegmentTree.ByLevel.mkPending 0 0 (SegmentTree.n s) 0]).
    { constructor; [|constructor]. split; [apply fits_root; [exact Hwf'|lia]|cbn; lia]. }
    destruct (buildLevel_spec s 5 1 _ [] Hwf' Hroot ltac:(discriminate)
                ltac:(cbn; lia) ltac:(cbn; lia)) as (rest & Eb & Hlen & Hrows).
    rewrite Eb. cbn [app map SegmentTree.ByLevel.node SegmentTree.ByLevel.accLazy
                     SegmentTree.ByLevel.start SegmentTree.ByLevel.end_].
    rewrite Z.add_0_r. replace (SegmentTree.n s) with n by lia.
    exists rest. split; [reflexivity|]. cbn [length] in Hlen.
    split; [lia|]. split; [exact Hrows|].
    intros ->. revert Eb. cbn [SegmentTree.ByLevel.buildLevel SegmentTree.ByLevel.scan].
    replace (SegmentTree.n s) with 1 by lia. cbn.
    destruct Hwf' as (_ & Ht & _).
    destruct (SegmentTree.tree s) as [|tv tl]; [cbn in Ht; lia|]. cbn.
    intros [= Hrest]. symmetry. exact Hrest.
Qed.

Lemma X17_witness :
  exists s0 vs s rest,
    SegmentTree.constructor 9 = Ok s0 /\
    run_calls [Update 0 5 1; Query 1 2] s0 = Ok (vs, s) /\
    SegmentTree.ByLevel.getTreeVisualization s
      = Ok ([SegmentTree.Cell.mk 2 (0, 9)] :: rest) /\
    length rest = 4%nat.
Proof.
  destruct (SegmentTree.constructor 9) as [s0|f] eqn:E.
  2:{ vm_compute in E. discriminate E. }
  destruct (X17_level_view_has_one_to_five_rows 9 s0 [Update 0 5 1; Query 1 2] E)
    as (vs & s & Hrun & _ & Hviz).
  { repeat constructor; cbn; lia. }
  destruct (Hviz ltac:(lia)) as (rest & Hv & Hlen & _).
  exists s0, vs, s, rest. split; [reflexivity|]. split; [exact Hrun|].
  pose proof E as E'. vm_compute in E'. injection E' as <-.
  pose proof Hrun as Hrun'. vm_compute in Hrun'. injection Hrun' as _ <-.
  split; [exact Hv|].
  vm_compute in Hv. injection Hv as <-. reflexivity.
Defined.

(** ** Ranges that lie past the last segment *)

Lemma update_outside l r val s :
  SegmentTree.n s <= l -> SegmentTree.update l r val s = Ok (tt, s).
Proof.
  intros H. unfold SegmentTree.update. cbn [SegmentTree.update_rec].
  replace ((r <=? 0) || (SegmentTree.n s <=? l)) with true; [reflexivity|].
  symmetry. apply orb_true_iff. right. apply Z.leb_le. exact H.
Qed.

Lemma query_outside l r s :
  SegmentTree.n s <= l -> SegmentTree.query l r s = Ok (0, s).
Proof.
  intros H. unfold SegmentTree.query. cbn [SegmentTree.query_rec].
  replace ((r <=? 0) || (SegmentTree.n s <=? l)) with true; [reflexivity|].
  symmetry. apply orb_true_iff. right. apply Z.leb_le. exact H.
Qed.

(** X18.  The range check of [book] compares [r] with the number of
    stations, so the range [[numSegments, numStations)] passes it although
    it holds no segment.  On every reachable ledger [book] with that range
    succeeds for every valid seat, whatever is booked already: it appends an
    active record and raises [getActiveBookings] by one, leaves every tree
    as it was, and the seat keeps reading as available for the range. *)
Theorem X18_booking_past_the_last_segment s seat :
  reachable s ->
  0 <= seat < SeatBookingSystem.numSeats s ->
  exists res s',
    SeatBookingSystem.book seat (SeatBookingSystem.numSegments s)
      (SeatBookingSystem.numStations s) s = Ok (res, s') /\
    SeatBookingSystem.success res = true /\
    SeatBookingSystem.bookings s' =
      SeatBookingSystem.bookings s ++
      [SeatBookingSystem.mkBooking
         (Z.of_nat (length (SeatBookingSystem.bookings s)) + 1) seat
         (SeatBookingSystem.numSegments s) (SeatBookingSystem.numStations s) true] /\
    SeatBookingSystem.seats s' = SeatBookingSystem.seats s /\
    SeatBookingSystem.globalTree s' = SeatBookingSystem.globalTree s /\
    SeatBookingSystem.getActiveBookings s' = SeatBookingSystem.getActiveBookings s + 1 /\
    SeatBookingSystem.isAvailable seat (SeatBookingSystem.numSegments s)
      (SeatBookingSystem.numStations s) s' = Ok (true, s').
Proof.
  intros Hreach Hseat. pose proof (reachable_wf s Hreach) as Hwf.
  pose proof Hwf as (Eseg & _ & _ & _ & Hng & Hbs).
  assert (Hst : 1 <= SeatBookingSystem.numStations s).
  { clear -Hreach. induction Hreach as [numSeats numStations s H|s seat l r res s' Hr IH H
      |s seat l r res s' Hr IH H|s l r res s' Hr IH H|s seat l r res s' Hr IH H
      |s seat res s' Hr IH H].
    - destruct (Z_le_gt_dec 1 numStations) as [Hle|Hgt].
      + revert H. unfold SeatBookingSystem.constructor.
        destruct (SeatBookingSystem.pushSeats _ _ _); [|discriminate].
        destruct (SegmentTree.constructor _); [|discriminate].
        intros [= <-]. exact Hle.
      + exfalso. revert H. unfold SeatBookingSystem.constructor.
        destruct (SeatBookingSystem.pushSeats _ _ _); [|discriminate].
        unfold SegmentTree.constructor, SegmentTree.newArray.
        replace (0 <=? 4 * (numStations - 1)) with false
          by (symmetry; apply Z.leb_gt; lia).
        discriminate.
    - destruct (exec_log (Book seat l r) s (Result res) s' (reachable_wf s Hr))
        as ((_ & E & _) & _); [unfold exec, bind; now rewrite H|]. now rewrite E.
    - destruct (exec_log (Cancel seat l r) s (Result res) s' (reachable_wf s Hr))
        as ((_ & E & _) & _); [unfold exec, bind; now rewrite H|]. now rewrite E.
    - destruct (exec_log (QueryAvailable l r) s (Seats res) s' (reachable_wf s Hr))
        as ((_ & E & _) & _); [unfold exec, bind; now rewrite H|]. now rewrite E.
    - destruct (exec_log (IsAvailable seat l r) s (Answer res) s' (reachable_wf s Hr))
        as ((_ & E & _) & _); [unfold exec, bind; now rewrite H|]. now rewrite E.
    - destruct (exec_log (GetSeatStatus seat) s (Status res) s' (reachable_wf s Hr))
        as ((_ & E & _) & _); [unfold exec, bind; now rewrite H|]. now rewrite E. }
  set (l := SeatBookingSystem.numSegments s) in *.
  set (r := SeatBookingSystem.numStations s) in *.
  assert (Hvs : SeatBookingSystem.invalidSeat seat (SeatBookingSystem.numSeats s) = false)
    by (apply invalidSeat_false; lia).
  assert (Hvr : SeatBookingSystem.invalidRange l r (SeatBookingSystem.numStations s)
                = false) by (apply invalidRange_false; lia).
  destruct (wf_sys_seat_exists _ _ Hwf Hvs) as [tr Htr].
  destruct (wf_sys_seat _ _ _ Hwf Htr) as [_ Hnt].
  pose proof (book_success s seat l r tr 0 tr tr (SeatBookingSystem.globalTree s)
                Hvs Hvr Htr (query_outside l r tr ltac:(lia)) (Z.le_refl 0)
                (update_outside l r 1 tr ltac:(lia))
                (update_outside l r 1 (SeatBookingSystem.globalTree s) ltac:(lia)))
    as Hout.
  apply book_complete in Hout.
  match type of Hout with _ = Ok (_, ?x) => set (s1 := x) in * end.
  assert (Hseats : SeatBookingSystem.seats s1 = SeatBookingSystem.seats s).
  { cbn. rewrite (list_insert_id _ _ _ Htr). now apply list_insert_id. }
  eexists _, s1. split; [exact Hout|]. split; [reflexivity|].
  split; [reflexivity|].
  split; [exact Hseats|]. split; [reflexivity|]. split.
  - unfold SeatBookingSystem.getActiveBookings.
    cbn [s1 SeatBookingSystem.bookings withBookings].
    rewrite filter_app, length_app, filter_cons_True by reflexivity.
    rewrite filter_nil. cbn [length]. lia.
  - unfold SeatBookingSystem.isAvailable, bind, SeatBookingSystem.get.
    change (SeatBookingSystem.numSeats s1) with (SeatBookingSystem.numSeats s).
    change (SeatBookingSystem.numStations s1) with (SeatBookingSystem.numStations s).
    rewrite Hvs, Hvr.
    erewrite onSeat_ok; [|lia|rewrite Hseats; exact Htr
                         |exact (query_outside l r tr ltac:(lia))].
    unfold ret. do 2 f_equal. apply withSeat_id. rewrite Hseats. exact Htr.
Qed.

Lemma X18_witness :
  reachable ledger_booked_0_5 /\
  exists res s',
    SeatBookingSystem.book 0 9 10 ledger_booked_0_5 = Ok (res, s') /\
    SeatBookingSystem.success res = true /\
    SeatBookingSystem.seats s' = SeatBookingSystem.seats ledger_booked_0_5 /\
    SeatBookingSystem.getActiveBookings s' = 2.
Proof.
  split; [exact ledger_booked_0_5_reachable|].
  destruct (X18_booking_past_the_last_segment ledger_booked_0_5 0
              ledger_booked_0_5_reachable)
    as (res & s' & E & Hs & _ & Hseats & _ & Hact & _).
  { vm_compute; split; [discriminate|reflexivity]. }
  exists res, s'. split; [exact E|]. split; [exact Hs|]. split; [exact Hseats|].
  rewrite Hact. reflexivity.
Defined.
